(** * INET: streaming transmitter state machine and path tracker

    A shallow embedding of

    - [StreamThroughTransmitter] (start / progress / end / abort of one
      in-flight transmission, the transmission end timer and the buffer
      underrun timer), and
    - [PathVisualizerBase] (incomplete paths keyed by label and chunk id,
      completed path visualizations, fade-out on display refresh),

    together with the properties stated about them.

    Numeric conventions.  A [double] is an IEEE 754 binary64 value, with
    the operations of the Standard Library's executable specification of
    floating-point arithmetic ([SpecFloat], precision 53, rounding to
    nearest even): sums, differences, products and quotients are rounded,
    and NaN, the infinities and the signed zeros behave as on the
    hardware.  [simtime_t] and [clocktime_t] are 64-bit fixed-point
    numbers, kept as their count of ticks; how the kernel converts between
    them and [double] is a parameter of the model.  The conversion of a
    [double] to the 64-bit bit count [b] is written out, and a bit count
    that meets a [double] in an expression is converted to [double].  Sums,
    differences and negations of bit counts, of times and of counters are
    taken in [Z]: signed overflow, undefined in C++ for the integers and
    an error of the kernel for the times, is outside the model. *)

From Stdlib Require Import ZArith QArith Qround Qfield Lia String List.
From Stdlib Require Import SpecFloat.
From stdpp Require Import gmap strings list.

Local Open Scope Z_scope.

(** ** Doubles *)

Module Double.

(** The binary64 format. *)
Definition prec : Z := 53.
Definition emax : Z := 1024.

Definition double : Type := spec_float.

Definition NaN : double := S754_nan.
Definition infinity : double := S754_infinity false.

Definition neg : double -> double := SFopp.
Definition add : double -> double -> double := SFadd prec emax.
Definition sub : double -> double -> double := SFsub prec emax.
Definition mul : double -> double -> double := SFmul prec emax.
Definition div : double -> double -> double := SFdiv prec emax.

(** [x < y] and [x >= y]: false as soon as one side is NaN. *)
Definition ltb : double -> double -> bool := SFltb.
Definition geb (x y : double) : bool := SFleb y x.

(** The conversion of a 64-bit integer to [double], which rounds to the
    nearest representable value. *)
Definition of_int64 (n : Z) : double := binary_normalize prec emax n 0 false.

(** [std::floor]: a value without a fractional part (all of them from
    2^52 on), a zero, an infinity and NaN are returned as they are. *)
Definition floor (x : double) : double :=
  match x with
  | S754_finite s m e =>
      if 0 <=? e then x
      else
        let q := Z.shiftr (Zpos m) (- e) in
        let exact := Z.shiftl q (- e) =? Zpos m in
        if s then
          binary_normalize prec emax (- (if exact then q else q + 1)) 0 true
        else binary_normalize prec emax q 0 false
  | _ => x
  end.

Definition int64_min : Z := - 2 ^ 63.

(** The conversion of a [double] to a 64-bit integer, which truncates.
    For NaN, the infinities and the values outside the range of the
    integer type C++ leaves it undefined; x86-64 yields the least 64-bit
    integer. *)
Definition to_int64 (x : double) : Z :=
  match x with
  | S754_zero _ => 0
  | S754_finite s m e =>
      let n :=
        if 0 <=? e then Z.shiftl (Zpos m) e else Z.shiftr (Zpos m) (- e) in
      let n := if s then - n else n in
      if (int64_min <=? n) && (n <? 2 ^ 63) then n else int64_min
  | _ => int64_min
  end.

(** [std::isfinite]. *)
Definition isfinite (x : double) : bool :=
  match x with
  | S754_zero _ | S754_finite _ _ _ => true
  | _ => false
  end.

(** The values that a [double] of the machine takes: the mantissa and the
    exponent of a finite value are the ones its binary64 encoding gives
    (at most 53 digits, and fewer only at the least exponent). *)
Definition valid (x : double) : bool := valid_binary prec emax x.

(** [b(std::floor(x))]. *)
Definition floor_b (x : double) : Z := to_int64 (floor x).

(** A bit count as a [double]. *)
Definition of_b (n : Z) : double := of_int64 n.

End Double.

Import Double.

Declare Scope dbl_scope.
Delimit Scope dbl_scope with dbl.
Bind Scope dbl_scope with double.
Notation "x + y" := (Double.add x y) : dbl_scope.
Notation "x - y" := (Double.sub x y) : dbl_scope.
Notation "x * y" := (Double.mul x y) : dbl_scope.
Notation "x / y" := (Double.div x y) : dbl_scope.
Notation "- x" := (Double.neg x) : dbl_scope.
Notation "x <? y" := (Double.ltb x y) : dbl_scope.
Notation "x >=? y" := (Double.geb x y) (at level 70) : dbl_scope.

(** ** Errors and results *)

Inductive Error : Type :=
| AssertionFailure (expr : string)
| cRuntimeError (msg : string).

Inductive result (A : Type) : Type :=
| Ok (a : A)
| Fail (e : Error).

Arguments Ok {A} a.
Arguments Fail {A} e.

Definition isOk {A} (r : result A) : bool :=
  match r with Ok _ => true | Fail _ => false end.

(** ** Times *)

(** Simulation time and clock time (two distinct time bases): 64-bit
    fixed-point numbers, kept as their count of ticks. *)
Definition simtime_t : Type := Z.
Definition clocktime_t : Type := Z.

(** The numeric interface of the simulation kernel ([SimTime]) and of the
    clock model ([ClockTime]), whose sources are not among the files
    embedded here: the number of ticks in a second (a power of ten, fixed
    when the simulation is set up), the [dbl()] of a simulation time and
    of a clock time, and the conversion of a [double] to a simulation
    time.  That the kernel raises an error for a [double] that it cannot
    represent as a time is not represented. *)
Record Kernel : Type := mkKernel {
  dscale : Z;
  simtime_dbl : simtime_t -> double;
  clocktime_dbl : clocktime_t -> double;
  simtime_of_double : double -> simtime_t
}.

(** The time that an integer number of seconds converts to, as in
    [txStartTime = -1]. *)
Definition seconds (kernel : Kernel) (n : Z) : Z := n * dscale kernel.

(** A kernel for concrete checks, with a resolution of picoseconds:
    [dbl()] multiplies the count of ticks by the inverse of the scale, and
    a [double] is multiplied by the scale and rounded to the nearest
    tick. *)
Definition sampleScale : Z := 10 ^ 12.

Definition sampleDbl (t : Z) : double :=
  (of_int64 t * (of_int64 1 / of_int64 sampleScale))%dbl.

Definition sampleOfDouble (x : double) : Z :=
  floor_b (of_int64 sampleScale * x + of_int64 1 / of_int64 2)%dbl.

Definition sampleKernel : Kernel :=
  mkKernel sampleScale sampleDbl sampleDbl sampleOfDouble.

(** The same kernel, but with a [dbl()] that divides the count of ticks by
    the scale. *)
Definition sampleDblByDivision (t : Z) : double :=
  (of_int64 t / of_int64 sampleScale)%dbl.

Definition sampleKernelByDivision : Kernel :=
  mkKernel sampleScale sampleDblByDivision sampleDblByDivision sampleOfDouble.

(** ** The streaming transmitter *)

Module StreamThroughTransmitter.

(** Bit counts and data rates. *)
Definition b : Type := Z.
Definition bps : Type := double.

(** Modelled from the spec: the class [Packet], whose source is not among
    the files embedded here.  A packet carries its content as a sequence
    of bits, a bit-error mark and the identifier of the transmission it
    belongs to. *)
Record Packet : Type := mkPacket {
  content : list bool;
  bitError : bool;
  transmissionId : Z
}.

Definition getTotalLength (p : Packet) : b := Z.of_nat (length (content p)).

(** Modelled from the spec: [Packet::eraseAtBack], whose source is not
    among the files embedded here ("truncates the packet to that many bits
    from the back").  Erasing is defined for a length between zero and the
    packet's length; any other length is a usage error. *)
Definition eraseAtBack (p : Packet) (len : b) : result Packet :=
  if (0 <=? len) && (len <=? getTotalLength p) then
    Ok {| content := take (Z.to_nat (getTotalLength p - len)) (content p);
          bitError := bitError p;
          transmissionId := transmissionId p |}
  else Fail (cRuntimeError "length is invalid").

Definition setBitError (p : Packet) (e : bool) : Packet :=
  {| content := content p; bitError := e; transmissionId := transmissionId p |}.

(** Modelled from the spec: [Chunk::containsSameData], whose source is not
    among the files embedded here, on the whole content of both packets
    ("content-identity"). *)
Definition containsSameData (p q : Packet) : bool :=
  bool_decide (content p = content q).

(** Modelled from the spec: the class [Signal], whose source is not among
    the files embedded here ("the encoded transmittable representation of
    a packet"); it encapsulates the packet and has a duration. *)
Record Signal : Type := mkSignal {
  getEncapsulatedPacket : Packet;
  getDuration : simtime_t
}.

Definition setDuration (sig : Signal) (d : simtime_t) : Signal :=
  {| getEncapsulatedPacket := getEncapsulatedPacket sig; getDuration := d |}.

(** Messages delivered by the kernel to [handleMessageWhenUp]. *)
Inductive Message : Type :=
| txEndTimerMsg
| bufferUnderrunTimerMsg
| otherMsg (id : Z).

(** What the transmitter hands to its collaborators, in call order. *)
Inductive Output : Type :=
| EmitTransmissionStarted (signal : Signal)
| EmitTransmissionEnded (signal : Signal)
| SendSignalStart (signal : Signal) (id : Z)
| SendSignalProgress (signal : Signal) (id : Z) (bitPosition : b)
    (timePosition : clocktime_t)
| SendSignalEnd (signal : Signal) (id : Z)
| HandlePacketProcessed (packet : Packet)
| DeletePacket (packet : Packet)
| DeleteSignal (signal : Signal)
| ProducerPushPacketProcessed (packet : Packet) (successful : bool)
| ProducerCanPushPacketChanged
| UpdateDisplayString.

(** The member variables.  A timer field holds the arrival time of the
    pending timer message, [None] when the timer is not scheduled. *)
Record State : Type := mkState {
  txSignal : option Signal;
  txDatarate : bps;
  txStartTime : simtime_t;
  txStartClockTime : clocktime_t;
  lastTxProgressTime : simtime_t;
  lastTxProgressPosition : b;
  lastInputDatarate : bps;
  lastInputProgressTime : simtime_t;
  lastInputProgressPosition : b;
  txEndTimer : option clocktime_t;
  bufferUnderrunTimer : option simtime_t
}.

Definition set_txSignal (v : option Signal) (s : State) : State :=
  mkState v (txDatarate s) (txStartTime s) (txStartClockTime s)
    (lastTxProgressTime s) (lastTxProgressPosition s) (lastInputDatarate s)
    (lastInputProgressTime s) (lastInputProgressPosition s) (txEndTimer s)
    (bufferUnderrunTimer s).
Definition set_txDatarate (v : bps) (s : State) : State :=
  mkState (txSignal s) v (txStartTime s) (txStartClockTime s)
    (lastTxProgressTime s) (lastTxProgressPosition s) (lastInputDatarate s)
    (lastInputProgressTime s) (lastInputProgressPosition s) (txEndTimer s)
    (bufferUnderrunTimer s).
Definition set_txStartTime (v : simtime_t) (s : State) : State :=
  mkState (txSignal s) (txDatarate s) v (txStartClockTime s)
    (lastTxProgressTime s) (lastTxProgressPosition s) (lastInputDatarate s)
    (lastInputProgressTime s) (lastInputProgressPosition s) (txEndTimer s)
    (bufferUnderrunTimer s).
Definition set_txStartClockTime (v : clocktime_t) (s : State) : State :=
  mkState (txSignal s) (txDatarate s) (txStartTime s) v
    (lastTxProgressTime s) (lastTxProgressPosition s) (lastInputDatarate s)
    (lastInputProgressTime s) (lastInputProgressPosition s) (txEndTimer s)
    (bufferUnderrunTimer s).
Definition set_lastTxProgressTime (v : simtime_t) (s : State) : State :=
  mkState (txSignal s) (txDatarate s) (txStartTime s) (txStartClockTime s)
    v (lastTxProgressPosition s) (lastInputDatarate s)
    (lastInputProgressTime s) (lastInputProgressPosition s) (txEndTimer s)
    (bufferUnderrunTimer s).
Definition set_lastTxProgressPosition (v : b) (s : State) : State :=
  mkState (txSignal s) (txDatarate s) (txStartTime s) (txStartClockTime s)
    (lastTxProgressTime s) v (lastInputDatarate s)
    (lastInputProgressTime s) (lastInputProgressPosition s) (txEndTimer s)
    (bufferUnderrunTimer s).
Definition set_lastInputDatarate (v : bps) (s : State) : State :=
  mkState (txSignal s) (txDatarate s) (txStartTime s) (txStartClockTime s)
    (lastTxProgressTime s) (lastTxProgressPosition s) v
    (lastInputProgressTime s) (lastInputProgressPosition s) (txEndTimer s)
    (bufferUnderrunTimer s).
Definition set_lastInputProgressTime (v : simtime_t) (s : State) : State :=
  mkState (txSignal s) (txDatarate s) (txStartTime s) (txStartClockTime s)
    (lastTxProgressTime s) (lastTxProgressPosition s) (lastInputDatarate s)
    v (lastInputProgressPosition s) (txEndTimer s)
    (bufferUnderrunTimer s).
Definition set_lastInputProgressPosition (v : b) (s : State) : State :=
  mkState (txSignal s) (txDatarate s) (txStartTime s) (txStartClockTime s)
    (lastTxProgressTime s) (lastTxProgressPosition s) (lastInputDatarate s)
    (lastInputProgressTime s) v (txEndTimer s)
    (bufferUnderrunTimer s).
Definition set_txEndTimer (v : option clocktime_t) (s : State) : State :=
  mkState (txSignal s) (txDatarate s) (txStartTime s) (txStartClockTime s)
    (lastTxProgressTime s) (lastTxProgressPosition s) (lastInputDatarate s)
    (lastInputProgressTime s) (lastInputProgressPosition s) v
    (bufferUnderrunTimer s).
Definition set_bufferUnderrunTimer (v : option simtime_t) (s : State) : State :=
  mkState (txSignal s) (txDatarate s) (txStartTime s) (txStartClockTime s)
    (lastTxProgressTime s) (lastTxProgressPosition s) (lastInputDatarate s)
    (lastInputProgressTime s) (lastInputProgressPosition s) (txEndTimer s)
    v.

(** The state of a transmitter that is not transmitting: what the
    constructor and the "clear internal state" blocks leave. *)
Definition idleState (kernel : Kernel) : State :=
  mkState None NaN (seconds kernel (-1)) (seconds kernel (-1))
    (seconds kernel (-1)) (-1) NaN (seconds kernel (-1)) (-1) None None.

(** *** A state, error and output monad for the member functions *)

Definition M (A : Type) : Type := State -> result (A * State * list Output).

Definition ret {A} (a : A) : M A := fun s => Ok (a, s, []).

Definition bind {A B} (m : M A) (f : A -> M B) : M B :=
  fun s =>
    match m s with
    | Ok (a, s1, o1) =>
        match f a s1 with
        | Ok (r, s2, o2) => Ok (r, s2, o1 ++ o2)
        | Fail e => Fail e
        end
    | Fail e => Fail e
    end.

Definition get : M State := fun s => Ok (s, s, []).
Definition modify (f : State -> State) : M unit := fun s => Ok (tt, f s, []).
Definition out (o : Output) : M unit := fun s => Ok (tt, s, [o]).
Definition throw {A} (e : Error) : M A := fun _ => Fail e.
Definition liftResult {A} (r : result A) : M A :=
  fun s => match r with Ok a => Ok (a, s, []) | Fail e => Fail e end.

#[global] Instance M_ret : MRet M := @ret.
#[global] Instance M_bind : MBind M := fun A B f m => bind m f.

(** Modelled from the spec: the [ASSERT] macro, which the simulation
    kernel defines ("fail fast via assertion"). *)
Definition ASSERT (cond : bool) (expr : string) : M unit :=
  if cond then ret tt else throw (AssertionFailure expr).

(** Modelled from the spec: [isTransmitting()], which the base class
    header declares and which is not among the files embedded here
    ("isTransmitting() true iff txSignal != null"). *)
Definition isTransmitting (s : State) : bool :=
  match txSignal s with Some _ => true | None => false end.

(** The simulation time and the clock time at which a member function
    runs, as returned by [simTime()] and [getClockTime()]. *)
Record Clock : Type := mkClock {
  simTime : simtime_t;
  getClockTime : clocktime_t
}.

Section MemberFunctions.

(** The kernel the module runs in, and the configuration of one
    transmitter module: the [datarate] parameter, the duration the codec
    assigns to an encoded packet at a transmission data rate, whether a
    producer is connected upstream, and the base class' handling of the
    messages that are not the two timers. *)
Variable kernel : Kernel.
Variable dataratePar : bps.
Variable calculateDuration : bps -> Packet -> simtime_t.
Variable hasProducer : bool.
Variable baseHandleMessageWhenUp : Message -> M unit.

(** [encodePacket]: the codec wraps the packet into a signal. *)
Definition encodePacket (packet : Packet) : M Signal :=
  s ← get;
  mret {| getEncapsulatedPacket := packet;
          getDuration := calculateDuration (txDatarate s) packet |}.

(** Modelled from the spec: the timer interface of the simulation kernel
    ("schedule-at-absolute-time / cancel"); a timer has at most one pending
    instance.  That the kernel refuses an arrival time in the past is not
    represented. *)
Definition cancelEvent_bufferUnderrunTimer : M unit :=
  modify (set_bufferUnderrunTimer None).
Definition scheduleAt_bufferUnderrunTimer (t : simtime_t) : M unit :=
  modify (set_bufferUnderrunTimer (Some t)).
Definition cancelClockEvent_txEndTimer : M unit :=
  modify (set_txEndTimer None).
Definition scheduleClockEventAt_txEndTimer (t : clocktime_t) : M unit :=
  modify (set_txEndTimer (Some t)).

Definition scheduleBufferUnderrunTimer : M unit :=
  cancelEvent_bufferUnderrunTimer;;
  s ← get;
  if (lastInputDatarate s <? txDatarate s)%dbl then
    (* Underrun occurs when the following two values become equal:
       inputProgressPosition = lastInputProgressPosition + inputDatarate * (simTime() - lastInputProgressTime)
       txProgressPosition = lastTxProgressPosition + txDatarate * (simTime() - lastTxProgressTime) *)
    let bufferUnderrunTime :=
      simtime_of_double kernel
        ((of_b (- lastInputProgressPosition s)
          + lastInputDatarate s
            * simtime_dbl kernel (lastInputProgressTime s)
          + of_b (lastTxProgressPosition s)
          - txDatarate s * simtime_dbl kernel (lastTxProgressTime s))
         / (lastInputDatarate s - txDatarate s))%dbl in
    scheduleAt_bufferUnderrunTimer bufferUnderrunTime
  else mret tt.

Definition scheduleTxEndTimer (signal : Signal) : M unit :=
  s ← get;
  ASSERT (negb (txStartClockTime s =? seconds kernel (-1)))
    "txStartClockTime != -1";;
  let txEndTime := txStartClockTime s + getDuration signal in
  cancelClockEvent_txEndTimer;;
  scheduleClockEventAt_txEndTimer txEndTime.

Definition startTx (now : Clock) (packet : Packet) (datarate : bps)
    (position : b) : M unit :=
  (* 1. check current state *)
  s ← get;
  ASSERT (negb (isTransmitting s)) "!isTransmitting()";;
  (* 2. store input progress *)
  modify (set_lastInputDatarate datarate);;
  modify (set_lastInputProgressTime (simTime now));;
  modify (set_lastInputProgressPosition position);;
  (* 3. store transmission progress *)
  modify (set_txDatarate dataratePar);;
  modify (set_txStartTime (simTime now));;
  modify (set_txStartClockTime (getClockTime now));;
  modify (set_lastTxProgressTime (simTime now));;
  modify (set_lastTxProgressPosition 0);;
  (* 4. create signal *)
  signal ← encodePacket packet;
  modify (set_txSignal (Some signal));;
  (* 5. send signal start and notify subscribers *)
  out (EmitTransmissionStarted signal);;
  out (SendSignalStart signal (transmissionId packet));;
  (* 6. schedule transmission end timer and buffer underrun timer *)
  scheduleTxEndTimer signal;;
  scheduleBufferUnderrunTimer.

(** The packet carried by the signal in flight; [progressTx], [endTx] and
    [abortTx] read it after their assertion, so the signal is there. *)
Definition currentSignal : M Signal :=
  s ← get;
  match txSignal s with
  | Some sig => mret sig
  | None => throw (cRuntimeError "null pointer dereference")
  end.

Definition progressTx (now : Clock) (packet : Packet) (datarate : bps)
    (position : b) : M unit :=
  (* 1. check current state *)
  s ← get;
  ASSERT (isTransmitting s) "isTransmitting()";;
  (* 2. store input progress *)
  let inputProgressPosition :=
    lastInputProgressPosition s
    + floor_b
        (simtime_dbl kernel (simTime now - lastInputProgressTime s)%Z
         * lastInputDatarate s)%dbl in
  txSig ← currentSignal;
  let txPacket := getEncapsulatedPacket txSig in
  let isInputProgressAtEnd :=
    (inputProgressPosition =? getTotalLength packet)
    && (getTotalLength packet =? getTotalLength txPacket) in
  let isPacketUnchangedSinceLastProgress :=
    isInputProgressAtEnd || containsSameData packet txPacket in
  modify (set_lastInputDatarate datarate);;
  modify (set_lastInputProgressTime (simTime now));;
  modify (set_lastInputProgressPosition position);;
  (* 3. store transmission progress *)
  let timePosition := getClockTime now - txStartClockTime s in
  modify (set_lastTxProgressTime (simTime now));;
  let txPosition :=
    floor_b (txDatarate s * clocktime_dbl kernel timePosition)%dbl in
  modify (set_lastTxProgressPosition txPosition);;
  (if isPacketUnchangedSinceLastProgress then
     out (DeletePacket packet)
   else
     (* 4. create progress signal *)
     signal ← encodePacket packet;
     out (DeleteSignal txSig);;
     modify (set_txSignal (Some signal));;
     (* 5. send signal progress *)
     out (SendSignalProgress signal (transmissionId packet) txPosition
            timePosition));;
  (* 6. reschedule timers *)
  txSig' ← currentSignal;
  scheduleTxEndTimer txSig';;
  scheduleBufferUnderrunTimer.

(** The "clear internal state" block shared by [endTx] and [abortTx]
    (the signal slot is cleared separately, as in the code). *)
Definition clearInternalState : M unit :=
  modify (set_txDatarate NaN);;
  modify (set_txStartTime (seconds kernel (-1)));;
  modify (set_txStartClockTime (seconds kernel (-1)));;
  modify (set_lastTxProgressTime (seconds kernel (-1)));;
  modify (set_lastTxProgressPosition (-1));;
  modify (set_lastInputDatarate NaN);;
  modify (set_lastInputProgressTime (seconds kernel (-1)));;
  modify (set_lastInputProgressPosition (-1)).

Definition notifyProducer (packet : Packet) : M unit :=
  if hasProducer then
    out (ProducerPushPacketProcessed packet true);;
    out ProducerCanPushPacketChanged
  else mret tt.

Definition endTx : M unit :=
  (* 1. check current state *)
  s ← get;
  ASSERT (isTransmitting s) "isTransmitting()";;
  (* 2. send signal end to receiver and notify subscribers *)
  txSig ← currentSignal;
  let packet := getEncapsulatedPacket txSig in
  out (HandlePacketProcessed packet);;
  out (EmitTransmissionEnded txSig);;
  out (SendSignalEnd txSig (transmissionId packet));;
  (* 3. clear internal state *)
  modify (set_txSignal None);;
  clearInternalState;;
  (* 4. notify producer *)
  notifyProducer packet.

Definition abortTx (now : Clock) : M unit :=
  (* 1. check current state *)
  s ← get;
  ASSERT (isTransmitting s) "isTransmitting()";;
  (* 2. create new truncated signal *)
  txSig ← currentSignal;
  let packet := getEncapsulatedPacket txSig in
  let timePosition := simTime now - txStartTime s in
  let dataPosition :=
    floor_b (txDatarate s * simtime_dbl kernel timePosition)%dbl in
  packet ← liftResult (eraseAtBack packet (getTotalLength packet - dataPosition));
  let packet := setBitError packet true in
  signal ← encodePacket packet;
  let signal := setDuration signal timePosition in
  (* 3. delete old signal *)
  out (DeleteSignal txSig);;
  modify (set_txSignal None);;
  (* 4. send signal end to receiver and notify subscribers *)
  out (HandlePacketProcessed packet);;
  out (EmitTransmissionEnded signal);;
  out (SendSignalEnd signal (transmissionId packet));;
  (* 5. clear internal state *)
  clearInternalState;;
  (* 6. notify producer *)
  notifyProducer packet.

Definition updateDisplayString : M unit := out UpdateDisplayString.

Definition handleMessageWhenUp (message : Message) : M unit :=
  match message with
  | txEndTimerMsg => endTx
  | bufferUnderrunTimerMsg =>
      throw (cRuntimeError "Buffer underrun during transmission")
  | otherMsg _ => baseHandleMessageWhenUp message
  end;;
  updateDisplayString.

Definition handleStopOperation (now : Clock) : M unit :=
  s ← get;
  if isTransmitting s then abortTx now else mret tt.

Definition handleCrashOperation (now : Clock) : M unit :=
  s ← get;
  if isTransmitting s then abortTx now else mret tt.

Definition pushPacketStart (now : Clock) (packet : Packet) (datarate : bps)
    : M unit :=
  startTx now packet datarate 0;;
  updateDisplayString.

Definition pushPacketEnd (now : Clock) (packet : Packet) : M unit :=
  s ← get;
  ASSERT (match txSignal s with Some _ => true | None => false end)
    "txSignal != nullptr";;
  progressTx now packet NaN (getTotalLength packet);;
  updateDisplayString.

Definition pushPacketProgress (now : Clock) (packet : Packet) (datarate : bps)
    (position : b) (extraProcessableLength : b) : M unit :=
  s ← get;
  (if isTransmitting s then progressTx now packet datarate position
   else startTx now packet datarate position);;
  updateDisplayString.

End MemberFunctions.

(** *** Notions used to state the properties *)

(** The two linear position functions of the comment in
    [scheduleBufferUnderrunTimer], in exact arithmetic, at time [t]. *)
Definition inputProgressPositionAt
    (lastInputProgressPosition inputDatarate lastInputProgressTime t : Q)
    : Q :=
  (lastInputProgressPosition + inputDatarate * (t - lastInputProgressTime))%Q.

Definition txProgressPositionAt
    (lastTxProgressPosition txDatarate lastTxProgressTime t : Q) : Q :=
  (lastTxProgressPosition + txDatarate * (t - lastTxProgressTime))%Q.

(** The operations that the expression of
    [scheduleBufferUnderrunTimer] is made of (the conversion of a bit
    count and the four operations on the converted values), for the
    [double] of the code and for exact rationals. *)
Record Arithmetic (T : Type) : Type := mkArithmetic {
  of_b_ : b -> T;
  add_ : T -> T -> T;
  sub_ : T -> T -> T;
  mul_ : T -> T -> T;
  div_ : T -> T -> T
}.

Arguments of_b_ {T} _ _.
Arguments add_ {T} _ _ _.
Arguments sub_ {T} _ _ _.
Arguments mul_ {T} _ _ _.
Arguments div_ {T} _ _ _.

Definition doubleArithmetic : Arithmetic double :=
  mkArithmetic double of_b Double.add Double.sub Double.mul Double.div.

Definition exactArithmetic : Arithmetic Q :=
  mkArithmetic Q inject_Z Qplus Qminus Qmult Qdiv.

(** The expression of [scheduleBufferUnderrunTimer], operation by
    operation. *)
Definition underrunTimeExpression {T} (A : Arithmetic T)
    (lastInputProgressPosition : b)
    (lastInputDatarate lastInputProgressTime : T)
    (lastTxProgressPosition : b) (txDatarate lastTxProgressTime : T) : T :=
  div_ A
    (sub_ A
       (add_ A
          (add_ A (of_b_ A (- lastInputProgressPosition))
             (mul_ A lastInputDatarate lastInputProgressTime))
          (of_b_ A lastTxProgressPosition))
       (mul_ A txDatarate lastTxProgressTime))
    (sub_ A lastInputDatarate txDatarate).

(** The time at which [scheduleBufferUnderrunTimer] schedules the timer
    in a state. *)
Definition bufferUnderrunTime (kernel : Kernel) (s : State) : simtime_t :=
  simtime_of_double kernel
    (underrunTimeExpression doubleArithmetic
       (lastInputProgressPosition s) (lastInputDatarate s)
       (simtime_dbl kernel (lastInputProgressTime s))
       (lastTxProgressPosition s) (txDatarate s)
       (simtime_dbl kernel (lastTxProgressTime s))).

(** The expected input position that [progressTx] extrapolates. *)
Definition expectedInputPosition (kernel : Kernel) (now : Clock) (s : State)
    : b :=
  lastInputProgressPosition s
  + floor_b
      (simtime_dbl kernel (simTime now - lastInputProgressTime s)%Z
       * lastInputDatarate s)%dbl.

(** The test [isPacketUnchangedSinceLastProgress] of [progressTx]. *)
Definition isPacketUnchangedSinceLastProgress (kernel : Kernel) (now : Clock)
    (s : State) (packet txPacket : Packet) : bool :=
  ((expectedInputPosition kernel now s =? getTotalLength packet)
   && (getTotalLength packet =? getTotalLength txPacket))
  || containsSameData packet txPacket.

(** All fields that [endTx] and [abortTx] clear hold their "unset"
    values. *)
Definition isCleared (kernel : Kernel) (s : State) : Prop :=
  txSignal s = None /\
  txDatarate s = NaN /\
  txStartTime s = seconds kernel (-1) /\
  txStartClockTime s = seconds kernel (-1) /\
  lastTxProgressTime s = seconds kernel (-1) /\
  lastTxProgressPosition s = -1 /\
  lastInputDatarate s = NaN /\
  lastInputProgressTime s = seconds kernel (-1) /\
  lastInputProgressPosition s = -1.

(** The three transitions of one transmission: start, progress and end,
    the first two with the arguments of the call. *)
Record PushArgs : Type := mkPushArgs {
  callTime : Clock;
  callPacket : Packet;
  callDatarate : bps;
  callPosition : b
}.

Inductive Transition : Type :=
| Start (a : PushArgs)
| Progress (a : PushArgs)
| End_.

Section Runs.

Variable kernel : Kernel.
Variable dataratePar : bps.
Variable calculateDuration : bps -> Packet -> simtime_t.
Variable hasProducer : bool.

Definition transition (c : Transition) : M unit :=
  match c with
  | Start a =>
      startTx kernel dataratePar calculateDuration (callTime a)
        (callPacket a) (callDatarate a) (callPosition a)
  | Progress a =>
      progressTx kernel calculateDuration (callTime a) (callPacket a)
        (callDatarate a) (callPosition a)
  | End_ => endTx kernel hasProducer
  end.

Fixpoint transitions (cs : list Transition) : M unit :=
  match cs with
  | [] => mret tt
  | c :: cs' => transition c;; transitions cs'
  end.

(** The calls made on the producer when a packet has been processed. *)
Definition producerNotifications (packet : Packet) : list Output :=
  if hasProducer
  then [ProducerPushPacketProcessed packet true; ProducerCanPushPacketChanged]
  else [].

(** The producer keeps pace with the committed transmission rate: the
    input data rate of the call is not less than it.  That is so when the
    rate is at least the committed rate, and also for the NaN that
    [pushPacketEnd] passes. *)
Definition keepsPace (a : PushArgs) : Prop :=
  (callDatarate a <? dataratePar)%dbl = false.

Definition transitionKeepsPace (c : Transition) : Prop :=
  match c with
  | Start a | Progress a => keepsPace a
  | End_ => True
  end.

(** The underrun timer is not scheduled, and a transmission in flight was
    committed to the configured rate. *)
Definition underrunTimerIdle (s : State) : Prop :=
  bufferUnderrunTimer s = None /\
  (isTransmitting s = true -> txDatarate s = dataratePar).

(** What holds of the timers and the committed rate while a transmission
    started by [startTx] is in flight. *)
Definition inFlight (s : State) (sig : Signal) : Prop :=
  txSignal s = Some sig /\
  txDatarate s = dataratePar /\
  (txStartClockTime s =? seconds kernel (-1)) = false /\
  txEndTimer s = Some (txStartClockTime s + getDuration sig).

End Runs.

(** *** Sample values for concrete checks *)

(** A codec that transmits one bit per second. *)
Definition sampleDuration (rate : bps) (p : Packet) : simtime_t :=
  getTotalLength p * sampleScale.

(** The simulation time and the clock time at a number of milliseconds. *)
Definition sampleClock (ms : Z) : Clock :=
  mkClock (ms * 10 ^ 9) (ms * 10 ^ 9).

Definition sampleBase (m : Message) : M unit := mret tt.

Definition shortPacket : Packet := mkPacket [true; false] false 7.
Definition longPacket : Packet := mkPacket [true; false; true; true] false 7.

(** The state after [shortPacket] was started at time 0 with an input rate
    of 8 bit/s on a transmitter committed to 1 bit/s. *)
Definition sampleInFlight : State :=
  mkState (Some (mkSignal shortPacket (2 * sampleScale))) (of_b 1) 0 0 0 0
    (of_b 8) 0 0 (Some (0 + 2 * sampleScale)) None.

(** A packet of 32 bits, and the state after it was started at time 0 on a
    transmitter committed to 100 bit/s, the input keeping pace. *)
Definition packet32 : Packet := mkPacket (replicate 32 true) false 9.

Definition sampleInFlight100 : State :=
  mkState (Some (mkSignal packet32 (32 * sampleScale))) (of_b 100) 0 0 0 0
    (of_b 100) 0 0 (Some (0 + 32 * sampleScale)) None.

(** *** The interface of the module *)

(** The calls the kernel and the neighbouring modules make on the
    transmitter. *)
Inductive Operation : Type :=
| PushPacketStart (now : Clock) (packet : Packet) (datarate : bps)
| PushPacketProgress (now : Clock) (packet : Packet) (datarate : bps)
    (position extraProcessableLength : b)
| PushPacketEnd (now : Clock) (packet : Packet)
| HandleMessage (message : Message)
| StopOperation (now : Clock)
| CrashOperation (now : Clock).

Section Operations.

Variable kernel : Kernel.
Variable dataratePar : bps.
Variable calculateDuration : bps -> Packet -> simtime_t.
Variable hasProducer : bool.
Variable baseHandleMessageWhenUp : Message -> M unit.

Definition operation (op : Operation) : M unit :=
  match op with
  | PushPacketStart now packet datarate =>
      pushPacketStart kernel dataratePar calculateDuration now packet datarate
  | PushPacketProgress now packet datarate position extra =>
      pushPacketProgress kernel dataratePar calculateDuration now packet
        datarate position extra
  | PushPacketEnd now packet =>
      pushPacketEnd kernel calculateDuration now packet
  | HandleMessage message =>
      handleMessageWhenUp kernel hasProducer baseHandleMessageWhenUp message
  | StopOperation now =>
      handleStopOperation kernel calculateDuration hasProducer now
  | CrashOperation now =>
      handleCrashOperation kernel calculateDuration hasProducer now
  end.

Fixpoint operations (ops : list Operation) : M unit :=
  match ops with
  | [] => mret tt
  | op :: ops' => operation op;; operations ops'
  end.

(** What holds of the member variables between two calls: without a
    signal in flight every field is unset, with one the transmission is
    as [inFlight] says. *)
Definition stateInvariant (s : State) : Prop :=
  match txSignal s with
  | None => isCleared kernel s
  | Some sig => inFlight kernel dataratePar s sig
  end.

End Operations.

(** Operations whose handling is all in this class: every call but the
    delivery of a message that is passed on to the base class. *)
Definition isOwnOperation (op : Operation) : bool :=
  match op with
  | HandleMessage (otherMsg _) => false
  | _ => true
  end.

Definition isStarted (o : Output) : bool :=
  match o with EmitTransmissionStarted _ => true | _ => false end.

Definition isEnded (o : Output) : bool :=
  match o with EmitTransmissionEnded _ => true | _ => false end.

Definition isProducerProcessed (o : Output) : bool :=
  match o with ProducerPushPacketProcessed _ _ => true | _ => false end.

Definition countOutputs (f : Output -> bool) (o : list Output) : nat :=
  length (List.filter f o).

Definition transmittingCount (s : State) : nat :=
  if isTransmitting s then 1%nat else 0%nat.

(** Two transmissions one after the other: the first ended by its end
    timer, the second aborted by a stop. *)
Definition sampleOperations : list Operation :=
  [PushPacketStart (sampleClock 0) shortPacket (of_b 8);
   PushPacketProgress (sampleClock 500) longPacket (of_b 8) 4 0;
   PushPacketEnd (sampleClock 1000) longPacket;
   HandleMessage txEndTimerMsg;
   PushPacketProgress (sampleClock 5000) shortPacket (of_b 8) 0 0;
   StopOperation (sampleClock 6000)].

End StreamThroughTransmitter.

(** ** The path tracker *)

Module PathVisualizerBase.

(** The position of the animation: the three clocks a display refresh can
    measure idle time with. *)
Record AnimationPosition : Type := mkAnimationPosition {
  getSimulationTime : simtime_t;
  getAnimationTime : double;
  getRealTime : double
}.

(** Modelled from the spec: [mapChunks], whose source is not among the
    files embedded here ("for every chunk composing the packet").  A traced
    packet is the sequence of chunks that [mapChunks] enumerates, each with
    its chunk id and its length in bits. *)
Record Chunk : Type := mkChunk {
  chunkId : Z;
  getChunkLength : Z
}.

Definition Packet : Type := list Chunk.

Record PathVisualization : Type := mkPathVisualization {
  moduleIds : list Z;
  label : string;
  numPackets : Z;
  totalLength : Z;
  lastUsageAnimationPosition : AnimationPosition
}.

(** The tracker.  [pathVisualizations] is the multimap from
    (source, destination) to visualization objects, kept here as the list
    of its entries in insertion order; a visualization object is identified
    by the position of its entry.  A lookup by key scans the entries of
    that key in insertion order, as [equal_range] does.  The order in
    which the multimap is iterated (by key) is not represented; what is
    stated below of a loop over all entries holds of every entry and
    does not depend on the order of the visits. *)
Record Tracker : Type := mkTracker {
  incompletePaths : gmap (string * Z) (list Z);
  pathVisualizations : list PathVisualization
}.

Definition emptyTracker : Tracker := mkTracker ∅ [].

Definition set_incompletePaths (m : gmap (string * Z) (list Z)) (t : Tracker)
    : Tracker :=
  mkTracker m (pathVisualizations t).

Definition set_pathVisualizations (l : list PathVisualization) (t : Tracker)
    : Tracker :=
  mkTracker (incompletePaths t) l.

(** Modelled from the spec: the constructor [PathVisualization(label,
    path)] initialises the members that the class declaration, which is not
    among the files embedded here, gives a visualization: no packet and no
    length counted yet, last used at the position of its construction. *)
Definition createPathVisualization (now : AnimationPosition) (label : string)
    (path : list Z) : PathVisualization :=
  mkPathVisualization path label 0 0 now.

(** The multimap key of a node sequence: its first and last node. *)
Definition sourceAndDestination (path : list Z) : option Z * option Z :=
  (head path, last path).

(** Returns the position of the visualization, [None] for [nullptr]. *)
Definition getPathVisualization (t : Tracker) (path : list Z) : option nat :=
  let key := sourceAndDestination path in
  fst <$> list_find
    (fun pv => sourceAndDestination (moduleIds pv) = key /\ moduleIds pv = path)
    (pathVisualizations t).

Definition addPathVisualization (pv : PathVisualization) (t : Tracker)
    : Tracker :=
  set_pathVisualizations (pathVisualizations t ++ [pv]) t.

(** Clears the incomplete paths and removes and deletes every
    visualization ([numPaths], which no function embedded here reads, is
    not represented). *)
Definition removeAllPathVisualizations (t : Tracker) : Tracker :=
  mkTracker ∅ [].

Definition getIncompletePath (t : Tracker) (label : string) (chunkId : Z)
    : option (list Z) :=
  incompletePaths t !! (label, chunkId).

Definition addToIncompletePath (label : string) (chunkId : Z) (moduleId : Z)
    (t : Tracker) : Tracker :=
  (* operator[] default-constructs the vector of a missing key *)
  let moduleIds := default [] (incompletePaths t !! (label, chunkId)) in
  let moduleIds' :=
    if bool_decide (length moduleIds = 0%nat \/ last moduleIds ≠ Some moduleId)
    then moduleIds ++ [moduleId]
    else moduleIds in
  set_incompletePaths (<[(label, chunkId) := moduleIds']> (incompletePaths t)) t.

Definition removeIncompletePath (label : string) (chunkId : Z) (t : Tracker)
    : Tracker :=
  set_incompletePaths (delete (label, chunkId) (incompletePaths t)) t.

Definition refreshPathVisualization (now : AnimationPosition)
    (pv : PathVisualization) : PathVisualization :=
  mkPathVisualization (moduleIds pv) (label pv) (numPackets pv)
    (totalLength pv) now.

Definition processPathStart (networkNode : Z) (label : string)
    (packet : Packet) (t : Tracker) : Tracker :=
  foldl
    (fun t chunk =>
       let t :=
         match getIncompletePath t label (chunkId chunk) with
         | Some _ => removeIncompletePath label (chunkId chunk) t
         | None => t
         end in
       addToIncompletePath label (chunkId chunk) networkNode t)
    t packet.

Definition processPathElement (networkNode : Z) (label : string)
    (packet : Packet) (t : Tracker) : Tracker :=
  foldl
    (fun t chunk =>
       match getIncompletePath t label (chunkId chunk) with
       | Some _ => addToIncompletePath label (chunkId chunk) networkNode t
       | None => t
       end)
    t packet.

Definition addToTotalLength (len : Z) (pv : PathVisualization)
    : PathVisualization :=
  mkPathVisualization (moduleIds pv) (label pv) (numPackets pv)
    (totalLength pv + len) (lastUsageAnimationPosition pv).

Definition incrementNumPackets (pv : PathVisualization) : PathVisualization :=
  mkPathVisualization (moduleIds pv) (label pv) (numPackets pv + 1)
    (totalLength pv) (lastUsageAnimationPosition pv).

(** The body of the [mapChunks] callback of [processPathEnd]; the second
    component is the set [updatedVisualizations].  [path] points into the
    map, so after [addToIncompletePath] it is read again from there. *)
Definition processPathEndChunk (now : AnimationPosition) (networkNode : Z)
    (label : string) (st : Tracker * gset nat) (chunk : Chunk)
    : Tracker * gset nat :=
  let '(t, updatedVisualizations) := st in
  match getIncompletePath t label (chunkId chunk) with
  | Some _ =>
      let t := addToIncompletePath label (chunkId chunk) networkNode t in
      let path := default [] (getIncompletePath t label (chunkId chunk)) in
      let '(t, updatedVisualizations) :=
        if bool_decide (1 < length path)%nat then
          let '(t, pathVisualization) :=
            match getPathVisualization t path with
            | Some i => (t, i)
            | None =>
                (addPathVisualization (createPathVisualization now label path) t,
                 length (pathVisualizations t))
            end in
          (set_pathVisualizations
             (alter (addToTotalLength (getChunkLength chunk)) pathVisualization
                (pathVisualizations t)) t,
           {[pathVisualization]} ∪ updatedVisualizations)
        else (t, updatedVisualizations) in
      (removeIncompletePath label (chunkId chunk) t, updatedVisualizations)
  | None => (t, updatedVisualizations)
  end.

(** The final loop of [processPathEnd] visits every member of the set
    once; the members are distinct objects, so the visits are independent
    of their order. *)
Definition touchUpdated (now : AnimationPosition) (updated : gset nat)
    (l : list PathVisualization) : list PathVisualization :=
  imap
    (fun i pv =>
       if bool_decide (i ∈ updated)
       then refreshPathVisualization now (incrementNumPackets pv)
       else pv)
    l.

Definition processPathEnd (now : AnimationPosition) (networkNode : Z)
    (label : string) (packet : Packet) (t : Tracker) : Tracker :=
  let '(t, updatedVisualizations) :=
    foldl (processPathEndChunk now networkNode label) (t, ∅) packet in
  set_pathVisualizations
    (touchUpdated now updatedVisualizations (pathVisualizations t)) t.

(** The set [updatedVisualizations] at the end of the chunk loop. *)
Definition updatedByPathEnd (now : AnimationPosition) (networkNode : Z)
    (label : string) (packet : Packet) (t : Tracker) : gset nat :=
  snd (foldl (processPathEndChunk now networkNode label) (t, ∅) packet).

Section FadeOut.

Variable kernel : Kernel.
Variable fadeOutMode : string.
Variable fadeOutTime : double.

(** The idle time [delta] of a visualization under the configured clock. *)
Definition idleTime (now : AnimationPosition) (pv : PathVisualization)
    : result double :=
  if String.eqb fadeOutMode "simulationTime" then
    Ok (simtime_dbl kernel
          (getSimulationTime now
           - getSimulationTime (lastUsageAnimationPosition pv))%Z)
  else if String.eqb fadeOutMode "animationTime" then
    Ok (getAnimationTime now
        - getAnimationTime (lastUsageAnimationPosition pv))%dbl
  else if String.eqb fadeOutMode "realTime" then
    Ok (getRealTime now - getRealTime (lastUsageAnimationPosition pv))%dbl
  else Fail (cRuntimeError "Unknown fadeOutMode").

(** What a refresh does besides changing the tracker: the [setAlpha] calls
    and the visualizations removed and deleted, by position of the entry
    before the refresh. *)
Record RefreshEffects : Type := mkRefreshEffects {
  setAlphaCalls : list (nat * double);
  removedPathVisualizations : list nat
}.

(** The first loop of [refreshDisplay], over the entries from position
    [i] on. *)
Fixpoint refreshLoop (now : AnimationPosition) (i : nat)
    (l : list PathVisualization) : result RefreshEffects :=
  match l with
  | [] => Ok (mkRefreshEffects [] [])
  | pv :: l' =>
      match idleTime now pv with
      | Fail e => Fail e
      | Ok delta =>
          match refreshLoop now (S i) l' with
          | Fail e => Fail e
          | Ok eff =>
              if (fadeOutTime <? delta)%dbl then
                Ok (mkRefreshEffects (setAlphaCalls eff)
                      (i :: removedPathVisualizations eff))
              else
                Ok (mkRefreshEffects
                      ((i, of_int64 1 - delta / fadeOutTime)%dbl
                       :: setAlphaCalls eff)
                      (removedPathVisualizations eff))
          end
      end
  end.

(** [removePathVisualization] for every collected entry. *)
Fixpoint removePathVisualizations (removed : list nat) (i : nat)
    (l : list PathVisualization) : list PathVisualization :=
  match l with
  | [] => []
  | pv :: l' =>
      if bool_decide (i ∈ removed)
      then removePathVisualizations removed (S i) l'
      else pv :: removePathVisualizations removed (S i) l'
  end.

Definition refreshDisplay (now : AnimationPosition) (t : Tracker)
    : result (Tracker * RefreshEffects) :=
  if (of_int64 0 <? fadeOutTime)%dbl then
    match refreshLoop now 0 (pathVisualizations t) with
    | Fail e => Fail e
    | Ok eff =>
        Ok (set_pathVisualizations
              (removePathVisualizations (removedPathVisualizations eff) 0
                 (pathVisualizations t)) t,
            eff)
    end
  else Ok (t, mkRefreshEffects [] []).

End FadeOut.

(** *** Notions used to state the properties *)

(** No two consecutive entries of a node sequence are equal. *)
Definition noConsecutiveDuplicates (path : list Z) : Prop :=
  forall (i : nat) (x y : Z),
    path !! i = Some x -> path !! S i = Some y -> x <> y.

(** The invariant of the map of incomplete paths. *)
Definition pathsWellFormed (t : Tracker) : Prop :=
  map_Forall (fun (_ : string * Z) path => noConsecutiveDuplicates path)
    (incompletePaths t).

(** During the chunk loop of [processPathEnd], started with the entries
    [pvs0]: the packet counters are what they were (zero for created
    visualizations), and only members of [updatedVisualizations] differ
    from the entries before the call. *)
Definition chunkLoopInvariant (pvs0 : list PathVisualization)
    (st : Tracker * gset nat) : Prop :=
  (length pvs0 <= length (pathVisualizations (fst st)))%nat
  /\ forall i pv,
       pathVisualizations (fst st) !! i = Some pv ->
       numPackets pv = default 0 (numPackets <$> pvs0 !! i)
       /\ (i ∉ snd st -> pvs0 !! i = Some pv).

(** The events the tracker reacts to, and the trackers they lead to. *)
Inductive Event : Type :=
| PathStart (networkNode : Z) (label : string) (packet : Packet)
| PathElement (networkNode : Z) (label : string) (packet : Packet)
| PathEnd (now : AnimationPosition) (networkNode : Z) (label : string)
    (packet : Packet)
| ParameterChange.

Definition handleEvent (t : Tracker) (e : Event) : Tracker :=
  match e with
  | PathStart node label packet => processPathStart node label packet t
  | PathElement node label packet => processPathElement node label packet t
  | PathEnd now node label packet => processPathEnd now node label packet t
  | ParameterChange => removeAllPathVisualizations t
  end.

Definition handleEvents (es : list Event) (t : Tracker) : Tracker :=
  foldl handleEvent t es.

(** One full cycle start(A), element(B), end(C) for a packet made of the
    single chunk 0 of length [len]. *)
Definition fullCycle (now : AnimationPosition) (A B C : Z) (L : string)
    (len : Z) (t : Tracker) : Tracker :=
  handleEvents
    [PathStart A L [mkChunk 0 len];
     PathElement B L [mkChunk 0 len];
     PathEnd now C L [mkChunk 0 len]]
    t.

(** Whether a refresh keeps a visualization: its idle time is defined and
    is not greater than the fade-out time. *)
Definition isRetained (kernel : Kernel) (fadeOutMode : string)
    (fadeOutTime : double) (now : AnimationPosition)
    (pv : PathVisualization) : bool :=
  match idleTime kernel fadeOutMode now pv with
  | Ok delta => negb (fadeOutTime <? delta)%dbl
  | Fail _ => false
  end.

(** *** Sample values for concrete checks *)

(** The animation position at which all three clocks show the same
    number of seconds. *)
Definition sampleNow (t : Z) : AnimationPosition :=
  mkAnimationPosition (t * sampleScale) (of_int64 t) (of_int64 t).

Definition sampleTracker : Tracker :=
  fullCycle (sampleNow 0) 1 2 3 "L" 100 emptyTracker.

(** *** The remaining member functions *)

(** [removePathVisualization]: erases the multimap entry of the given
    visualization object, here the entry at its position; an object that
    has no entry is not found and nothing is erased. *)
Definition removePathVisualization (i : nat) (t : Tracker) : Tracker :=
  set_pathVisualizations (delete i (pathVisualizations t)) t.

Section ReceiveSignal.

(** The three signals registered by [initialize], the hooks that the
    subclasses implement to recognise the modules that start, extend and
    end a path, the network node that contains a module, and the two
    filters (node and packet), as what they answer. *)
Variable startPathSignal extendPathSignal endPathSignal : Z.
Variable isPathStart isPathElement isPathEnd : Z -> bool.
Variable getContainingNode : Z -> Z.
Variable nodeFilterMatches : Z -> bool.
Variable packetFilterMatches : Packet -> bool.

(** [receiveSignal], for a source that is a module and an object that is a
    packet (the casts of anything else raise an error in the kernel);
    [details] is [None] for a null pointer, else the name of the object. *)
Definition receiveSignal (now : AnimationPosition) (source : Z) (signal : Z)
    (packet : Packet) (details : option string) (t : Tracker)
    : result Tracker :=
  if signal =? startPathSignal then
    if isPathStart source then
      let networkNode := getContainingNode source in
      let label := match details with Some name => name | None => EmptyString end in
      if nodeFilterMatches networkNode && packetFilterMatches packet
      then Ok (processPathStart networkNode label packet t)
      else Ok t
    else Ok t
  else if signal =? extendPathSignal then
    if isPathElement source then
      let networkNode := getContainingNode source in
      let label := match details with Some name => name | None => EmptyString end in
      (* NOTE: nodeFilter is intentionally not applied here, because it's
         only important at the end points *)
      if packetFilterMatches packet
      then Ok (processPathElement networkNode label packet t)
      else Ok t
    else Ok t
  else if signal =? endPathSignal then
    if isPathEnd source then
      let networkNode := getContainingNode source in
      let label := match details with Some name => name | None => EmptyString end in
      if nodeFilterMatches networkNode && packetFilterMatches packet
      then Ok (processPathEnd now networkNode label packet t)
      else Ok t
    else Ok t
  else Fail (cRuntimeError "Unknown signal").

End ReceiveSignal.

(** [handleParameterChange]: without a GUI, or for a null name, nothing is
    done; else the tracker is cleared whatever the parameter is.  The new
    filter patterns are read from the parameters; the filters are what
    [receiveSignal] is given. *)
Definition handleParameterChange (hasGUI : bool) (name : option string)
    (t : Tracker) : Tracker :=
  if negb hasGUI then t
  else
    match name with
    | Some _ => removeAllPathVisualizations t
    | None => t
    end.

(** The calls the simulation kernel makes on a tracker.  A signal is
    received under the filters as they are set at that time. *)
Inductive Call : Type :=
| ReceiveSignal (nodeFilterMatches : Z -> bool)
    (packetFilterMatches : Packet -> bool) (now : AnimationPosition)
    (source signal : Z) (packet : Packet) (details : option string)
| HandleParameterChange (hasGUI : bool) (name : option string)
| RefreshDisplay (now : AnimationPosition).

Section Calls.

(** What [initialize] fixes: the three signals and the fade-out
    parameters; the hooks of the subclass; and the kernel the module runs
    in. *)
Variable startPathSignal extendPathSignal endPathSignal : Z.
Variable isPathStart isPathElement isPathEnd : Z -> bool.
Variable getContainingNode : Z -> Z.
Variable kernel : Kernel.
Variable fadeOutMode : string.
Variable fadeOutTime : double.

Definition call (c : Call) (t : Tracker) : result Tracker :=
  match c with
  | ReceiveSignal nodeFilterMatches packetFilterMatches now source signal
      packet details =>
      receiveSignal startPathSignal extendPathSignal endPathSignal
        isPathStart isPathElement isPathEnd getContainingNode
        nodeFilterMatches packetFilterMatches now source signal packet
        details t
  | HandleParameterChange hasGUI name =>
      Ok (handleParameterChange hasGUI name t)
  | RefreshDisplay now =>
      match refreshDisplay kernel fadeOutMode fadeOutTime now t with
      | Ok (t', _) => Ok t'
      | Fail e => Fail e
      end
  end.

(** A run of calls stops at the first error. *)
Fixpoint calls (cs : list Call) (t : Tracker) : result Tracker :=
  match cs with
  | [] => Ok t
  | c :: cs' =>
      match call c t with
      | Ok t' => calls cs' t'
      | Fail e => Fail e
      end
  end.

End Calls.

(** *** Further notions used to state properties *)

(** What [addToIncompletePath] makes of a path. *)
Definition extendedBy (moduleId : Z) (path : list Z) : list Z :=
  if bool_decide (last path = Some moduleId) then path else path ++ [moduleId].

(** The lengths counted on all visualizations, and the length of a
    sequence of chunks. *)
Definition sumTotalLength (l : list PathVisualization) : Z :=
  foldr Z.add 0 (totalLength <$> l).

Definition chunksLength (chunks : list Chunk) : Z :=
  foldr Z.add 0 (getChunkLength <$> chunks).

(** Whether an end event at the node completes a path for the chunk: a
    path is recorded for it, and it has at least two nodes once the node
    is added. *)
Definition completesPath (moduleId : Z) (label : string) (t : Tracker)
    (chunk : Chunk) : bool :=
  match getIncompletePath t label (chunkId chunk) with
  | Some path => bool_decide (1 < length (extendedBy moduleId path))%nat
  | None => false
  end.

(** No incomplete path is empty. *)
Definition pathsNonEmpty (t : Tracker) : Prop :=
  map_Forall (fun (_ : string * Z) path => path <> []) (incompletePaths t).

(** The keys under which the chunks of a packet are tracked. *)
Definition chunkKeys (label : string) (packet : Packet) : list (string * Z) :=
  (fun chunk => (label, chunkId chunk)) <$> packet.

(** No two visualizations have the same node sequence. *)
Definition visualizationsDistinct (t : Tracker) : Prop :=
  NoDup (moduleIds <$> pathVisualizations t).

(** A visualization of a completed path: at least two nodes, no node twice
    in a row, at least one packet counted. *)
Definition visualizationWellFormed (pv : PathVisualization) : Prop :=
  (1 < length (moduleIds pv))%nat
  /\ noConsecutiveDuplicates (moduleIds pv)
  /\ 1 <= numPackets pv.

(** A run of calls with the signals 10, 11 and 12, every module taken as
    its own network node and as a start, element and end point, and
    visualizations fading out over 5 seconds of simulation time. *)
Definition sampleRun (cs : list Call) : result Tracker :=
  calls 10 11 12 (fun _ => true) (fun _ => true) (fun _ => true)
    (fun module => module) sampleKernel "simulationTime" (of_int64 5) cs
    emptyTracker.

Definition samplePacket : Packet := [mkChunk 0 100; mkChunk 1 20].

Definition sampleCalls : list Call :=
  [ReceiveSignal (fun _ => true) (fun _ => true) (sampleNow 0) 1 10
     samplePacket (Some "L"%string);
   ReceiveSignal (fun _ => true) (fun _ => true) (sampleNow 1) 2 11
     samplePacket (Some "L"%string);
   ReceiveSignal (fun _ => true) (fun _ => true) (sampleNow 2) 3 12
     samplePacket (Some "L"%string);
   RefreshDisplay (sampleNow 3);
   ReceiveSignal (fun _ => true) (fun _ => true) (sampleNow 4) 1 10
     samplePacket None;
   ReceiveSignal (fun _ => true) (fun _ => true) (sampleNow 5) 3 12
     [mkChunk 0 100] None;
   HandleParameterChange true None;
   RefreshDisplay (sampleNow 6)].

End PathVisualizerBase.

(** * Properties of binary64 arithmetic *)

Module DoubleProperties.

(** ** Comparisons *)

Lemma SFcompare_antisym (x y : spec_float) :
  SFcompare y x = option_map CompOpp (SFcompare x y).
Proof.
  destruct x as [sx|sx| |sx mx ex], y as [sy|sy| |sy my ey];
    try destruct sx; try destruct sy; try reflexivity; cbn;
    rewrite (Z.compare_antisym ex ey); destruct (ex ?= ey); cbn;
    rewrite ?(Pos.compare_cont_antisym mx my Eq); cbn;
    rewrite ?CompOpp_involutive; reflexivity.
Qed.

Lemma geb_true_ltb_false (x y : double) :
  (x >=? y)%dbl = true -> (x <? y)%dbl = false.
Proof.
  unfold geb, ltb, SFleb, SFltb. rewrite (SFcompare_antisym x y).
  destruct (SFcompare x y) as [[]|]; cbn; congruence.
Qed.

Lemma ltb_NaN_l (x : double) : (NaN <? x)%dbl = false.
Proof. destruct x; reflexivity. Qed.

(** ** The quotient of a number by itself *)

(** The quotient of a finite [double] other than zero by itself is 1. *)
Lemma div_self (s : bool) (m : positive) (e : Z) :
  (S754_finite s m e / S754_finite s m e)%dbl = of_int64 1.
Proof.
  unfold Double.div, SFdiv, SFdiv_core_binary.
  replace (Zdigits2 (Z.pos m) + e - (Zdigits2 (Z.pos m) + e)) with 0 by lia.
  rewrite Z.sub_diag.
  change (IntDef.Z.min (fexp prec emax 0) 0) with (-53).
  change (0 - -53) with 53. cbv iota.
  change (IntDef.Z.div_eucl (IntDef.Z.shiftl (Z.pos m) 53) (Z.pos m))
    with (Z.div_eucl (Z.shiftl (Z.pos m) 53) (Z.pos m)).
  assert (Z.div_eucl (Z.shiftl (Z.pos m) 53) (Z.pos m) = (2 ^ 53, 0)) as ->.
  { pose proof (Z.div_mul (2 ^ 53) (Z.pos m)) as Hq.
    pose proof (Z.mod_mul (2 ^ 53) (Z.pos m)) as Hr.
    rewrite Z.shiftl_mul_pow2 by lia. rewrite (Z.mul_comm (Z.pos m)).
    unfold Z.div, Z.modulo in Hq, Hr.
    destruct (Z.div_eucl (2 ^ 53 * Z.pos m) (Z.pos m)) as [q r].
    rewrite Hq, Hr by discriminate. reflexivity. }
  unfold new_location.
  destruct (Z.even (Z.pos m)); destruct s; vm_compute; reflexivity.
Qed.

(** ** Rounding

    What follows is about the rounding of the binary64 format (53 digits,
    exponents from -1074 on), as [SpecFloat] defines it: a mantissa is
    shifted to the right until it has the digits of the format
    ([shr_fexp]), rounded to nearest even, and shifted once more if the
    rounding carried. *)

Lemma fexp_eq (x : Z) : fexp 53 1024 x = Z.max (x - 53) (-1074).
Proof. reflexivity. Qed.

Lemma pow2_pos (d : Z) : 0 <= d -> 0 < 2 ^ d.
Proof. intros H. apply Z.pow_pos_nonneg; lia. Qed.

Lemma pow2_succ (d : Z) : 0 < d -> 2 ^ d = 2 * 2 ^ (d - 1).
Proof.
  intros H. replace d with (Z.succ (d - 1)) at 1 by lia.
  apply Z.pow_succ_r. lia.
Qed.

Lemma pow2_add (a c : Z) : 0 <= a -> 0 <= c -> 2 ^ (a + c) = 2 ^ a * 2 ^ c.
Proof. intros. apply Z.pow_add_r; assumption. Qed.

Lemma digits2_pos_bounds (m : positive) :
  2 ^ (Z.pos (digits2_pos m) - 1) <= Z.pos m < 2 ^ Z.pos (digits2_pos m).
Proof.
  induction m as [p IH|p IH|]; cbn [digits2_pos].
  - rewrite Pos2Z.inj_succ, (Pos2Z.inj_xI p).
    replace (Z.succ (Z.pos (digits2_pos p)) - 1) with (Z.pos (digits2_pos p))
      by lia.
    rewrite Z.pow_succ_r by lia.
    rewrite (pow2_succ (Z.pos (digits2_pos p))) in * by lia.
    set (x := 2 ^ (Z.pos (digits2_pos p) - 1)) in *. clearbody x. lia.
  - rewrite Pos2Z.inj_succ, (Pos2Z.inj_xO p).
    replace (Z.succ (Z.pos (digits2_pos p)) - 1) with (Z.pos (digits2_pos p))
      by lia.
    rewrite Z.pow_succ_r by lia.
    rewrite (pow2_succ (Z.pos (digits2_pos p))) in * by lia.
    set (x := 2 ^ (Z.pos (digits2_pos p) - 1)) in *. clearbody x. lia.
  - cbn. lia.
Qed.

Lemma Zdigits2_bounds (m : Z) :
  0 < m -> 2 ^ (Zdigits2 m - 1) <= m < 2 ^ Zdigits2 m.
Proof.
  destruct m as [|p|p]; try lia. intros _. apply digits2_pos_bounds.
Qed.

Lemma Zdigits2_nonneg (m : Z) : 0 <= Zdigits2 m.
Proof. destruct m; cbn; lia. Qed.

Lemma Zdigits2_pos (m : Z) : 0 < m -> 0 < Zdigits2 m.
Proof. destruct m; cbn; lia. Qed.

Lemma Zdigits2_unique (m d : Z) :
  0 < m -> 2 ^ (d - 1) <= m < 2 ^ d -> Zdigits2 m = d.
Proof.
  intros Hm [Hlo Hhi]. pose proof (Zdigits2_bounds m Hm) as [Hlo' Hhi'].
  destruct (Z.lt_trichotomy (Zdigits2 m) d) as [H|[H|H]]; [|exact H|].
  - pose proof (Z.pow_le_mono_r 2 (Zdigits2 m) (d - 1) ltac:(lia) ltac:(lia)).
    lia.
  - pose proof (Z.pow_le_mono_r 2 d (Zdigits2 m - 1) ltac:(lia) ltac:(lia)).
    lia.
Qed.

(** A number below [2 ^ b] has at most [b] digits. *)
Lemma Zdigits2_le (m b : Z) : 0 <= m -> 0 <= b -> m < 2 ^ b -> Zdigits2 m <= b.
Proof.
  intros Hm Hb Hlt. destruct (Z.eq_dec m 0) as [->|Hne]; [exact Hb|].
  pose proof (Zdigits2_bounds m ltac:(lia)) as [Hlo _].
  destruct (Z_le_gt_dec (Zdigits2 m) b) as [H|H]; [exact H|].
  pose proof (Z.pow_le_mono_r 2 b (Zdigits2 m - 1) ltac:(lia) ltac:(lia)).
  lia.
Qed.

Lemma Zdigits2_le_pow (m b : Z) :
  0 <= m -> 0 <= b -> m <= 2 ^ b -> Zdigits2 m <= b + 1.
Proof.
  intros Hm Hb Hle. apply Zdigits2_le; [lia | lia |].
  rewrite pow2_add, Z.pow_1_r by lia. pose proof (pow2_pos b Hb). lia.
Qed.

Lemma Zdigits2_div_pow2 (m n : Z) :
  0 < m -> 0 <= n < Zdigits2 m -> 
  0 < m / 2 ^ n /\ Zdigits2 (m / 2 ^ n) = Zdigits2 m - n.
Proof.
  intros Hm Hn. pose proof (Zdigits2_bounds m Hm) as [Hlo Hhi].
  pose proof (pow2_pos n ltac:(lia)) as Hp.
  assert (2 ^ (Zdigits2 m - n - 1) <= m / 2 ^ n) as H1.
  { apply Z.div_le_lower_bound; [exact Hp|].
    rewrite <- pow2_add by lia.
    replace (n + (Zdigits2 m - n - 1)) with (Zdigits2 m - 1) by lia.
    exact Hlo. }
  assert (m / 2 ^ n < 2 ^ (Zdigits2 m - n)) as H2.
  { apply Z.div_lt_upper_bound; [exact Hp|].
    rewrite <- pow2_add by lia.
    replace (n + (Zdigits2 m - n)) with (Zdigits2 m) by lia. exact Hhi. }
  pose proof (pow2_pos (Zdigits2 m - n - 1) ltac:(lia)).
  split; [lia|]. apply Zdigits2_unique; [lia|].
  replace (Zdigits2 m - n - 1) with (Zdigits2 m - n - 1) by lia.
  split; [exact H1 | exact H2].
Qed.

Lemma div_pow2_small (m n : Z) : 0 <= m -> Zdigits2 m <= n -> m / 2 ^ n = 0.
Proof.
  intros Hm Hn. apply Z.div_small. split; [exact Hm|].
  destruct (Z.eq_dec m 0) as [->|Hne].
  - apply pow2_pos. pose proof (Zdigits2_nonneg 0). cbn in *. lia.
  - pose proof (Zdigits2_bounds m ltac:(lia)) as [_ Hhi].
    pose proof (Z.pow_le_mono_r 2 (Zdigits2 m) n ltac:(lia) Hn). lia.
Qed.

(** *** Shifting a mantissa to the right *)

Lemma shr_1_spec (mrs : shr_record) :
  0 <= shr_m mrs ->
  shr_m (shr_1 mrs) = shr_m mrs / 2
  /\ shr_r (shr_1 mrs) = Z.odd (shr_m mrs)
  /\ shr_s (shr_1 mrs) = shr_r mrs || shr_s mrs.
Proof.
  destruct mrs as [m r s]. cbn [shr_m shr_r shr_s].
  destruct m as [|[p|p|]|p]; intros Hm; cbn [shr_1 shr_m shr_r shr_s];
    try lia; repeat split.
  - rewrite (Pos2Z.inj_xI p). apply Z.div_unique with 1; lia.
  - rewrite (Pos2Z.inj_xO p). apply Z.div_unique with 0; lia.
Qed.

Lemma iter_pos_ind {A : Type} (f : A -> A) (P : Z -> A -> Prop) :
  (forall k x, 0 <= k -> P k x -> P (k + 1) (f x)) ->
  forall p k x, 0 <= k -> P k x -> P (k + Z.pos p) (SpecFloat.iter_pos f p x).
Proof.
  intros Hstep. induction p as [p IH|p IH|]; intros k x Hk HP;
    cbn [SpecFloat.iter_pos].
  - replace (k + Z.pos p~1) with (k + 1 + Z.pos p + Z.pos p) by lia.
    apply IH; [lia|]. apply IH; [lia|]. apply Hstep; assumption.
  - replace (k + Z.pos p~0) with (k + Z.pos p + Z.pos p) by lia.
    apply IH; [lia|]. apply IH; assumption.
  - apply Hstep; assumption.
Qed.

Lemma mod_pow2_succ (m k : Z) :
  0 <= m -> 0 <= k -> m mod 2 ^ (k + 1) = 0 ->
  m mod 2 ^ k = 0 /\ Z.odd (m / 2 ^ k) = false.
Proof.
  intros Hm Hk H. pose proof (pow2_pos k Hk) as Hp.
  apply Z.mod_divide in H; [|rewrite Z.pow_add_r by lia; lia].
  destruct H as [c Hc]. rewrite Z.pow_add_r, Z.pow_1_r in Hc by lia.
  subst m. split.
  - replace (c * (2 ^ k * 2)) with (c * 2 * 2 ^ k) by ring.
    apply Z.mod_mul. lia.
  - replace (c * (2 ^ k * 2)) with (c * 2 * 2 ^ k) by ring.
    rewrite Z.div_mul by lia. rewrite Z.odd_mul. cbn. apply andb_false_r.
Qed.

Lemma iter_pos_shr_1 (p : positive) (m : Z) (r s : bool) :
  0 <= m ->
  let mrs := SpecFloat.iter_pos shr_1 p (Build_shr_record m r s) in
  shr_m mrs = m / 2 ^ Z.pos p
  /\ (m mod 2 ^ Z.pos p = 0 -> r = false -> s = false ->
      shr_r mrs = false /\ shr_s mrs = false).
Proof.
  intros Hm.
  pose (P := fun (k : Z) (mrs : shr_record) =>
    shr_m mrs = m / 2 ^ k
    /\ (m mod 2 ^ k = 0 -> r = false -> s = false ->
        shr_r mrs = false /\ shr_s mrs = false)).
  assert (forall k x, 0 <= k -> P k x -> P (k + 1) (shr_1 x)) as Hstep.
  { intros k x Hk [Hx Hexact].
    assert (0 <= shr_m x) as Hx0.
    { rewrite Hx. apply Z.div_pos; [exact Hm | apply pow2_pos; exact Hk]. }
    destruct (shr_1_spec x Hx0) as (H1 & H2 & H3). split.
    - rewrite H1, Hx, Z.div_div by (try apply pow2_pos; lia).
      rewrite Z.pow_add_r, Z.pow_1_r by lia. reflexivity.
    - intros Hmod Hr Hs.
      destruct (mod_pow2_succ m k Hm Hk Hmod) as [Hmod' Hodd].
      destruct (Hexact Hmod' Hr Hs) as [Hr' Hs'].
      rewrite H2, H3, Hx, Hodd, Hr', Hs'. split; reflexivity. }
  pose proof (iter_pos_ind shr_1 P Hstep p 0 (Build_shr_record m r s)
                ltac:(lia)) as H.
  rewrite Z.add_0_l in H. apply H. split.
  - cbn [shr_m]. rewrite Z.pow_0_r, Z.div_1_r. reflexivity.
  - intros _ -> ->. split; reflexivity.
Qed.


Lemma loc_of_shr_record_of_loc (m : Z) (l : location) :
  loc_of_shr_record (shr_record_of_loc m l) = l.
Proof. destruct l as [|[]]; reflexivity. Qed.

Lemma shr_m_of_loc (m : Z) (l : location) : shr_m (shr_record_of_loc m l) = m.
Proof. destruct l as [|[]]; reflexivity. Qed.

Lemma shr_spec (m : Z) (l : location) (e n : Z) :
  0 <= m -> 0 < n ->
  exists mrs,
    shr (shr_record_of_loc m l) e n = (mrs, e + n)
    /\ shr_m mrs = m / 2 ^ n
    /\ (m mod 2 ^ n = 0 -> l = loc_Exact ->
        loc_of_shr_record mrs = loc_Exact).
Proof.
  intros Hm Hn. destruct n as [|p|p]; try lia. cbn [shr].
  eexists. split; [reflexivity|].
  destruct (shr_record_of_loc m l) as [m' r s] eqn:E.
  assert (m' = m) as -> by (rewrite <- (shr_m_of_loc m l), E; reflexivity).
  destruct (iter_pos_shr_1 p m r s Hm) as [H1 H2]. split; [exact H1|].
  intros Hmod ->. cbn in E. injection E as <- <-.
  destruct (H2 Hmod eq_refl eq_refl) as [Hr Hs].
  destruct (SpecFloat.iter_pos shr_1 p (Build_shr_record m false false))
    as [m2 r2 s2].
  cbn in Hr, Hs. subst. reflexivity.
Qed.

Lemma shr_nonpos (mrs : shr_record) (e n : Z) : n <= 0 -> shr mrs e n = (mrs, e).
Proof. destruct n; try lia; reflexivity. Qed.

(** The two cases of [shr_fexp]. *)
Lemma shr_fexp_spec (m e : Z) (l : location) :
  0 <= m ->
  let n := fexp 53 1024 (Zdigits2 m + e) - e in
  exists mrs e1,
    shr_fexp 53 1024 m e l = (mrs, e1)
    /\ 0 <= shr_m mrs
    /\ (n <= 0 -> e1 = e /\ shr_m mrs = m /\ loc_of_shr_record mrs = l)
    /\ (0 < n ->
        e1 = e + n /\ shr_m mrs = m / 2 ^ n
        /\ (m mod 2 ^ n = 0 -> l = loc_Exact ->
            loc_of_shr_record mrs = loc_Exact)).
Proof.
  intros Hm n. unfold shr_fexp. fold n.
  destruct (Z_le_gt_dec n 0) as [Hn|Hn].
  - rewrite (shr_nonpos _ _ _ Hn). eexists _, _. split; [reflexivity|].
    rewrite shr_m_of_loc, loc_of_shr_record_of_loc.
    split; [exact Hm|]. split; [intros _; repeat split | lia].
  - destruct (shr_spec m l e n Hm ltac:(lia)) as (mrs & -> & H1 & H2).
    eexists _, _. split; [reflexivity|]. split.
    + rewrite H1. apply Z.div_pos; [exact Hm | apply pow2_pos; lia].
    + split; [lia|]. intros _. split; [reflexivity|].
      split; [exact H1 | exact H2].
Qed.

Lemma round_nearest_even_bounds (m : Z) (l : location) :
  m <= round_nearest_even m l <= m + 1.
Proof.
  destruct l as [|[]]; cbn [round_nearest_even]; try lia.
  destruct (Z.even m); lia.
Qed.

(** One [shr_fexp] of a value that is at most one. *)
Lemma shr_fexp_le_one (m e : Z) (l : location) :
  0 <= m -> e <= 0 -> m <= 2 ^ (- e) -> (m = 2 ^ (- e) -> l = loc_Exact) ->
  exists mrs e1,
    shr_fexp 53 1024 m e l = (mrs, e1)
    /\ 0 <= shr_m mrs /\ e1 <= 0 /\ shr_m mrs <= 2 ^ (- e1)
    /\ (shr_m mrs = 2 ^ (- e1) -> loc_of_shr_record mrs = loc_Exact).
Proof.
  intros Hm He Hle Hexact.
  destruct (shr_fexp_spec m e l Hm) as (mrs & e1 & Hrun & H0 & Hsame & Hshift).
  exists mrs, e1. split; [exact Hrun|]. split; [exact H0|].
  set (n := fexp 53 1024 (Zdigits2 m + e) - e) in *.
  destruct (Z_le_gt_dec n 0) as [Hn|Hn].
  - destruct (Hsame Hn) as (-> & -> & ->). repeat split; assumption.
  - destruct (Hshift ltac:(lia)) as (-> & Hm1 & Hloc).
    pose proof (Zdigits2_le_pow m (- e) Hm ltac:(lia) Hle) as Hd.
    assert (e + n <= 0) as He1.
    { unfold n. rewrite fexp_eq. lia. }
    split; [exact He1|].
    pose proof (pow2_pos n ltac:(lia)) as Hpn.
    pose proof (pow2_pos (- (e + n)) ltac:(lia)) as Hpe.
    assert (2 ^ (- e) = 2 ^ (- (e + n)) * 2 ^ n) as Hsplit.
    { rewrite <- pow2_add by lia. f_equal. lia. }
    split.
    + rewrite Hm1. apply Z.div_le_upper_bound; [exact Hpn|].
      rewrite Z.mul_comm, <- Hsplit. exact Hle.
    + intros Heq. rewrite Hm1 in Heq.
      pose proof (Z.mul_div_le m (2 ^ n) Hpn) as Hmul.
      rewrite Heq, Z.mul_comm, <- Hsplit in Hmul.
      assert (m = 2 ^ (- e)) as Hm' by lia.
      apply Hloc; [|exact (Hexact Hm')].
      rewrite Hm', Hsplit. apply Z.mod_mul. lia.
Qed.

(** Rounding a value that is at most one: the result is a zero, or a
    number that is at most one. *)
Lemma binary_round_aux_le_one (sx : bool) (mx ex : Z) (lx : location) :
  0 <= mx -> ex <= 0 -> mx <= 2 ^ (- ex) ->
  (mx = 2 ^ (- ex) -> lx = loc_Exact) ->
  binary_round_aux 53 1024 sx mx ex lx = S754_zero sx
  \/ exists m e,
       binary_round_aux 53 1024 sx mx ex lx = S754_finite sx m e
       /\ e <= 0 /\ Z.pos m <= 2 ^ (- e).
Proof.
  intros Hm He Hle Hexact. unfold binary_round_aux.
  destruct (shr_fexp_le_one mx ex lx Hm He Hle Hexact)
    as (mrs1 & e1 & -> & H0 & He1 & Hle1 & Hexact1).
  pose proof (round_nearest_even_bounds (shr_m mrs1) (loc_of_shr_record mrs1))
    as Hround.
  set (mr := round_nearest_even (shr_m mrs1) (loc_of_shr_record mrs1)) in *.
  assert (mr <= 2 ^ (- e1)) as Hler.
  { destruct (Z.eq_dec (shr_m mrs1) (2 ^ (- e1))) as [Heq|Hne].
    - unfold mr. rewrite (Hexact1 Heq). cbn [round_nearest_even]. lia.
    - lia. }
  destruct (shr_fexp_le_one mr e1 loc_Exact ltac:(lia) He1 Hler
              ltac:(reflexivity))
    as (mrs2 & e2 & -> & H2 & He2 & Hle2 & _).
  destruct (shr_m mrs2) as [|m|m] eqn:E; [left; reflexivity | | lia].
  right. exists m, e2.
  assert ((e2 <=? 1024 - 53) = true) as -> by (apply Z.leb_le; lia).
  repeat split; assumption.
Qed.

(** [shr_fexp] leaves a canonical mantissa when it keeps a digit. *)
Lemma shr_fexp_canonical (m e : Z) (l : location) :
  0 < m ->
  0 <= fexp 53 1024 (Zdigits2 m + e) - e < Zdigits2 m ->
  exists mrs e1,
    shr_fexp 53 1024 m e l = (mrs, e1)
    /\ 0 < shr_m mrs
    /\ fexp 53 1024 (Zdigits2 (shr_m mrs) + e1) = e1.
Proof.
  intros Hm Hn.
  destruct (shr_fexp_spec m e l ltac:(lia))
    as (mrs & e1 & Hrun & H0 & Hsame & Hshift).
  set (n := fexp 53 1024 (Zdigits2 m + e) - e) in *.
  exists mrs, e1. split; [exact Hrun|].
  destruct (Z.eq_dec n 0) as [Hz|Hnz].
  - destruct (Hsame ltac:(lia)) as (-> & -> & _).
    split; [exact Hm|]. unfold n in Hz. lia.
  - destruct (Hshift ltac:(lia)) as (-> & Hm1 & _).
    destruct (Zdigits2_div_pow2 m n Hm Hn) as [Hpos Hd].
    rewrite Hm1. split; [exact Hpos|].
    rewrite Hd.
    replace (Zdigits2 m - n + (e + n)) with (Zdigits2 m + e) by lia.
    unfold n. lia.
Qed.

(** The digits of a successor. *)
Lemma Zdigits2_succ (m : Z) :
  0 < m -> Zdigits2 (m + 1) = Zdigits2 m \/ Zdigits2 (m + 1) = Zdigits2 m + 1.
Proof.
  intros Hm. pose proof (Zdigits2_bounds m Hm) as [Hlo Hhi].
  pose proof (Zdigits2_pos m Hm) as Hd.
  destruct (Z.eq_dec (m + 1) (2 ^ Zdigits2 m)) as [Heq|Hne].
  - right. apply Zdigits2_unique; [lia|].
    replace (Zdigits2 m + 1 - 1) with (Zdigits2 m) by lia.
    rewrite pow2_add, Z.pow_1_r by lia. lia.
  - left. apply Zdigits2_unique; lia.
Qed.

(** Rounding a mantissa that has the digits the format asks for gives a
    canonical result. *)
Lemma binary_round_aux_canonical (sx : bool) (mx ex : Z) (lx : location) :
  0 < mx -> ex <= fexp 53 1024 (Zdigits2 mx + ex) ->
  forall s m e,
    binary_round_aux 53 1024 sx mx ex lx = S754_finite s m e ->
    fexp 53 1024 (Z.pos (digits2_pos m) + e) = e.
Proof.
  intros Hm Hprec s m e. unfold binary_round_aux.
  set (n := fexp 53 1024 (Zdigits2 mx + ex) - ex).
  destruct (Z_lt_ge_dec n (Zdigits2 mx)) as [Hn|Hn].
  - destruct (shr_fexp_canonical mx ex lx Hm ltac:(fold n; lia))
      as (mrs1 & e1 & -> & Hpos1 & Hcan1).
    pose proof (round_nearest_even_bounds (shr_m mrs1)
                  (loc_of_shr_record mrs1)) as Hround.
    set (mr := round_nearest_even (shr_m mrs1) (loc_of_shr_record mrs1)) in *.
    assert (0 <= fexp 53 1024 (Zdigits2 mr + e1) - e1 < Zdigits2 mr) as Hn2.
    { pose proof (Zdigits2_pos (shr_m mrs1) Hpos1) as Hd1.
      assert (mr = shr_m mrs1 \/ mr = shr_m mrs1 + 1) as [->| ->] by lia.
      - lia.
      - rewrite fexp_eq in *.
        destruct (Zdigits2_succ (shr_m mrs1) Hpos1) as [->| ->]; lia. }
    destruct (shr_fexp_canonical mr e1 loc_Exact ltac:(lia) Hn2)
      as (mrs2 & e2 & -> & Hpos2 & Hcan2).
    destruct (shr_m mrs2) as [|m2|m2]; try lia.
    destruct (e2 <=? 1024 - 53); [|discriminate].
    intros [= _ <- <-]. exact Hcan2.
  - pose proof (Zdigits2_pos mx Hm) as Hd.
    destruct (shr_fexp_spec mx ex lx ltac:(lia))
      as (mrs1 & e1 & -> & H0 & _ & Hshift).
    fold n in Hshift. destruct (Hshift ltac:(lia)) as (-> & Hm1 & _).
    rewrite (div_pow2_small mx n ltac:(lia) ltac:(lia)) in Hm1.
    pose proof (round_nearest_even_bounds (shr_m mrs1)
                  (loc_of_shr_record mrs1)) as Hround.
    set (mr := round_nearest_even (shr_m mrs1) (loc_of_shr_record mrs1)) in *.
    assert (ex + n = -1074) as He1 by (unfold n in *; rewrite fexp_eq in *; lia).
    rewrite He1.
    destruct (shr_fexp_spec mr (-1074) loc_Exact ltac:(lia))
      as (mrs2 & e2 & -> & H2 & Hsame & _).
    assert (mr = 0 \/ mr = 1) as [Hmr|Hmr] by lia; rewrite Hmr in Hsame;
      destruct (Hsame ltac:(vm_compute; discriminate)) as (-> & -> & _).
    + discriminate.
    + cbn. intros [= _ <- <-]. reflexivity.
Qed.

(** *** Aligning a mantissa to the left *)

Lemma iter_xO (d mx : positive) :
  Z.pos (Pos.iter xO mx d) = Z.pos mx * 2 ^ Z.pos d.
Proof.
  induction d as [|d IH] using Pos.peano_ind.
  - cbn [Pos.iter]. rewrite (Pos2Z.inj_xO mx), Z.pow_1_r. lia.
  - rewrite Pos.iter_succ, (Pos2Z.inj_xO (Pos.iter xO mx d)), IH.
    rewrite Pos2Z.inj_succ, Z.pow_succ_r by lia. ring.
Qed.

Lemma shl_align_spec (mx : positive) (ex ex' : Z) :
  exists mz ez,
    shl_align mx ex ex' = (mz, ez)
    /\ ez = Z.min ex ex'
    /\ Z.pos mz = Z.pos mx * 2 ^ (ex - ez).
Proof.
  unfold shl_align. destruct (ex' - ex) as [|p|p] eqn:E.
  - eexists _, _. split; [reflexivity|]. split; [lia|].
    rewrite Z.sub_diag, Z.pow_0_r. lia.
  - eexists _, _. split; [reflexivity|]. split; [lia|].
    rewrite Z.sub_diag, Z.pow_0_r. lia.
  - eexists _, _. split; [reflexivity|]. split; [lia|].
    change (PosDef.Pos.iter xO mx p) with (Pos.iter xO mx p).
    rewrite iter_xO. f_equal. f_equal. lia.
Qed.

(** Rounding an integer multiple of a power of two that is at most one:
    the result is a zero or a canonical number that is at most one. *)
Lemma binary_round_le_one (sx : bool) (mx : positive) (ex : Z) :
  ex <= 0 -> Z.pos mx <= 2 ^ (- ex) ->
  binary_round 53 1024 sx mx ex = S754_zero sx
  \/ exists m e,
       binary_round 53 1024 sx mx ex = S754_finite sx m e
       /\ e <= 0 /\ Z.pos m <= 2 ^ (- e)
       /\ fexp 53 1024 (Z.pos (digits2_pos m) + e) = e.
Proof.
  intros He Hle. unfold binary_round.
  destruct (shl_align_spec mx ex (fexp 53 1024 (Z.pos (digits2_pos mx) + ex)))
    as (mz & ez & -> & Hez & Hmz).
  assert (0 <= ex - ez) as Hd by lia.
  pose proof (pow2_pos (ex - ez) Hd) as Hp.
  assert (Z.pos mz <= 2 ^ (- ez)) as Hlez.
  { rewrite Hmz. replace (- ez) with (- ex + (ex - ez)) by lia.
    rewrite pow2_add by lia. apply Z.mul_le_mono_nonneg_r; lia. }
  assert (ez <= fexp 53 1024 (Zdigits2 (Z.pos mz) + ez)) as Hprec.
  { assert (Zdigits2 (Z.pos mz) = Z.pos (digits2_pos mx) + (ex - ez)) as ->.
    { apply Zdigits2_unique; [lia|]. rewrite Hmz.
      pose proof (digits2_pos_bounds mx) as [Hlo Hhi].
      replace (Z.pos (digits2_pos mx) + (ex - ez) - 1)
        with (Z.pos (digits2_pos mx) - 1 + (ex - ez)) by lia.
      rewrite !pow2_add by lia. split.
      - apply Z.mul_le_mono_nonneg_r; lia.
      - apply Z.mul_lt_mono_pos_r; lia. }
    replace (Z.pos (digits2_pos mx) + (ex - ez) + ez)
      with (Z.pos (digits2_pos mx) + ex) by lia.
    lia. }
  destruct (binary_round_aux_le_one sx (Z.pos mz) ez loc_Exact ltac:(lia)
              ltac:(lia) Hlez ltac:(reflexivity))
    as [H|(m & e & H & He' & Hle')]; [left; exact H|].
  right. exists m, e. split; [exact H|]. split; [exact He'|].
  split; [exact Hle'|].
  exact (binary_round_aux_canonical sx (Z.pos mz) ez loc_Exact ltac:(lia)
           Hprec sx m e H).
Qed.

(** *** Quotients and differences *)

Lemma new_location_zero (n : Z) : new_location n 0 = loc_Exact.
Proof.
  unfold new_location, new_location_even, new_location_odd.
  destruct (Z.even n); reflexivity.
Qed.

Lemma shifted_mantissa (m s : Z) :
  0 <= s ->
  match s with
  | 0 => m
  | Z.pos _ => IntDef.Z.shiftl m s
  | Z.neg _ => 0
  end = m * 2 ^ s.
Proof.
  intros Hs. destruct s as [|p|p]; [rewrite Z.pow_0_r; lia | | lia].
  change (IntDef.Z.shiftl m (Z.pos p)) with (Z.shiftl m (Z.pos p)).
  apply Z.shiftl_mul_pow2. lia.
Qed.

(** The results of rounding carry the sign they were given. *)
Lemma binary_round_aux_sign (sx : bool) (mx ex : Z) (lx : location) :
  0 <= mx ->
  binary_round_aux 53 1024 sx mx ex lx = S754_zero sx
  \/ binary_round_aux 53 1024 sx mx ex lx = S754_infinity sx
  \/ exists m e, binary_round_aux 53 1024 sx mx ex lx = S754_finite sx m e.
Proof.
  intros Hm. unfold binary_round_aux.
  destruct (shr_fexp_spec mx ex lx Hm) as (mrs1 & e1 & -> & H1 & _).
  pose proof (round_nearest_even_bounds (shr_m mrs1)
                (loc_of_shr_record mrs1)) as Hround.
  destruct (shr_fexp_spec (round_nearest_even (shr_m mrs1)
                             (loc_of_shr_record mrs1)) e1 loc_Exact
              ltac:(lia)) as (mrs2 & e2 & -> & H2 & _).
  destruct (shr_m mrs2) as [|m|m]; [tauto | | lia].
  destruct (e2 <=? 1024 - 53); [|tauto].
  right. right. eexists _, _. reflexivity.
Qed.

Lemma SFdiv_sign (sx sy : bool) (mx my : positive) (ex ey : Z) :
  let q := SFdiv 53 1024 (S754_finite sx mx ex) (S754_finite sy my ey) in
  q = S754_zero (xorb sx sy) \/ q = S754_infinity (xorb sx sy)
  \/ exists m e, q = S754_finite (xorb sx sy) m e.
Proof.
  cbv zeta. unfold SFdiv, SFdiv_core_binary. cbv zeta.
  set (s := _ - _ - _).
  assert (0 <= match s with
               | 0 => Z.pos mx
               | Z.pos _ => IntDef.Z.shiftl (Z.pos mx) s
               | Z.neg _ => 0
               end) as Hm.
  { destruct s as [|p|p]; try lia.
    change (IntDef.Z.shiftl (Z.pos mx) (Z.pos p))
      with (Z.shiftl (Z.pos mx) (Z.pos p)).
    apply Z.shiftl_nonneg. lia. }
  set (m' := match s with
             | 0 => Z.pos mx
             | Z.pos _ => IntDef.Z.shiftl (Z.pos mx) s
             | Z.neg _ => 0
             end) in *.
  change (IntDef.Z.div_eucl m' (Z.pos my)) with (Z.div_eucl m' (Z.pos my)).
  pose proof (Z.div_pos m' (Z.pos my) Hm ltac:(lia)) as Hq.
  unfold Z.div in Hq.
  destruct (Z.div_eucl m' (Z.pos my)) as [q r].
  apply binary_round_aux_sign. exact Hq.
Qed.

(** Of two canonical positive numbers the one that is not less has the
    greater exponent, or the same exponent and a mantissa that is not
    less. *)
Lemma canonical_not_less (md mf : positive) (ed ef : Z) :
  fexp 53 1024 (Z.pos (digits2_pos md) + ed) = ed ->
  fexp 53 1024 (Z.pos (digits2_pos mf) + ef) = ef ->
  SFltb (S754_finite false mf ef) (S754_finite false md ed) = false ->
  (ed < ef /\ Z.pos (digits2_pos mf) = 53 /\ Z.pos (digits2_pos md) <= 53)
  \/ (ed = ef /\ Z.pos md <= Z.pos mf).
Proof.
  intros Hd Hf. rewrite fexp_eq in Hd, Hf. unfold SFltb, SFcompare.
  destruct (Z.compare_spec ef ed) as [Heq|Hlt|Hgt].
  - rewrite Pos.compare_cont_spec. cbn [Pos.switch_Eq].
    destruct (Pos.compare_spec mf md) as [H|H|H]; intros Hcmp;
      try discriminate Hcmp; right; split; lia.
  - discriminate.
  - intros _. left. lia.
Qed.

(** The quotient of a canonical positive number by one that is not less
    is a zero or a positive number that is at most one. *)
Lemma SFdiv_le_one (md mf : positive) (ed ef : Z) :
  fexp 53 1024 (Z.pos (digits2_pos md) + ed) = ed ->
  fexp 53 1024 (Z.pos (digits2_pos mf) + ef) = ef ->
  SFltb (S754_finite false mf ef) (S754_finite false md ed) = false ->
  SFdiv 53 1024 (S754_finite false md ed) (S754_finite false mf ef)
  = S754_zero false
  \/ exists m e,
       SFdiv 53 1024 (S754_finite false md ed) (S754_finite false mf ef)
       = S754_finite false m e
       /\ e <= 0 /\ Z.pos m <= 2 ^ (- e).
Proof.
  intros Hd Hf Hcmp.
  pose proof (canonical_not_less md mf ed ef Hd Hf Hcmp) as Hle.
  pose proof (digits2_pos_bounds md) as [Hdlo Hdhi].
  pose proof (digits2_pos_bounds mf) as [Hflo Hfhi].
  unfold SFdiv, SFdiv_core_binary. cbn [xorb Zdigits2]. cbv zeta.
  set (d1 := Z.pos (digits2_pos md)) in *.
  set (d2 := Z.pos (digits2_pos mf)) in *.
  change (IntDef.Z.min (fexp 53 1024 (d1 + ed - (d2 + ef))) (ed - ef))
    with (Z.min (fexp 53 1024 (d1 + ed - (d2 + ef))) (ed - ef)).
  set (e' := Z.min (fexp 53 1024 (d1 + ed - (d2 + ef))) (ed - ef)).
  set (s := ed - ef - e').
  assert (0 <= s) as Hs by (unfold s, e'; lia).
  rewrite (shifted_mantissa (Z.pos md) s Hs).
  change (IntDef.Z.div_eucl (Z.pos md * 2 ^ s) (Z.pos mf))
    with (Z.div_eucl (Z.pos md * 2 ^ s) (Z.pos mf)).
  pose proof (Z.div_eucl_eq (Z.pos md * 2 ^ s) (Z.pos mf) ltac:(lia)) as Heucl.
  pose proof (Z.mod_pos_bound (Z.pos md * 2 ^ s) (Z.pos mf) ltac:(lia)) as Hr.
  unfold Z.modulo in Hr.
  destruct (Z.div_eucl (Z.pos md * 2 ^ s) (Z.pos mf)) as [q r].
  assert (d1 <= 53 /\ d2 <= 53) as [Hd1 Hd2].
  { rewrite fexp_eq in Hd, Hf. fold d1 in Hd. fold d2 in Hf. lia. }
  assert (d1 + ed <= d2 + ef) as Hdigits.
  { destruct Hle as [(H1 & H2 & H3)|[H1 H2]]; [lia|].
    assert (d1 <= d2); [|lia].
    destruct (Z_le_gt_dec d1 d2) as [H|H]; [exact H|].
    pose proof (Z.pow_le_mono_r 2 d2 (d1 - 1) ltac:(lia) ltac:(lia)). lia. }
  assert (e' <= -53) as He'.
  { unfold e'. rewrite fexp_eq. lia. }
  pose proof (pow2_pos s Hs) as Hps.
  pose proof (pow2_pos (- e') ltac:(lia)) as Hpe.
  assert (Z.pos md * 2 ^ s <= Z.pos mf * 2 ^ (- e')) as Hvalue.
  { destruct Hle as [(H1 & H2 & H3)|[H1 H2]].
    - (* the divisor has the greater exponent *)
      assert (2 ^ 52 <= Z.pos mf) as Hmf.
      { fold d2 in H2. rewrite H2 in Hflo. exact Hflo. }
      assert (Z.pos md < 2 ^ 53) as Hmd.
      { pose proof (Z.pow_le_mono_r 2 d1 53 ltac:(lia) Hd1). lia. }
      assert (2 ^ 53 * 2 ^ s <= 2 ^ 52 * 2 ^ (- e')) as Hpow.
      { rewrite <- !pow2_add by lia.
        apply Z.pow_le_mono_r; [lia|]. unfold s. lia. }
      apply Z.le_trans with (2 ^ 53 * 2 ^ s).
      + apply Z.mul_le_mono_nonneg_r; lia.
      + apply Z.le_trans with (2 ^ 52 * 2 ^ (- e')); [exact Hpow|].
        apply Z.mul_le_mono_nonneg_r; lia.
    - (* the same exponent *)
      assert (s = - e') as -> by (unfold s; lia).
      apply Z.mul_le_mono_nonneg_r; lia. }
  assert (0 <= q) as Hq0.
  { destruct (Z_le_gt_dec 0 q) as [H|H]; [exact H|].
    assert (Z.pos mf * q <= Z.pos mf * (-1))
      by (apply Z.mul_le_mono_nonneg_l; lia).
    pose proof (Z.mul_nonneg_nonneg (Z.pos md) (2 ^ s) ltac:(lia) ltac:(lia)).
    lia. }
  assert (q <= 2 ^ (- e')) as Hq.
  { destruct (Z_le_gt_dec q (2 ^ (- e'))) as [H|H]; [exact H|].
    assert (Z.pos mf * (2 ^ (- e') + 1) <= Z.pos mf * q)
      by (apply Z.mul_le_mono_nonneg_l; lia).
    lia. }
  apply binary_round_aux_le_one; [exact Hq0 | lia | exact Hq |].
  intros Heq. subst q. assert (r = 0) as -> by lia.
  apply new_location_zero.
Qed.

Lemma one_eq : of_int64 1 = S754_finite false 4503599627370496 (-52).
Proof. reflexivity. Qed.

(** One minus a positive number that is at most one lies between zero and
    one. *)
Lemma one_minus_le_one (m : positive) (e : Z) :
  e <= 0 -> Z.pos m <= 2 ^ (- e) ->
  SFleb (of_int64 0) (SFsub 53 1024 (of_int64 1) (S754_finite false m e)) = true
  /\ SFleb (SFsub 53 1024 (of_int64 1) (S754_finite false m e)) (of_int64 1) = true.
Proof.
  intros He Hle. rewrite one_eq. unfold SFsub. cbv zeta.
  change (IntDef.Z.min (-52) e) with (Z.min (-52) e).
  set (ez := Z.min (-52) e).
  destruct (shl_align_spec 4503599627370496 (-52) ez)
    as (mz1 & ez1 & -> & Hez1 & Hmz1).
  destruct (shl_align_spec m e ez) as (mz2 & ez2 & -> & Hez2 & Hmz2).
  cbn [fst cond_Zopp].
  assert (ez1 = ez /\ ez2 = ez) as [-> ->] by (unfold ez in *; lia).
  assert (Z.pos mz1 = 2 ^ (- ez)) as Hone.
  { rewrite Hmz1. change 4503599627370496 with (2 ^ 52).
    rewrite <- pow2_add by (unfold ez; lia). f_equal. lia. }
  assert (Z.pos mz2 <= 2 ^ (- ez)) as Hq.
  { rewrite Hmz2. replace (- ez) with (- e + (e - ez)) by lia.
    rewrite pow2_add by (unfold ez; lia).
    apply Z.mul_le_mono_nonneg_r; [|exact Hle].
    apply Z.lt_le_incl, pow2_pos. unfold ez. lia. }
  destruct (Z.pos mz1 - Z.pos mz2) as [|k|k] eqn:Ek; [split; reflexivity | | lia].
  cbn [binary_normalize].
  destruct (binary_round_le_one false k ez ltac:(unfold ez; lia) ltac:(lia))
    as [->|(m' & e' & -> & He' & Hle' & Hcan)]; [split; reflexivity|].
  split; [reflexivity|].
  unfold SFleb, SFcompare.
  destruct (Z.compare_spec e' (-52)) as [Heq|Hlt|Hgt]; [|reflexivity|].
  - subst e'. rewrite Pos.compare_cont_spec. cbn [Pos.switch_Eq].
    destruct (Pos.compare_spec m' 4503599627370496) as [H|H|H];
      try reflexivity.
    change (2 ^ (- -52)) with 4503599627370496 in Hle'. lia.
  - exfalso. rewrite fexp_eq in Hcan.
    pose proof (Zdigits2_le_pow (Z.pos m') (- e') ltac:(lia) ltac:(lia) Hle')
      as Hdig.
    cbn [Zdigits2] in Hdig. lia.
Qed.

(** One minus a negative number is not negative. *)
Lemma one_minus_negative (m : positive) (e : Z) :
  SFleb (of_int64 0) (SFsub 53 1024 (of_int64 1) (S754_finite true m e)) = true.
Proof.
  rewrite one_eq. unfold SFsub. cbv zeta. cbn [cond_Zopp].
  destruct (shl_align 4503599627370496 (-52) (IntDef.Z.min (-52) e))
    as [mz1 ez1].
  destruct (shl_align m e (IntDef.Z.min (-52) e)) as [mz2 ez2].
  cbn [fst].
  replace (Z.pos mz1 - - Z.pos mz2) with (Z.pos (mz1 + mz2)) by lia.
  cbn [binary_normalize]. unfold binary_round.
  destruct (shl_align (mz1 + mz2) _ _) as [mz ez].
  destruct (binary_round_aux_sign false (Z.pos mz) ez loc_Exact ltac:(lia))
    as [->|[->|(m' & e' & ->)]]; reflexivity.
Qed.

Lemma valid_binary_canonical (s : bool) (m : positive) (e : Z) :
  valid_binary 53 1024 (S754_finite s m e) = true ->
  fexp 53 1024 (Z.pos (digits2_pos m) + e) = e.
Proof.
  cbn [valid_binary]. unfold bounded, canonical_mantissa.
  intros H. apply andb_true_iff in H as [H _]. apply Z.eqb_eq in H. exact H.
Qed.

(** The opacity [1 - delta / fadeOutTime] that a refresh gives to a
    visualization it retains is never negative and, when the idle time
    [delta] is not negative, never above 1; for a finite idle time it is
    at least 0 and, when the idle time is not negative, at most 1. *)
Lemma opacity_bounds (fadeOutTime delta : double) :
  valid fadeOutTime = true ->
  valid delta = true ->
  (of_int64 0 <? fadeOutTime)%dbl = true ->
  (fadeOutTime <? delta)%dbl = false ->
  let a := (of_int64 1 - delta / fadeOutTime)%dbl in
  (a <? of_int64 0)%dbl = false
  /\ ((delta >=? of_int64 0)%dbl = true -> (of_int64 1 <? a)%dbl = false)
  /\ (isfinite delta = true ->
      (a >=? of_int64 0)%dbl = true
      /\ ((delta >=? of_int64 0)%dbl = true ->
          (of_int64 1 >=? a)%dbl = true)).
Proof.
  unfold valid, Double.ltb, Double.geb, Double.sub, Double.div, prec, emax.
  intros Hf Hd Hpos Hret. cbv zeta.
  assert (forall a : double,
            SFleb (of_int64 0) a = true
            /\ (SFleb (of_int64 0) delta = true ->
                SFleb a (of_int64 1) = true) ->
            SFltb a (of_int64 0) = false
            /\ (SFleb (of_int64 0) delta = true ->
                SFltb (of_int64 1) a = false)
            /\ (isfinite delta = true ->
                SFleb (of_int64 0) a = true
                /\ (SFleb (of_int64 0) delta = true ->
                    SFleb a (of_int64 1) = true)))
    as Hfinite.
  { intros a [H0 H1]. split; [|split; [|intros _; split; assumption]].
    - revert H0. unfold SFltb, SFleb.
      destruct a as [s|s| |s m e]; try destruct s; cbn; congruence.
    - intros Hdelta. specialize (H1 Hdelta). revert H1.
      unfold SFltb, SFleb. rewrite (SFcompare_antisym a (of_int64 1)).
      destruct (SFcompare a (of_int64 1)) as [[]|]; cbn; congruence. }
  destruct fadeOutTime as [sf|sf| |sf mf ef]; try discriminate Hpos;
    destruct sf; try discriminate Hpos.
  - (* an infinite fade-out time *)
    destruct delta as [sd|sd| |sd md ed]; try destruct sd;
      repeat split; try reflexivity; try discriminate.
  - destruct delta as [sd|sd| |sd md ed].
    + destruct sd; repeat split; reflexivity.
    + destruct sd; [|discriminate Hret].
      repeat split; try reflexivity; discriminate.
    + repeat split; try reflexivity; discriminate.
    + pose proof (valid_binary_canonical _ _ _ Hf) as Hcf.
      pose proof (valid_binary_canonical _ _ _ Hd) as Hcd.
      apply Hfinite.
      destruct sd.
      * (* a negative idle time *)
        split; [|intros H; discriminate H].
        destruct (SFdiv_sign true false md mf ed ef)
          as [->|[->|(m & e & ->)]]; try reflexivity.
        apply one_minus_negative.
      * destruct (SFdiv_le_one md mf ed ef Hcd Hcf Hret)
          as [->|(m & e & -> & He & Hle)].
        -- split; [reflexivity | intros _; reflexivity].
        -- destruct (one_minus_le_one m e He Hle) as [H1 H2].
           split; [exact H1 | intros _; exact H2].
Qed.

End DoubleProperties.

(** * Properties of the streaming transmitter *)

Module TransmitterProperties.

Import StreamThroughTransmitter.
Import DoubleProperties.

(** Unfolds the monad so that a member function applied to a state reduces
    to its result. *)
Ltac unfold_setters :=
  cbv beta iota delta
    [txSignal txDatarate txStartTime txStartClockTime lastTxProgressTime
     lastTxProgressPosition lastInputDatarate lastInputProgressTime
     lastInputProgressPosition txEndTimer bufferUnderrunTimer
     set_txSignal set_txDatarate set_txStartTime set_txStartClockTime
     set_lastTxProgressTime set_lastTxProgressPosition set_lastInputDatarate
     set_lastInputProgressTime set_lastInputProgressPosition set_txEndTimer
     set_bufferUnderrunTimer isTransmitting] in *.

Ltac mred :=
  cbv beta iota delta
    [mbind mret M_bind M_ret bind ret get modify out throw ASSERT liftResult
     negb].

Section Transmitter.

Variable kernel : Kernel.
Variable dataratePar : bps.
Variable calculateDuration : bps -> Packet -> simtime_t.
Variable hasProducer : bool.
Variable baseHandleMessageWhenUp : Message -> M unit.

Abbreviation scheduleBufferUnderrunTimer :=
  (scheduleBufferUnderrunTimer kernel).
Abbreviation startTx := (startTx kernel dataratePar calculateDuration).
Abbreviation progressTx := (progressTx kernel calculateDuration).
Abbreviation endTx := (endTx kernel hasProducer).
Abbreviation abortTx := (abortTx kernel calculateDuration hasProducer).
Abbreviation producerNotifications := (producerNotifications hasProducer).
Abbreviation unset := (seconds kernel (-1)).

(** The time at which [scheduleBufferUnderrunTimer] leaves the timer. *)
Lemma scheduleBufferUnderrunTimer_run (s : State) :
  exists timer,
    scheduleBufferUnderrunTimer s = Ok (tt, set_bufferUnderrunTimer timer s, [])
    /\ (is_Some timer <-> (lastInputDatarate s <? txDatarate s)%dbl = true)
    /\ (forall t, timer = Some t -> t = bufferUnderrunTime kernel s).
Proof.
  unfold StreamThroughTransmitter.scheduleBufferUnderrunTimer,
    cancelEvent_bufferUnderrunTimer, scheduleAt_bufferUnderrunTimer.
  mred. cbn [lastInputDatarate txDatarate set_bufferUnderrunTimer
    lastInputProgressPosition lastInputProgressTime lastTxProgressPosition lastTxProgressTime].
  destruct (lastInputDatarate s <? txDatarate s)%dbl eqn:E.
  - eexists. split; [reflexivity|]. split.
    + split; [reflexivity | intros _; eexists; reflexivity].
    + intros t Ht. injection Ht as <-. reflexivity.
  - exists None. split; [reflexivity|]. split.
    + split; [intros [? ?]; discriminate | discriminate].
    + discriminate.
Qed.

Ltac run_underrun_timer timer Hsome Htime :=
  match goal with
  | |- context [scheduleBufferUnderrunTimer ?st] =>
      destruct (scheduleBufferUnderrunTimer_run st) as (timer & -> & Hsome & Htime);
      unfold_setters
  end.

Lemma startTx_run now packet datarate position s :
  isTransmitting s = false ->
  (getClockTime now =? unset) = false ->
  let sig := mkSignal packet (calculateDuration dataratePar packet) in
  exists timer,
    startTx now packet datarate position s
    = Ok (tt,
          mkState (Some sig) dataratePar (simTime now) (getClockTime now)
            (simTime now) 0 datarate (simTime now) position
            (Some (getClockTime now + getDuration sig)) timer,
          [EmitTransmissionStarted sig;
           SendSignalStart sig (transmissionId packet)])
    /\ (is_Some timer <-> (datarate <? dataratePar)%dbl = true).
Proof.
  intros Hidle Hclk sig. destruct s.
  unfold StreamThroughTransmitter.startTx, encodePacket, scheduleTxEndTimer,
    cancelClockEvent_txEndTimer, scheduleClockEventAt_txEndTimer.
  mred. unfold_setters. rewrite Hidle. mred. rewrite Hclk. mred.
  run_underrun_timer timer Hsome Htime.
  exists timer. split; [reflexivity | exact Hsome].
Qed.

Lemma isTransmitting_Some s sig : txSignal s = Some sig -> isTransmitting s = true.
Proof. unfold isTransmitting. intros ->. reflexivity. Qed.

Lemma progressTx_run now packet datarate position s sig :
  txSignal s = Some sig ->
  (txStartClockTime s =? unset) = false ->
  let unchanged :=
    isPacketUnchangedSinceLastProgress kernel now s packet (getEncapsulatedPacket sig) in
  let sig' :=
    if unchanged then sig
    else mkSignal packet (calculateDuration (txDatarate s) packet) in
  let timePosition := getClockTime now - txStartClockTime s in
  let txPosition :=
    floor_b (txDatarate s * clocktime_dbl kernel timePosition)%dbl in
  exists timer,
    progressTx now packet datarate position s
    = Ok (tt,
          mkState (Some sig') (txDatarate s) (txStartTime s)
            (txStartClockTime s) (simTime now) txPosition datarate
            (simTime now) position
            (Some (txStartClockTime s + getDuration sig')) timer,
          if unchanged then [DeletePacket packet]
          else [DeleteSignal sig;
                SendSignalProgress sig' (transmissionId packet) txPosition
                  timePosition])
    /\ (is_Some timer <-> (datarate <? txDatarate s)%dbl = true).
Proof.
  intros Hsig Hclk unchanged sig' timePosition txPosition.
  unfold StreamThroughTransmitter.progressTx, currentSignal, encodePacket,
    scheduleTxEndTimer, cancelClockEvent_txEndTimer,
    scheduleClockEventAt_txEndTimer.
  mred. rewrite (isTransmitting_Some _ _ Hsig). mred. rewrite Hsig.
  fold (expectedInputPosition kernel now s).
  fold (isPacketUnchangedSinceLastProgress kernel now s packet (getEncapsulatedPacket sig)).
  fold unchanged. subst sig' txPosition timePosition.
  destruct s. unfold_setters. subst.
  destruct unchanged; mred; unfold_setters; rewrite Hclk; mred;
    run_underrun_timer timer Hsome Htime;
    exists timer; (split; [reflexivity | exact Hsome]).
Qed.

Lemma endTx_run s sig :
  txSignal s = Some sig ->
  let packet := getEncapsulatedPacket sig in
  endTx s
  = Ok (tt,
        mkState None NaN unset unset unset (-1) NaN unset (-1)
          (txEndTimer s) (bufferUnderrunTimer s),
        [HandlePacketProcessed packet; EmitTransmissionEnded sig;
         SendSignalEnd sig (transmissionId packet)]
        ++ producerNotifications packet).
Proof.
  intros Hsig packet. destruct s. unfold_setters. subst.
  unfold StreamThroughTransmitter.endTx, currentSignal, clearInternalState,
    notifyProducer, producerNotifications.
  mred. unfold_setters. mred. destruct hasProducer; reflexivity.
Qed.

Lemma abortTx_run now s sig :
  txSignal s = Some sig ->
  let original := getEncapsulatedPacket sig in
  let timePosition := simTime now - txStartTime s in
  let dataPosition :=
    floor_b (txDatarate s * simtime_dbl kernel timePosition)%dbl in
  let packet :=
    mkPacket (take (Z.to_nat dataPosition) (content original)) true
      (transmissionId original) in
  let signal := mkSignal packet timePosition in
  abortTx now s
  = if (0 <=? dataPosition) && (dataPosition <=? getTotalLength original)
    then
      Ok (tt,
          mkState None NaN unset unset unset (-1) NaN unset (-1)
            (txEndTimer s) (bufferUnderrunTimer s),
          [DeleteSignal sig; HandlePacketProcessed packet;
           EmitTransmissionEnded signal;
           SendSignalEnd signal (transmissionId original)]
          ++ producerNotifications packet)
    else Fail (cRuntimeError "length is invalid").
Proof.
  intros Hsig original timePosition dataPosition packet signal.
  destruct s. unfold_setters. subst.
  unfold StreamThroughTransmitter.abortTx, currentSignal, clearInternalState,
    notifyProducer, StreamThroughTransmitter.producerNotifications,
    encodePacket, eraseAtBack.
  mred. unfold_setters. mred.
  fold original. fold timePosition. fold dataPosition.
  replace (0 <=? getTotalLength original - dataPosition)
    with (dataPosition <=? getTotalLength original)
    by (apply eq_true_iff_eq; rewrite !Z.leb_le; lia).
  replace (getTotalLength original - dataPosition <=? getTotalLength original)
    with (0 <=? dataPosition)
    by (apply eq_true_iff_eq; rewrite !Z.leb_le; lia).
  rewrite andb_comm.
  destruct ((0 <=? dataPosition) && (dataPosition <=? getTotalLength original));
    [|reflexivity].
  mred. unfold setDuration, setBitError. cbn [getEncapsulatedPacket content
    bitError transmissionId].
  replace (getTotalLength original - (getTotalLength original - dataPosition))
    with dataPosition by lia.
  destruct hasProducer; reflexivity.
Qed.

Lemma startTx_Ok_inv now packet datarate position s r :
  startTx now packet datarate position s = Ok r ->
  isTransmitting s = false /\ (getClockTime now =? unset) = false.
Proof.
  destruct s.
  unfold StreamThroughTransmitter.startTx, encodePacket, scheduleTxEndTimer,
    cancelClockEvent_txEndTimer, scheduleClockEventAt_txEndTimer.
  mred. unfold_setters.
  destruct txSignal0; mred; [discriminate|].
  destruct (getClockTime now =? unset); mred; [discriminate|].
  intros _. split; reflexivity.
Qed.

Lemma progressTx_Ok_inv now packet datarate position s r :
  progressTx now packet datarate position s = Ok r ->
  exists sig,
    txSignal s = Some sig /\ (txStartClockTime s =? unset) = false.
Proof.
  destruct s.
  unfold StreamThroughTransmitter.progressTx, currentSignal, encodePacket,
    scheduleTxEndTimer, cancelClockEvent_txEndTimer,
    scheduleClockEventAt_txEndTimer.
  mred. unfold_setters.
  destruct txSignal0 as [sig|]; mred; [|discriminate].
  destruct (txStartClockTime0 =? unset) eqn:E.
  - match goal with |- context [if ?c then _ else _] => destruct c end;
      mred; unfold_setters; rewrite ?E; mred; discriminate.
  - intros _. exists sig. split; reflexivity.
Qed.

Lemma endTx_Ok_inv s r :
  endTx s = Ok r -> exists sig, txSignal s = Some sig.
Proof.
  destruct s. unfold StreamThroughTransmitter.endTx. mred. unfold_setters.
  destruct txSignal0 as [sig|]; mred; [|discriminate].
  intros _. exists sig. reflexivity.
Qed.

Lemma abortTx_Ok_inv now s r :
  abortTx now s = Ok r -> exists sig, txSignal s = Some sig.
Proof.
  destruct s. unfold StreamThroughTransmitter.abortTx. mred. unfold_setters.
  destruct txSignal0 as [sig|]; mred; [|discriminate].
  intros _. exists sig. reflexivity.
Qed.

Lemma bind_Ok_inv {A B} (m : M A) (f : A -> M B) s r s' o :
  (m ≫= f) s = Ok (r, s', o) ->
  exists a s1 o1 o2,
    m s = Ok (a, s1, o1) /\ f a s1 = Ok (r, s', o2) /\ o = o1 ++ o2.
Proof.
  unfold mbind, M_bind, bind.
  destruct (m s) as [[[a s1] o1]|e]; [|discriminate].
  destruct (f a s1) as [[[r' s2] o2]|e] eqn:Ef; [|discriminate].
  intros [= <- <- <-]. exists a, s1, o1, o2. repeat split; first [reflexivity | exact Ef].
Qed.

(** ** The claims about the transmitter *)

(** C2: when the buffer underrun timer message is delivered, in whatever
    state and in particular while a transmission is in progress,
    [handleMessageWhenUp] raises the runtime error "Buffer underrun during
    transmission": the result is the error, with no successor state and no
    output, so nothing is retried or recovered. *)
Theorem underrun_timer_is_fatal (s : State) :
  handleMessageWhenUp kernel hasProducer baseHandleMessageWhenUp
    bufferUnderrunTimerMsg s
  = Fail (cRuntimeError "Buffer underrun during transmission").
Proof. reflexivity. Qed.

(** C6: a violated state precondition fails the assertion at entry:
    [startTx] while a transmission is active, and [progressTx], [endTx]
    and [abortTx] while idle, all result in the assertion failure, with no
    successor state. *)
Theorem state_preconditions_fail_fast (s : State) (now : Clock)
    (packet : Packet) (datarate : bps) (position : b) :
  (isTransmitting s = true ->
   startTx now packet datarate position s
   = Fail (AssertionFailure "!isTransmitting()"))
  /\ (isTransmitting s = false ->
      progressTx now packet datarate position s
      = Fail (AssertionFailure "isTransmitting()")
      /\ endTx s = Fail (AssertionFailure "isTransmitting()")
      /\ abortTx now s = Fail (AssertionFailure "isTransmitting()")).
Proof.
  split; intros H.
  - unfold StreamThroughTransmitter.startTx. mred. rewrite H. reflexivity.
  - repeat split.
    + unfold StreamThroughTransmitter.progressTx. mred. rewrite H. reflexivity.
    + unfold StreamThroughTransmitter.endTx. mred. rewrite H. reflexivity.
    + unfold StreamThroughTransmitter.abortTx. mred. rewrite H. reflexivity.
Qed.


(** C10: [pushPacketProgress] while no transmission is active runs
    [startTx] with the given data rate and position, and does not fail (the
    clock time being other than the "unset" value -1, which the assertion
    of [scheduleTxEndTimer] requires): the transmission is started at the
    given rate and position.  It runs [progressTx] exactly when a
    transmission is active. *)
Theorem pushPacketProgress_dispatch (now : Clock) (packet : Packet)
    (datarate : bps) (position extraProcessableLength : b) (s : State) :
  (isTransmitting s = true ->
   pushPacketProgress kernel dataratePar calculateDuration now packet datarate
     position extraProcessableLength s
   = (progressTx now packet datarate position;; updateDisplayString) s)
  /\ (isTransmitting s = false ->
      pushPacketProgress kernel dataratePar calculateDuration now packet datarate
        position extraProcessableLength s
      = (startTx now packet datarate position;; updateDisplayString) s
      /\ ((getClockTime now =? unset) = false ->
          let sig := mkSignal packet (calculateDuration dataratePar packet) in
          exists s',
            pushPacketProgress kernel dataratePar calculateDuration now packet
              datarate position extraProcessableLength s
            = Ok (tt, s',
                  [EmitTransmissionStarted sig;
                   SendSignalStart sig (transmissionId packet);
                   UpdateDisplayString])
            /\ txSignal s' = Some sig
            /\ txDatarate s' = dataratePar
            /\ txStartTime s' = simTime now
            /\ txStartClockTime s' = getClockTime now
            /\ lastInputDatarate s' = datarate
            /\ lastInputProgressTime s' = simTime now
            /\ lastInputProgressPosition s' = position
            /\ lastTxProgressPosition s' = 0
            /\ txEndTimer s' = Some (getClockTime now + getDuration sig))).
Proof.
  split; intros H.
  - unfold pushPacketProgress, updateDisplayString. mred. rewrite H.
    destruct (progressTx now packet datarate position s) as [[[[] s1] o1]|];
      reflexivity.
  - split.
    + unfold pushPacketProgress, updateDisplayString. mred. rewrite H.
      destruct (startTx now packet datarate position s) as [[[[] s1] o1]|];
        reflexivity.
    + intros Hclk sig.
      destruct (startTx_run now packet datarate position s H Hclk)
        as (timer & Hrun & _).
      unfold pushPacketProgress, updateDisplayString. mred. rewrite H, Hrun.
      eexists. split; [reflexivity|]. repeat split.
Qed.

(** C3, as the code has it: an abort of an active transmission hands on
    the first [delivered] bits of the packet in flight (the rest is erased
    from the back), marked with a bit error, in a signal whose duration is
    the time [elapsed] since the transmission started, and not longer than
    the original; [delivered] is the floor of the product of the committed
    rate and of [elapsed] as a [double], the product rounded as a [double]
    is.  The abort returns exactly when [delivered] lies between zero and
    the length of the packet in flight. *)
Theorem abortTx_truncates (now : Clock) (s : State) (sig : Signal) :
  txSignal s = Some sig ->
  let original := getEncapsulatedPacket sig in
  let elapsed := simTime now - txStartTime s in
  let delivered := floor_b (txDatarate s * simtime_dbl kernel elapsed)%dbl in
  (isOk (abortTx now s) = true
   <-> 0 <= delivered <= getTotalLength original)
  /\ forall s' o,
       abortTx now s = Ok (tt, s', o) ->
       exists packet signal,
         o = [DeleteSignal sig; HandlePacketProcessed packet;
              EmitTransmissionEnded signal;
              SendSignalEnd signal (transmissionId original)]
             ++ producerNotifications packet
         /\ getEncapsulatedPacket signal = packet
         /\ content packet = take (Z.to_nat delivered) (content original)
         /\ getTotalLength packet = delivered
         /\ bitError packet = true
         /\ getDuration signal = elapsed
         /\ getTotalLength packet <= getTotalLength original.
Proof.
  intros Hsig original elapsed delivered.
  pose proof (abortTx_run now s sig Hsig) as Hrun. cbv zeta in Hrun.
  fold original elapsed delivered in Hrun.
  destruct ((0 <=? delivered) && (delivered <=? getTotalLength original))
    eqn:Hrange.
  - apply andb_true_iff in Hrange as [H0 Hlen].
    apply Z.leb_le in H0, Hlen.
    split; [rewrite Hrun; split; [lia | reflexivity]|].
    intros s' o Hok. rewrite Hrun in Hok. injection Hok as <- <-.
    eexists _, _. split; [reflexivity|].
    assert (getTotalLength
              (mkPacket (take (Z.to_nat delivered) (content original)) true
                 (transmissionId original)) = delivered) as Hlength.
    { unfold getTotalLength in *. cbn [content].
      rewrite length_take. lia. }
    repeat split; try reflexivity; try exact Hlength.
    rewrite Hlength. exact Hlen.
  - split.
    + rewrite Hrun. split; [discriminate|].
      intros [H0 Hlen]. apply andb_false_iff in Hrange as [H|H];
        apply Z.leb_gt in H; lia.
    + intros s' o Hok. rewrite Hrun in Hok. discriminate.
Qed.

(** [startTx] establishes, and [progressTx] maintains, what [inFlight]
    says of a transmission. *)
Lemma startTx_inFlight now packet datarate position s s' o :
  startTx now packet datarate position s = Ok (tt, s', o) ->
  inFlight kernel dataratePar s'
    (mkSignal packet (calculateDuration dataratePar packet)).
Proof.
  intros H. destruct (startTx_Ok_inv _ _ _ _ _ _ H) as [Hidle Hclk].
  destruct (startTx_run now packet datarate position s Hidle Hclk)
    as (timer & Hrun & _).
  rewrite Hrun in H. injection H as <- <-.
  repeat split. exact Hclk.
Qed.

Lemma progressTx_inFlight now packet datarate position s sig s' o :
  inFlight kernel dataratePar s sig ->
  progressTx now packet datarate position s = Ok (tt, s', o) ->
  exists sig', inFlight kernel dataratePar s' sig'.
Proof.
  intros (Hsig & Hrate & Hclk & Htimer) H.
  destruct (progressTx_run now packet datarate position s sig Hsig Hclk)
    as (timer & Hrun & _).
  rewrite Hrun in H. injection H as <- _.
  eexists. repeat split; cbn [txDatarate txStartClockTime]; assumption.
Qed.

(** C4, as the code has it: a progress call is treated as unchanged when
    the input position that the code extrapolates (in [double] arithmetic,
    floored) equals the total length of the pushed packet and that length
    equals the total length of the packet in flight, or when the pushed
    packet has the same data as the packet in flight.  Then the only
    output is the deletion of the pushed packet (no progress
    notification), and the signal in flight, the committed rate, the start
    times and the arrival time of the end timer are what they were. *)
Theorem progressTx_unchanged_packet (now : Clock) (packet : Packet)
    (datarate : bps) (position : b) (s : State) (sig : Signal) :
  inFlight kernel dataratePar s sig ->
  (expectedInputPosition kernel now s = getTotalLength packet
   /\ getTotalLength packet = getTotalLength (getEncapsulatedPacket sig))
  \/ content packet = content (getEncapsulatedPacket sig) ->
  exists s',
    progressTx now packet datarate position s
    = Ok (tt, s', [DeletePacket packet])
    /\ txSignal s' = txSignal s
    /\ txDatarate s' = txDatarate s
    /\ txStartTime s' = txStartTime s
    /\ txStartClockTime s' = txStartClockTime s
    /\ txEndTimer s' = txEndTimer s.
Proof.
  intros (Hsig & Hrate & Hclk & Htimer) Hsame.
  destruct (progressTx_run now packet datarate position s sig Hsig Hclk)
    as (timer & Hrun & _).
  assert (isPacketUnchangedSinceLastProgress kernel now s packet
            (getEncapsulatedPacket sig) = true) as Hunchanged.
  { unfold isPacketUnchangedSinceLastProgress, containsSameData.
    destruct Hsame as [[Hpos Hlen]|Hdata].
    - rewrite Hpos, Hlen, Z.eqb_refl. reflexivity.
    - rewrite (bool_decide_eq_true_2 _ Hdata). apply orb_true_r. }
  rewrite Hunchanged in Hrun. eexists. split; [exact Hrun|].
  cbn [txSignal txDatarate txStartTime txStartClockTime txEndTimer].
  rewrite Hsig, Htimer. repeat split.
Qed.

(** In exact arithmetic the expression of [scheduleBufferUnderrunTimer]
    is the one time at which the two position functions are equal. *)
Lemma intersection_time (inPos : b) (ir inTime : Q) (txPos : b)
    (tr txTime : Q) :
  (ir < tr)%Q ->
  let t :=
    underrunTimeExpression exactArithmetic inPos ir inTime txPos tr txTime in
  (inputProgressPositionAt (inject_Z inPos) ir inTime t
   == txProgressPositionAt (inject_Z txPos) tr txTime t)%Q
  /\ forall t',
       (inputProgressPositionAt (inject_Z inPos) ir inTime t'
        == txProgressPositionAt (inject_Z txPos) tr txTime t')%Q ->
       (t' == t)%Q.
Proof.
  intros Hlt. cbv zeta.
  unfold underrunTimeExpression, inputProgressPositionAt,
    txProgressPositionAt. cbn [exactArithmetic of_b_ add_ sub_ mul_ div_].
  rewrite inject_Z_opp.
  generalize (inject_Z inPos) (inject_Z txPos). clear inPos txPos.
  intros inPos txPos.
  assert (~ (ir - tr == 0)%Q) as Hne.
  { intros H.
    assert (ir == tr)%Q as Heq by (rewrite <- (Qplus_0_l tr), <- H; ring).
    rewrite Heq in Hlt. exact (Qlt_irrefl _ Hlt). }
  split.
  - field. exact Hne.
  - intros t' H.
    assert (t' * (ir - tr)
            == - inPos + ir * inTime + txPos - tr * txTime)%Q as Hmul.
    { transitivity
        ((inPos + ir * (t' - inTime)) - inPos + ir * inTime - tr * t')%Q;
        [ring|].
      rewrite H. ring. }
    rewrite <- Hmul. field. exact Hne.
Qed.

Lemma start_underrunTimerIdle a s s' o :
  keepsPace dataratePar a ->
  transition kernel dataratePar calculateDuration hasProducer (Start a) s
  = Ok (tt, s', o) ->
  underrunTimerIdle dataratePar s'.
Proof.
  intros Hpace H. cbn [transition] in H.
  destruct (startTx_Ok_inv _ _ _ _ _ _ H) as [Hidle Hclk].
  destruct (startTx_run (callTime a) (callPacket a) (callDatarate a)
              (callPosition a) s Hidle Hclk) as (timer & Hrun & Hsome).
  rewrite Hrun in H. injection H as <- _.
  split; [|reflexivity]. cbn [bufferUnderrunTimer].
  destruct timer as [t|]; [|reflexivity].
  unfold keepsPace in Hpace. rewrite Hpace in Hsome.
  destruct Hsome as [Hsome _]. discriminate Hsome. eexists; reflexivity.
Qed.

Lemma transition_underrunTimerIdle c s s' o :
  transitionKeepsPace dataratePar c ->
  underrunTimerIdle dataratePar s ->
  transition kernel dataratePar calculateDuration hasProducer c s = Ok (tt, s', o) ->
  underrunTimerIdle dataratePar s'.
Proof.
  intros Hpace [Htimer Hrate] H. destruct c as [a|a|].
  - exact (start_underrunTimerIdle a s s' o Hpace H).
  - cbn [transition] in H.
    destruct (progressTx_Ok_inv _ _ _ _ _ _ H) as (sig & Hsig & Hclk).
    destruct (progressTx_run (callTime a) (callPacket a) (callDatarate a)
                (callPosition a) s sig Hsig Hclk) as (timer & Hrun & Hsome).
    rewrite Hrun in H. injection H as <- _.
    specialize (Hrate (isTransmitting_Some _ _ Hsig)).
    split; [|intros _; exact Hrate]. cbn [bufferUnderrunTimer].
    destruct timer as [t|]; [|reflexivity].
    cbn [transitionKeepsPace] in Hpace. unfold keepsPace in Hpace.
    rewrite Hrate, Hpace in Hsome.
    destruct Hsome as [Hsome _]. discriminate Hsome. eexists; reflexivity.
  - cbn [transition] in H.
    destruct (endTx_Ok_inv _ _ H) as [sig Hsig].
    rewrite (endTx_run s sig Hsig) in H. injection H as <- _.
    split; [exact Htimer | discriminate].
Qed.

Lemma transitions_underrunTimerIdle cs :
  Forall (transitionKeepsPace dataratePar) cs ->
  forall s s' o,
    underrunTimerIdle dataratePar s ->
    transitions kernel dataratePar calculateDuration hasProducer cs s
    = Ok (tt, s', o) ->
    underrunTimerIdle dataratePar s'.
Proof.
  induction 1 as [|c cs Hc Hcs IH]; intros s s' o Hs H.
  - injection H as <- _. exact Hs.
  - cbn [transitions] in H.
    apply bind_Ok_inv in H as ([] & s1 & o1 & o2 & H1 & H2 & _).
    eapply IH; [|exact H2].
    exact (transition_underrunTimerIdle c s s1 o1 Hc Hs H1).
Qed.

(** C1, as the code has it: [scheduleBufferUnderrunTimer] changes nothing
    but the underrun timer; the timer is left scheduled exactly when the
    last input data rate is less than the committed transmission rate, and
    otherwise it is left cancelled.  Its arrival time is the simulation
    time that the kernel makes of the [double] value of the expression
    (-lastInputProgressPosition + lastInputDatarate * lastInputProgressTime
    + lastTxProgressPosition - txDatarate * lastTxProgressTime)
    / (lastInputDatarate - txDatarate), each operation rounded as a
    [double] is; evaluated exactly, that expression is the one time at
    which the two linear position functions are equal.  From any state,
    after every non-empty prefix of a sequence start, progress*, end of
    transitions whose input rates all keep pace with the committed rate,
    the underrun timer is not scheduled, so its message is never
    delivered; and an input rate that is at least the committed rate keeps
    pace. *)
Theorem underrun_timer_schedule :
  (forall s,
     scheduleBufferUnderrunTimer s
     = Ok (tt,
           set_bufferUnderrunTimer
             (if (lastInputDatarate s <? txDatarate s)%dbl
              then
                Some (simtime_of_double kernel
                        (underrunTimeExpression doubleArithmetic
                           (lastInputProgressPosition s)
                           (lastInputDatarate s)
                           (simtime_dbl kernel (lastInputProgressTime s))
                           (lastTxProgressPosition s)
                           (txDatarate s)
                           (simtime_dbl kernel (lastTxProgressTime s))))
              else None) s,
           []))
  /\ (forall (inPos : b) (ir inTime : Q) (txPos : b) (tr txTime : Q),
        (ir < tr)%Q ->
        let t :=
          underrunTimeExpression exactArithmetic inPos ir inTime txPos tr
            txTime in
        (inputProgressPositionAt (inject_Z inPos) ir inTime t
         == txProgressPositionAt (inject_Z txPos) tr txTime t)%Q
        /\ forall t',
             (inputProgressPositionAt (inject_Z inPos) ir inTime t'
              == txProgressPositionAt (inject_Z txPos) tr txTime t')%Q ->
             (t' == t)%Q)
  /\ (forall s a ps cs1 cs2 s' o,
        keepsPace dataratePar a ->
        Forall (keepsPace dataratePar) ps ->
        cs1 <> [] ->
        cs1 ++ cs2 = Start a :: map Progress ps ++ [End_] ->
        transitions kernel dataratePar calculateDuration hasProducer cs1 s
        = Ok (tt, s', o) ->
        bufferUnderrunTimer s' = None)
  /\ (forall a,
        (callDatarate a >=? dataratePar)%dbl = true ->
        keepsPace dataratePar a).
Proof.
  split; [|split; [|split]]; [| | |intros a; apply geb_true_ltb_false].
  - intros s.
    destruct (scheduleBufferUnderrunTimer_run s)
      as (timer & Hrun & Hsome & Htime).
    rewrite Hrun. f_equal. f_equal. f_equal.
    destruct (lastInputDatarate s <? txDatarate s)%dbl.
    + destruct timer as [t|].
      * rewrite (Htime t eq_refl). reflexivity.
      * destruct (proj2 Hsome eq_refl) as [t Ht]. discriminate Ht.
    + destruct timer as [t|]; [|reflexivity].
      destruct Hsome as [Hsome _]. discriminate Hsome. eexists; reflexivity.
  - exact intersection_time.
  - intros s a ps cs1 cs2 s' o Ha Hps Hne Hcs H.
    destruct cs1 as [|c cs1']; [contradiction|].
    injection Hcs as -> Hrest.
    assert (Forall (transitionKeepsPace dataratePar) cs1') as Hpaced.
    { assert (Forall (transitionKeepsPace dataratePar)
                (map Progress ps ++ [End_])) as Hall.
      { apply Forall_app. split.
        - apply Forall_forall. intros c Hin.
          apply list_elem_of_In, in_map_iff in Hin as (p & <- & Hp).
          rewrite Forall_forall in Hps. apply Hps, list_elem_of_In, Hp.
        - repeat constructor. }
      rewrite <- Hrest in Hall. apply Forall_app in Hall. tauto. }
    cbn [transitions] in H.
    apply bind_Ok_inv in H as ([] & s1 & o1 & o2 & H1 & H2 & _).
    apply proj1 with (B := isTransmitting s' = true -> txDatarate s' = dataratePar).
    apply (transitions_underrunTimerIdle cs1' Hpaced s1 s' o2);
      [|exact H2].
    exact (start_underrunTimerIdle a s s1 o1 Ha H1).
Qed.

End Transmitter.


(** ** Concrete checks *)

(** The sample states are the ones [startTx] produces from the idle
    state. *)
Example sampleInFlight_started :
  startTx sampleKernel (of_b 1) sampleDuration (sampleClock 0) shortPacket
    (of_b 8) 0 (idleState sampleKernel)
  = Ok (tt, sampleInFlight,
        [EmitTransmissionStarted (mkSignal shortPacket (2 * sampleScale));
         SendSignalStart (mkSignal shortPacket (2 * sampleScale)) 7]).
Proof. vm_compute. reflexivity. Qed.

Example sampleInFlight100_started :
  startTx sampleKernel (of_b 100) sampleDuration (sampleClock 0) packet32
    (of_b 100) 0 (idleState sampleKernel)
  = Ok (tt, sampleInFlight100,
        [EmitTransmissionStarted (mkSignal packet32 (32 * sampleScale));
         SendSignalStart (mkSignal packet32 (32 * sampleScale)) 9]).
Proof. vm_compute. reflexivity. Qed.

(** Conversions of a [double] to a bit count: the value is rounded down,
    also below zero, and a value outside the 64-bit range gives the least
    64-bit integer. *)
Example floor_b_values :
  floor_b (of_int64 5 / of_int64 2)%dbl = 2
  /\ floor_b (- (of_int64 5 / of_int64 2))%dbl = -3
  /\ floor_b (of_int64 (10 ^ 19)) = - 2 ^ 63
  /\ floor_b NaN = - 2 ^ 63.
Proof. repeat split. Qed.

(** At 100 bit/s, 290 000 000 000 ticks of a picosecond after the start,
    the product of the rate and the elapsed time in seconds is a [double]
    just below 29, and the input position that [progressTx] extrapolates
    is 28. *)
Example expectedInputPosition_rounded :
  expectedInputPosition sampleKernel (sampleClock 290) sampleInFlight100 = 28
  /\ ((of_b 100 * sampleDbl (290 * 10 ^ 9) <? of_b 29)%dbl = true).
Proof. split; vm_compute; reflexivity. Qed.

(** The underrun timer message delivered during the sample transmission. *)
Example underrun_while_transmitting :
  isTransmitting sampleInFlight = true
  /\ handleMessageWhenUp sampleKernel true sampleBase bufferUnderrunTimerMsg
       sampleInFlight
     = Fail (cRuntimeError "Buffer underrun during transmission").
Proof. split; reflexivity. Qed.

Lemma underrun_timer_schedule_witness :
  exists s' o,
    transitions sampleKernel (of_b 1) sampleDuration true
      [Start (mkPushArgs (sampleClock 0) shortPacket (of_b 8) 0);
       Progress (mkPushArgs (sampleClock 250) shortPacket (of_b 8) 2);
       Progress (mkPushArgs (sampleClock 500) shortPacket NaN 2);
       End_] (idleState sampleKernel)
    = Ok (tt, s', o)
    /\ bufferUnderrunTimer s' = None.
Proof.
  eexists _, _. split; [vm_compute; reflexivity|].
  eapply (proj1 (proj2 (proj2
            (underrun_timer_schedule sampleKernel (of_b 1) sampleDuration
               true)))
            (idleState sampleKernel)
            (mkPushArgs (sampleClock 0) shortPacket (of_b 8) 0)
            [mkPushArgs (sampleClock 250) shortPacket (of_b 8) 2;
             mkPushArgs (sampleClock 500) shortPacket NaN 2]
            [Start (mkPushArgs (sampleClock 0) shortPacket (of_b 8) 0);
             Progress (mkPushArgs (sampleClock 250) shortPacket (of_b 8) 2);
             Progress (mkPushArgs (sampleClock 500) shortPacket NaN 2);
             End_]
            []).
  - reflexivity.
  - repeat constructor.
  - discriminate.
  - reflexivity.
  - vm_compute; reflexivity.
Defined.

(** No multiple of a decimal fraction of a second is 4/7 of a second. *)
Lemma four_sevenths_not_decimal (n : nat) (ticks : Z) :
  ~ (inject_Z ticks / inject_Z (10 ^ Z.of_nat n) == 4 # 7)%Q.
Proof.
  assert (forall k : nat, (4 * 10 ^ Z.of_nat k) mod 7 <> 0) as Hmod.
  { induction k as [|k IH]; [vm_compute; discriminate|].
    rewrite Nat2Z.inj_succ, Z.pow_succ_r by lia.
    replace (4 * (10 * 10 ^ Z.of_nat k)) with (4 * 10 ^ Z.of_nat k * 10)
      by ring.
    rewrite Z.mul_mod by lia.
    pose proof (Z.mod_pos_bound (4 * 10 ^ Z.of_nat k) 7 ltac:(lia)) as Hr.
    set (r := (4 * 10 ^ Z.of_nat k) mod 7) in *.
    assert (r = 1 \/ r = 2 \/ r = 3 \/ r = 4 \/ r = 5 \/ r = 6)
      as [->|[->|[->|[->|[->| ->]]]]] by lia;
      vm_compute; discriminate. }
  intros H.
  assert (0 < 10 ^ Z.of_nat n) as Hpos by (apply Z.pow_pos_nonneg; lia).
  assert (~ (inject_Z (10 ^ Z.of_nat n) == 0)%Q) as Hne.
  { intros H0. change 0%Q with (inject_Z 0) in H0.
    apply (proj1 (inject_Z_injective _ _)) in H0. lia. }
  assert (inject_Z (ticks * 7) == inject_Z (4 * 10 ^ Z.of_nat n))%Q as Heq.
  { rewrite !inject_Z_mult.
    transitivity
      (inject_Z ticks / inject_Z (10 ^ Z.of_nat n)
       * (inject_Z 7 * inject_Z (10 ^ Z.of_nat n)))%Q;
      [field; exact Hne|].
    rewrite H. change (inject_Z 7) with 7%Q. change (inject_Z 4) with 4%Q.
    field. }
  apply (proj1 (inject_Z_injective _ _)) in Heq.
  apply (Hmod n). rewrite <- Heq. apply Z.mod_mul. lia.
Qed.

(** C1 as stated fails: a transmission committed to 8 bit/s is started at
    time 0 at input position 4 with an input rate of 1 bit/s.  The two
    position functions, 4 + 1 * t and 8 * t, are equal at t = 4/7 and at
    no other time; the underrun timer is scheduled 571428571429 ticks of a
    picosecond after time 0, where the two positions differ; and at no
    resolution of the kernel, a power of ten of ticks in a second, is any
    number of ticks 4/7 of a second. *)
Lemma underrun_time_inexact_counterexample :
  (exists s' o,
     startTx sampleKernel (of_b 8) sampleDuration (sampleClock 0) longPacket
       (of_b 1) 4 (idleState sampleKernel)
     = Ok (tt, s', o)
     /\ lastInputDatarate s' = of_b 1 /\ txDatarate s' = of_b 8
     /\ lastInputProgressPosition s' = 4 /\ lastInputProgressTime s' = 0
     /\ lastTxProgressPosition s' = 0 /\ lastTxProgressTime s' = 0
     /\ bufferUnderrunTimer s' = Some 571428571429)
  /\ (underrunTimeExpression exactArithmetic 4%Z 1 0 0%Z 8 0 == 4 # 7)%Q
  /\ ~ (inputProgressPositionAt 4 1 0 (571428571429 # 10 ^ 12)
        == txProgressPositionAt 0 8 0 (571428571429 # 10 ^ 12))%Q
  /\ forall (n : nat) (ticks : Z),
       ~ (inject_Z ticks / inject_Z (10 ^ Z.of_nat n) == 4 # 7)%Q.
Proof.
  split; [|split; [|split]].
  - eexists _, _. split; [vm_compute; reflexivity|]. repeat split.
  - reflexivity.
  - intros H. vm_compute in H. discriminate H.
  - exact four_sevenths_not_decimal.
Qed.

Lemma state_preconditions_fail_fast_witness :
  startTx sampleKernel (of_b 1) sampleDuration (sampleClock 1000) longPacket
    (of_b 8) 0 sampleInFlight
  = Fail (AssertionFailure "!isTransmitting()")
  /\ progressTx sampleKernel sampleDuration (sampleClock 1000) longPacket
       (of_b 8) 0 (idleState sampleKernel)
     = Fail (AssertionFailure "isTransmitting()").
Proof.
  split.
  - apply (proj1 (state_preconditions_fail_fast sampleKernel (of_b 1)
                    sampleDuration true sampleInFlight (sampleClock 1000)
                    longPacket (of_b 8) 0)).
    reflexivity.
  - apply (proj2 (state_preconditions_fail_fast sampleKernel (of_b 1)
                    sampleDuration true (idleState sampleKernel)
                    (sampleClock 1000) longPacket (of_b 8) 0)).
    reflexivity.
Defined.


Lemma pushPacketProgress_dispatch_witness :
  exists s',
    pushPacketProgress sampleKernel (of_b 1) sampleDuration (sampleClock 0)
      shortPacket (of_b 8) 0 0 (idleState sampleKernel)
    = Ok (tt, s',
          [EmitTransmissionStarted (mkSignal shortPacket (2 * sampleScale));
           SendSignalStart (mkSignal shortPacket (2 * sampleScale)) 7;
           UpdateDisplayString])
    /\ txSignal s' = Some (mkSignal shortPacket (2 * sampleScale)).
Proof.
  destruct (proj2 (proj2 (pushPacketProgress_dispatch sampleKernel (of_b 1)
                            sampleDuration (sampleClock 0) shortPacket
                            (of_b 8) 0 0 (idleState sampleKernel))
                     eq_refl) eq_refl)
    as (s' & Hrun & Hsig & _).
  exists s'. split; [exact Hrun | exact Hsig].
Defined.

Lemma abortTx_truncates_witness :
  isOk (abortTx sampleKernel sampleDuration true (sampleClock 1000)
          sampleInFlight) = true
  /\ forall s' o,
       abortTx sampleKernel sampleDuration true (sampleClock 1000)
         sampleInFlight
       = Ok (tt, s', o) ->
       exists packet signal,
         In (EmitTransmissionEnded signal) o
         /\ getEncapsulatedPacket signal = packet
         /\ content packet = [true]
         /\ bitError packet = true.
Proof.
  pose proof (abortTx_truncates sampleKernel sampleDuration true
                (sampleClock 1000) sampleInFlight
                (mkSignal shortPacket (2 * sampleScale)) eq_refl)
    as [Hok Hout].
  split.
  - apply Hok. vm_compute. split; discriminate.
  - intros s' o H.
    destruct (Hout s' o H) as (packet & signal & -> & Hp & Hc & _ & He & _).
    exists packet, signal. split; [right; right; left; reflexivity|].
    split; [exact Hp|]. split; [exact Hc | exact He].
Defined.

(** C3 as stated fails: a packet of 32 bits has been in transmission at
    100 bit/s for 290 000 000 000 ticks of a picosecond, that is for
    29/100 of a second, when it is aborted.  The floor of the rate times
    the elapsed time is 29, and the abort hands on 28 bits, whether the
    kernel's [dbl()] multiplies by the inverse of the scale or divides by
    the scale. *)
Lemma abortTx_rounded_product_counterexample :
  let elapsed :=
    simTime (sampleClock 290) - txStartTime sampleInFlight100 in
  let truncated := mkPacket (replicate 28 true) true 9 in
  let signal := mkSignal truncated elapsed in
  (inject_Z elapsed / inject_Z sampleScale == 29 # 100)%Q
  /\ Qfloor (100 * (29 # 100)) = 29
  /\ (exists s',
        abortTx sampleKernel sampleDuration true (sampleClock 290)
          sampleInFlight100
        = Ok (tt, s',
              [DeleteSignal (mkSignal packet32 (32 * sampleScale));
               HandlePacketProcessed truncated;
               EmitTransmissionEnded signal;
               SendSignalEnd signal 9;
               ProducerPushPacketProcessed truncated true;
               ProducerCanPushPacketChanged]))
  /\ getTotalLength truncated = 28
  /\ abortTx sampleKernelByDivision sampleDuration true (sampleClock 290)
       sampleInFlight100
     = abortTx sampleKernel sampleDuration true (sampleClock 290)
         sampleInFlight100.
Proof.
  cbv zeta. split; [reflexivity|]. split; [reflexivity|].
  split; [eexists; vm_compute; reflexivity|]. split; [reflexivity|].
  vm_compute. reflexivity.
Qed.

Lemma progressTx_unchanged_packet_witness :
  exists s',
    progressTx sampleKernel sampleDuration (sampleClock 250)
      (mkPacket [false; true] false 7) (of_b 8) 2 sampleInFlight
    = Ok (tt, s', [DeletePacket (mkPacket [false; true] false 7)])
    /\ txSignal s' = txSignal sampleInFlight
    /\ txDatarate s' = txDatarate sampleInFlight
    /\ txStartTime s' = txStartTime sampleInFlight
    /\ txStartClockTime s' = txStartClockTime sampleInFlight
    /\ txEndTimer s' = txEndTimer sampleInFlight.
Proof.
  apply (progressTx_unchanged_packet sampleKernel (of_b 1) sampleDuration
           (sampleClock 250) (mkPacket [false; true] false 7) (of_b 8) 2
           sampleInFlight (mkSignal shortPacket (2 * sampleScale))).
  - repeat split.
  - left. split; vm_compute; reflexivity.
Defined.

(** C4 as stated fails: the transmitter is sending [shortPacket] (2 bits)
    with an input rate of 8 bit/s since time 0; half a second later the
    extrapolated input position is 4, which is the boundary of the pushed
    [longPacket], and yet the call re-encodes the signal, sends a progress
    notification, keeps the pushed packet and moves the end timer. *)
Lemma progressTx_boundary_counterexample :
  inFlight sampleKernel (of_b 1) sampleInFlight
    (mkSignal shortPacket (2 * sampleScale))
  /\ expectedInputPosition sampleKernel (sampleClock 500) sampleInFlight
     = getTotalLength longPacket
  /\ exists s',
       progressTx sampleKernel sampleDuration (sampleClock 500) longPacket
         (of_b 8) 4 sampleInFlight
       = Ok (tt, s',
             [DeleteSignal (mkSignal shortPacket (2 * sampleScale));
              SendSignalProgress (mkSignal longPacket (4 * sampleScale)) 7 0
                (500 * 10 ^ 9)])
       /\ txSignal s' = Some (mkSignal longPacket (4 * sampleScale))
       /\ txEndTimer sampleInFlight = Some (0 + 2 * sampleScale)
       /\ txEndTimer s' = Some (0 + 4 * sampleScale).
Proof.
  split; [repeat split|]. split; [vm_compute; reflexivity|].
  eexists. split; [vm_compute; reflexivity|].
  split; [reflexivity|]. split; vm_compute; reflexivity.
Qed.

End TransmitterProperties.

(** * Properties of the path tracker *)

Module PathTrackerProperties.

Import PathVisualizerBase.

Lemma noConsecutiveDuplicates_nil : noConsecutiveDuplicates [].
Proof. intros i x y H. discriminate. Qed.

Lemma noConsecutiveDuplicates_snoc (path : list Z) (node : Z) :
  noConsecutiveDuplicates path ->
  last path <> Some node ->
  noConsecutiveDuplicates (path ++ [node]).
Proof.
  intros Hpath Hlast i x y Hx Hy.
  destruct (decide (S i < length path)%nat) as [Hlt|Hge].
  - rewrite lookup_app_l in Hx by lia. rewrite lookup_app_l in Hy by lia.
    exact (Hpath i x y Hx Hy).
  - assert (S i = length path) as Hi.
    { apply lookup_lt_Some in Hy. rewrite length_app in Hy. simpl in Hy. lia. }
    rewrite lookup_app_l in Hx by lia.
    rewrite lookup_app_r in Hy by lia.
    rewrite Hi, Nat.sub_diag in Hy. injection Hy as <-.
    intros ->. apply Hlast. rewrite last_lookup.
    rewrite <- Hi. simpl. exact Hx.
Qed.

Lemma addToIncompletePath_wellFormed label chunkId node t :
  pathsWellFormed t ->
  pathsWellFormed (addToIncompletePath label chunkId node t).
Proof.
  unfold pathsWellFormed. intros Ht.
  unfold addToIncompletePath. cbn [set_incompletePaths incompletePaths].
  apply map_Forall_insert_2; [|exact Ht].
  assert (noConsecutiveDuplicates
            (default [] (incompletePaths t !! (label, chunkId)))) as Hpath.
  { destruct (incompletePaths t !! (label, chunkId)) as [path|] eqn:E.
    - exact (Ht _ _ E).
    - exact noConsecutiveDuplicates_nil. }
  case_bool_decide as Hcond; [|exact Hpath].
  apply noConsecutiveDuplicates_snoc; [exact Hpath|].
  destruct Hcond as [Hlen|Hlast]; [|exact Hlast].
  apply length_zero_iff_nil in Hlen. rewrite Hlen. discriminate.
Qed.

Lemma removeIncompletePath_wellFormed label chunkId t :
  pathsWellFormed t -> pathsWellFormed (removeIncompletePath label chunkId t).
Proof. unfold pathsWellFormed. intros Ht. apply map_Forall_delete. exact Ht. Qed.

Lemma processPathStart_wellFormed node label packet t :
  pathsWellFormed t -> pathsWellFormed (processPathStart node label packet t).
Proof.
  unfold processPathStart. revert t.
  induction packet as [|chunk packet IH]; intros t Ht; [exact Ht|].
  cbn [foldl]. apply IH. apply addToIncompletePath_wellFormed.
  destruct (getIncompletePath t label (chunkId chunk));
    [apply removeIncompletePath_wellFormed|]; exact Ht.
Qed.

Lemma processPathElement_wellFormed node label packet t :
  pathsWellFormed t -> pathsWellFormed (processPathElement node label packet t).
Proof.
  unfold processPathElement. revert t.
  induction packet as [|chunk packet IH]; intros t Ht; [exact Ht|].
  cbn [foldl]. apply IH.
  destruct (getIncompletePath t label (chunkId chunk));
    [apply addToIncompletePath_wellFormed|]; exact Ht.
Qed.

Lemma processPathEndChunk_wellFormed now node label st chunk :
  pathsWellFormed (fst st) ->
  pathsWellFormed (fst (processPathEndChunk now node label st chunk)).
Proof.
  destruct st as [t updated]. cbn [fst]. intros Ht.
  unfold processPathEndChunk.
  destruct (getIncompletePath t label (chunkId chunk)); [|exact Ht].
  pose proof (addToIncompletePath_wellFormed label (chunkId chunk) node t Ht)
    as Ht1.
  set (t1 := addToIncompletePath label (chunkId chunk) node t) in *.
  case_bool_decide.
  - destruct (getPathVisualization t1 _); cbn [fst];
      apply (removeIncompletePath_wellFormed label (chunkId chunk) t1 Ht1).
  - cbn [fst].
    apply (removeIncompletePath_wellFormed label (chunkId chunk) t1 Ht1).
Qed.

Lemma processPathEnd_wellFormed now node label packet t :
  pathsWellFormed t -> pathsWellFormed (processPathEnd now node label packet t).
Proof.
  intros Ht. unfold processPathEnd.
  assert (forall st,
            pathsWellFormed (fst st) ->
            pathsWellFormed
              (fst (foldl (processPathEndChunk now node label) st packet)))
    as Hloop.
  { induction packet as [|chunk packet IH]; intros st Hst; [exact Hst|].
    cbn [foldl]. apply IH. apply processPathEndChunk_wellFormed. exact Hst. }
  specialize (Hloop (t, ∅) Ht).
  destruct (foldl (processPathEndChunk now node label) (t, ∅) packet)
    as [t' updated].
  exact Hloop.
Qed.

Lemma handleEvents_wellFormed es t :
  pathsWellFormed t -> pathsWellFormed (handleEvents es t).
Proof.
  unfold handleEvents. revert t.
  induction es as [|e es IH]; intros t Ht; [exact Ht|].
  cbn [foldl]. apply IH. destruct e; cbn [handleEvent].
  - apply processPathStart_wellFormed. exact Ht.
  - apply processPathElement_wellFormed. exact Ht.
  - apply processPathEnd_wellFormed. exact Ht.
  - apply map_Forall_empty.
Qed.

Lemma idleTime_known kernel fadeOutMode now pv :
  fadeOutMode = "simulationTime"%string \/ fadeOutMode = "animationTime"%string
  \/ fadeOutMode = "realTime"%string ->
  exists delta, idleTime kernel fadeOutMode now pv = Ok delta.
Proof.
  intros [ -> | [ -> | -> ] ]; eexists; reflexivity.
Qed.

Lemma removePathVisualizations_ext removed removed' i l :
  (forall k, (i <= k)%nat -> k ∈ removed <-> k ∈ removed') ->
  removePathVisualizations removed i l = removePathVisualizations removed' i l.
Proof.
  revert i. induction l as [|pv l IH]; intros i H; [reflexivity|].
  cbn [removePathVisualizations].
  rewrite (IH (S i)) by (intros k Hk; apply H; lia).
  rewrite (bool_decide_ext _ _ (H i (Nat.le_refl i))). reflexivity.
Qed.

Section FadeOut.

Variable kernel : Kernel.
Variable fadeOutMode : string.
Variable fadeOutTime : double.
Variable now : AnimationPosition.

Hypothesis known_mode :
  fadeOutMode = "simulationTime"%string \/ fadeOutMode = "animationTime"%string
  \/ fadeOutMode = "realTime"%string.

(** What the first loop of [refreshDisplay] collects for the entries from
    position [i] on. *)
Lemma refreshLoop_spec (l : list PathVisualization) :
  forall i,
    exists eff,
      refreshLoop kernel fadeOutMode fadeOutTime now i l = Ok eff
      /\ (forall k, k ∈ removedPathVisualizations eff -> (i <= k)%nat)
      /\ (forall k a, (k, a) ∈ setAlphaCalls eff -> (i <= k)%nat)
      /\ removePathVisualizations (removedPathVisualizations eff) i l
         = List.filter (isRetained kernel fadeOutMode fadeOutTime now) l
      /\ forall j pv,
           l !! j = Some pv ->
           exists delta,
             idleTime kernel fadeOutMode now pv = Ok delta
             /\ ((fadeOutTime <? delta)%dbl = true ->
                 ((i + j)%nat ∈ removedPathVisualizations eff)
                 /\ forall a, ((i + j)%nat, a) ∉ setAlphaCalls eff)
             /\ ((fadeOutTime <? delta)%dbl = false ->
                 ((i + j)%nat ∉ removedPathVisualizations eff)
                 /\ (((i + j)%nat, (of_int64 1 - delta / fadeOutTime)%dbl)
                     ∈ setAlphaCalls eff)
                 /\ forall a,
                      ((i + j)%nat, a) ∈ setAlphaCalls eff ->
                      a = (of_int64 1 - delta / fadeOutTime)%dbl).
Proof.
  induction l as [|pv l IH]; intros i.
  - exists (mkRefreshEffects [] []). split; [reflexivity|].
    split; [intros k Hk; inversion Hk|].
    split; [intros k a Hk; inversion Hk|].
    split; [reflexivity|]. intros j pv' Hj. discriminate.
  - destruct (IH (S i)) as (eff & Hrun & Hrem & Halpha & Hfilter & Hentries).
    destruct (idleTime_known kernel fadeOutMode now pv known_mode)
      as [delta Hdelta].
    cbn [refreshLoop List.filter]. unfold isRetained at 1.
    rewrite Hrun, Hdelta.
    destruct (fadeOutTime <? delta)%dbl eqn:Hlt; cbn [negb].
    + eexists. split; [reflexivity|].
      cbn [removedPathVisualizations setAlphaCalls removePathVisualizations].
      split.
      { intros k Hk. apply elem_of_cons in Hk as [->|Hk]; [lia|].
        specialize (Hrem k Hk). lia. }
      split; [intros k a Hk; specialize (Halpha k a Hk); lia|].
      split.
      { rewrite bool_decide_eq_true_2 by (left).
        rewrite <- Hfilter. apply removePathVisualizations_ext.
        intros k Hk. rewrite elem_of_cons. split; [|tauto].
        intros [->|H]; [lia | exact H]. }
      intros [|j] pv' Hj.
      * injection Hj as <-. exists delta. split; [exact Hdelta|].
        rewrite Nat.add_0_r, Hlt. split.
        -- intros _. split; [left|].
           intros a Ha. specialize (Halpha _ _ Ha). lia.
        -- discriminate.
      * destruct (Hentries j pv' Hj) as (d & Hd & Hgt & Hkeep).
        exists d. split; [exact Hd|].
        replace (i + S j)%nat with (S i + j)%nat by lia. split.
        -- intros H. destruct (Hgt H) as [H1 H2]. split; [right; exact H1|].
           exact H2.
        -- intros H. destruct (Hkeep H) as (H1 & H2 & H3).
           split; [|split; [exact H2 | exact H3]].
           rewrite elem_of_cons. intros [Heq|Hin]; [lia | exact (H1 Hin)].
    + eexists. split; [reflexivity|].
      cbn [removedPathVisualizations setAlphaCalls removePathVisualizations].
      split; [intros k Hk; specialize (Hrem k Hk); lia|].
      split.
      { intros k a Hk. apply elem_of_cons in Hk as [[= -> ->]|Hk]; [lia|].
        specialize (Halpha k a Hk). lia. }
      split.
      { rewrite bool_decide_eq_false_2
          by (intros H; specialize (Hrem i H); lia).
        rewrite Hfilter. reflexivity. }
      intros [|j] pv' Hj.
      * injection Hj as <-. exists delta. split; [exact Hdelta|].
        rewrite Nat.add_0_r, Hlt. split.
        -- discriminate.
        -- intros _. split; [intros H; specialize (Hrem i H); lia|].
           split; [left|].
           intros a Ha. apply elem_of_cons in Ha as [[= ->]|Ha];
             [reflexivity|]. specialize (Halpha _ _ Ha). lia.
      * destruct (Hentries j pv' Hj) as (d & Hd & Hgt & Hkeep).
        exists d. split; [exact Hd|].
        replace (i + S j)%nat with (S i + j)%nat by lia. split.
        -- intros H. destruct (Hgt H) as [H1 H2]. split; [exact H1|].
           intros a Ha. apply elem_of_cons in Ha as [[= Heq _]|Ha];
             [lia | exact (H2 a Ha)].
        -- intros H. destruct (Hkeep H) as (H1 & H2 & H3).
           split; [exact H1|]. split; [right; exact H2|].
           intros a Ha. apply elem_of_cons in Ha as [[= Heq _]|Ha];
             [lia | exact (H3 a Ha)].
Qed.

End FadeOut.

(** ** The claims about the path tracker *)

(** C9: after any sequence of start, element and end events (and
    parameter changes) on the empty tracker, no stored incomplete path has
    two equal consecutive entries; and adding a node that equals the last
    recorded hop of an incomplete path leaves that path as it is. *)
Theorem incomplete_paths_no_consecutive_duplicates :
  (forall es key path,
     incompletePaths (handleEvents es emptyTracker) !! key = Some path ->
     noConsecutiveDuplicates path)
  /\ (forall label chunkId len node t path,
        incompletePaths t !! (label, chunkId) = Some path ->
        last path = Some node ->
        incompletePaths (addToIncompletePath label chunkId node t)
          !! (label, chunkId) = Some path
        /\ incompletePaths
             (handleEvent t (PathElement node label [mkChunk chunkId len]))
             !! (label, chunkId) = Some path).
Proof.
  split.
  - intros es key path H.
    exact (handleEvents_wellFormed es emptyTracker (map_Forall_empty _) key
             path H).
  - intros label chunkId len node t path Hpath Hlast.
    assert (incompletePaths (addToIncompletePath label chunkId node t)
              !! (label, chunkId) = Some path) as Hadd.
    { unfold addToIncompletePath. cbn [set_incompletePaths incompletePaths].
      rewrite lookup_insert_eq, Hpath. cbn [default].
      rewrite bool_decide_eq_false_2; [reflexivity|].
      intros [Hlen|Hne].
      + destruct path; [discriminate Hlast | discriminate Hlen].
      + exact (Hne Hlast). }
    split; [exact Hadd|].
    cbn [handleEvent]. unfold processPathElement. cbn [foldl PathVisualizerBase.chunkId].
    unfold getIncompletePath. rewrite Hpath. exact Hadd.
Qed.

(** C8, as the code has it: a refresh fades only when the fade-out time
    is greater than zero.  Then, under a known clock mode, with [delta]
    the idle time of a visualization as the code computes it (a [double]),
    every visualization whose [delta] is greater than the fade-out time is
    removed and released and gets no opacity, and every other one (such
    as one whose [delta] is at most the fade-out time) is retained, in
    order, with its opacity set to [1 - delta / fadeOutTime], computed in
    [double] arithmetic, which is 0 when [delta] is the fade-out time; the
    incomplete paths are untouched.  When the fade-out time is not
    greater than zero a refresh does nothing. *)
Theorem refreshDisplay_fade_out (kernel : Kernel) (fadeOutMode : string)
    (fadeOutTime : double) (now : AnimationPosition) (t : Tracker) :
  fadeOutMode = "simulationTime"%string \/ fadeOutMode = "animationTime"%string
  \/ fadeOutMode = "realTime"%string ->
  ((of_int64 0 <? fadeOutTime)%dbl = true ->
   exists t' eff,
     refreshDisplay kernel fadeOutMode fadeOutTime now t = Ok (t', eff)
     /\ incompletePaths t' = incompletePaths t
     /\ pathVisualizations t'
        = List.filter (isRetained kernel fadeOutMode fadeOutTime now)
            (pathVisualizations t)
     /\ forall i pv,
          pathVisualizations t !! i = Some pv ->
          exists delta,
            idleTime kernel fadeOutMode now pv = Ok delta
            /\ ((fadeOutTime <? delta)%dbl = true ->
                isRetained kernel fadeOutMode fadeOutTime now pv = false
                /\ (i ∈ removedPathVisualizations eff)
                /\ forall a, (i, a) ∉ setAlphaCalls eff)
            /\ ((fadeOutTime <? delta)%dbl = false ->
                isRetained kernel fadeOutMode fadeOutTime now pv = true
                /\ (i ∉ removedPathVisualizations eff)
                /\ ((i, (of_int64 1 - delta / fadeOutTime)%dbl)
                    ∈ setAlphaCalls eff)
                /\ (forall a,
                      (i, a) ∈ setAlphaCalls eff ->
                      a = (of_int64 1 - delta / fadeOutTime)%dbl)
                /\ (delta = fadeOutTime ->
                    (fadeOutTime <? infinity)%dbl = true ->
                    (of_int64 1 - delta / fadeOutTime)%dbl = of_int64 0))
            /\ ((fadeOutTime >=? delta)%dbl = true ->
                (fadeOutTime <? delta)%dbl = false))
  /\ ((of_int64 0 <? fadeOutTime)%dbl = false ->
      refreshDisplay kernel fadeOutMode fadeOutTime now t
      = Ok (t, mkRefreshEffects [] [])).
Proof.
  intros Hmode. unfold refreshDisplay. split.
  - intros Hpos. rewrite Hpos.
    destruct (refreshLoop_spec kernel fadeOutMode fadeOutTime now Hmode
                (pathVisualizations t) 0%nat)
      as (eff & Hrun & _ & _ & Hfilter & Hentries).
    rewrite Hrun. eexists _, _. split; [reflexivity|].
    split; [reflexivity|]. split; [exact Hfilter|].
    intros i pv Hi. destruct (Hentries i pv Hi) as (delta & Hd & Hgt & Hkeep).
    exists delta. split; [exact Hd|]. cbn [Nat.add] in Hgt, Hkeep.
    unfold isRetained. rewrite Hd. split; [|split].
    + intros H. rewrite H. split; [reflexivity | exact (Hgt H)].
    + intros H. rewrite H. destruct (Hkeep H) as (H1 & H2 & H3).
      split; [reflexivity|].
      split; [exact H1|]. split; [exact H2|]. split; [exact H3|].
      intros -> Hfin.
      destruct fadeOutTime as [s|s| |s m e]; try discriminate Hpos;
        [destruct s; discriminate|].
      rewrite DoubleProperties.div_self. vm_compute. reflexivity.
    + apply DoubleProperties.geb_true_ltb_false.
  - intros Hle. rewrite Hle. reflexivity.
Qed.

(** *** One chunk at a time *)

Lemma addToIncompletePath_fresh label chunkId node t :
  incompletePaths t !! (label, chunkId) = None ->
  addToIncompletePath label chunkId node t
  = mkTracker (<[(label, chunkId) := [node]]> (incompletePaths t))
      (pathVisualizations t).
Proof.
  intros H. unfold addToIncompletePath, set_incompletePaths. rewrite H.
  cbn [default length]. rewrite bool_decide_eq_true_2 by (left; reflexivity).
  reflexivity.
Qed.

Lemma addToIncompletePath_extend label chunkId node t path :
  incompletePaths t !! (label, chunkId) = Some path ->
  last path <> Some node ->
  addToIncompletePath label chunkId node t
  = mkTracker (<[(label, chunkId) := path ++ [node]]> (incompletePaths t))
      (pathVisualizations t).
Proof.
  intros H Hlast. unfold addToIncompletePath, set_incompletePaths. rewrite H.
  cbn [default]. rewrite bool_decide_eq_true_2 by (right; exact Hlast).
  reflexivity.
Qed.

Lemma processPathStart_single node label cid len t :
  incompletePaths t !! (label, cid) = None ->
  processPathStart node label [mkChunk cid len] t
  = mkTracker (<[(label, cid) := [node]]> (incompletePaths t))
      (pathVisualizations t).
Proof.
  intros H. unfold processPathStart. cbn [foldl chunkId].
  unfold getIncompletePath. rewrite H.
  exact (addToIncompletePath_fresh label cid node t H).
Qed.

Lemma processPathElement_single node label cid len t path :
  incompletePaths t !! (label, cid) = Some path ->
  last path <> Some node ->
  processPathElement node label [mkChunk cid len] t
  = mkTracker (<[(label, cid) := path ++ [node]]> (incompletePaths t))
      (pathVisualizations t).
Proof.
  intros H Hlast. unfold processPathElement. cbn [foldl chunkId].
  unfold getIncompletePath. rewrite H.
  exact (addToIncompletePath_extend label cid node t path H Hlast).
Qed.

Lemma processPathEnd_single now node label cid len t path :
  incompletePaths t !! (label, cid) = Some path ->
  last path <> Some node ->
  path <> [] ->
  processPathEnd now node label [mkChunk cid len] t
  = match getPathVisualization t (path ++ [node]) with
    | Some i =>
        mkTracker (delete (label, cid) (incompletePaths t))
          (touchUpdated now {[i]}
             (alter (addToTotalLength len) i (pathVisualizations t)))
    | None =>
        mkTracker (delete (label, cid) (incompletePaths t))
          (touchUpdated now {[length (pathVisualizations t)]}
             (alter (addToTotalLength len) (length (pathVisualizations t))
                (pathVisualizations t
                 ++ [createPathVisualization now label (path ++ [node])])))
    end.
Proof.
  intros H Hlast Hne. unfold processPathEnd. cbn [foldl].
  unfold processPathEndChunk. cbn [chunkId getChunkLength].
  unfold getIncompletePath at 1. rewrite H.
  rewrite (addToIncompletePath_extend label cid node t path H Hlast).
  unfold getIncompletePath. cbn [incompletePaths].
  rewrite lookup_insert_eq. cbn [default from_option id].
  rewrite bool_decide_eq_true_2
    by (rewrite length_app; destruct path; [congruence | simpl; lia]).
  unfold getPathVisualization, removeIncompletePath, addPathVisualization,
    set_pathVisualizations, set_incompletePaths.
  cbn [pathVisualizations incompletePaths].
  destruct (list_find _ (pathVisualizations t)) as [[i pv]|];
    cbn [fmap option_fmap option_map fst pathVisualizations incompletePaths];
    rewrite delete_insert_eq, (right_id_L ∅ (∪)); reflexivity.
Qed.

Lemma getPathVisualization_head m pv l path :
  moduleIds pv = path ->
  getPathVisualization (mkTracker m (pv :: l)) path = Some 0%nat.
Proof.
  intros <-. unfold getPathVisualization. cbn [pathVisualizations list_find].
  rewrite decide_True by (split; reflexivity). reflexivity.
Qed.

Lemma fullCycle_first now A B C L len :
  A <> B -> B <> C ->
  fullCycle now A B C L len emptyTracker
  = mkTracker ∅ [mkPathVisualization [A; B; C] L 1 len now].
Proof.
  intros HAB HBC. unfold fullCycle, handleEvents. cbn [foldl handleEvent].
  rewrite processPathStart_single by apply lookup_empty.
  cbn [emptyTracker incompletePaths pathVisualizations].
  rewrite (processPathElement_single B L 0 len _ [A])
    by (cbn [incompletePaths last];
        first [apply lookup_insert_eq | congruence]).
  cbn [incompletePaths pathVisualizations]. rewrite insert_insert_eq.
  rewrite (processPathEnd_single now C L 0 len _ ([A] ++ [B]))
    by (cbn [incompletePaths last app];
        first [apply lookup_insert_eq | congruence]).
  cbn [incompletePaths pathVisualizations app length].
  unfold getPathVisualization. cbn [pathVisualizations list_find fmap option_fmap option_map].
  rewrite delete_insert_eq, delete_empty.
  unfold touchUpdated. cbn.
  rewrite bool_decide_eq_true_2 by set_solver. reflexivity.
Qed.

Lemma fullCycle_again now A B C L len pv :
  A <> B -> B <> C ->
  moduleIds pv = [A; B; C] ->
  fullCycle now A B C L len (mkTracker ∅ [pv])
  = mkTracker ∅
      [mkPathVisualization [A; B; C] (label pv) (numPackets pv + 1)
         (totalLength pv + len) now].
Proof.
  intros HAB HBC Hids. unfold fullCycle, handleEvents. cbn [foldl handleEvent].
  rewrite processPathStart_single by apply lookup_empty.
  cbn [incompletePaths pathVisualizations].
  rewrite (processPathElement_single B L 0 len _ [A])
    by (cbn [incompletePaths last];
        first [apply lookup_insert_eq | congruence]).
  cbn [incompletePaths pathVisualizations]. rewrite insert_insert_eq.
  rewrite (processPathEnd_single now C L 0 len _ ([A] ++ [B]))
    by (cbn [incompletePaths last app];
        first [apply lookup_insert_eq | congruence]).
  cbn [incompletePaths pathVisualizations app length].
  rewrite (getPathVisualization_head _ pv [] [A; B; C] Hids).
  rewrite delete_insert_eq, delete_empty.
  unfold touchUpdated. cbn.
  rewrite bool_decide_eq_true_2 by set_solver.
  rewrite <- Hids. reflexivity.
Qed.

(** *** Cycles that report a node twice in a row *)

Lemma addToIncompletePath_same label chunkId node t path :
  incompletePaths t !! (label, chunkId) = Some path ->
  last path = Some node ->
  addToIncompletePath label chunkId node t = t.
Proof.
  intros H Hlast. unfold addToIncompletePath, set_incompletePaths. rewrite H.
  cbn [default from_option id].
  rewrite bool_decide_eq_false_2.
  - rewrite insert_id by exact H. destruct t; reflexivity.
  - intros [Hlen|Hne]; [|exact (Hne Hlast)].
    destruct path; [discriminate Hlast | discriminate Hlen].
Qed.

Lemma processPathElement_single_same node label cid len t path :
  incompletePaths t !! (label, cid) = Some path ->
  last path = Some node ->
  processPathElement node label [mkChunk cid len] t = t.
Proof.
  intros H Hlast. unfold processPathElement. cbn [foldl chunkId].
  unfold getIncompletePath. rewrite H.
  exact (addToIncompletePath_same label cid node t path H Hlast).
Qed.

(** With a repeated node three times over, the path has a single node and
    no visualization is made; with one repetition the visualization has
    the two distinct nodes. *)
Lemma fullCycle_repeated_nodes now A C L len :
  fullCycle now A A A L len emptyTracker = emptyTracker
  /\ (A <> C ->
      fullCycle now A A C L len emptyTracker
      = mkTracker ∅ [mkPathVisualization [A; C] L 1 len now]
      /\ fullCycle now A C C L len emptyTracker
         = mkTracker ∅ [mkPathVisualization [A; C] L 1 len now]).
Proof.
  assert (forall node,
            processPathElement node L [mkChunk 0 len]
              (processPathStart A L [mkChunk 0 len] emptyTracker)
            = mkTracker (<[(L, 0) := if decide (node = A) then [A] else [A; node]]> ∅) [])
    as Helement.
  { intros node. rewrite processPathStart_single by apply lookup_empty.
    cbn [emptyTracker incompletePaths pathVisualizations].
    destruct (decide (node = A)) as [->|Hne].
    - apply (processPathElement_single_same A L 0 len _ [A]);
        [apply lookup_insert_eq | reflexivity].
    - rewrite (processPathElement_single node L 0 len _ [A])
        by (cbn [incompletePaths last];
            first [apply lookup_insert_eq | congruence]).
      cbn [incompletePaths pathVisualizations]. rewrite insert_insert_eq.
      reflexivity. }
  unfold fullCycle, handleEvents. cbn [foldl handleEvent].
  split; [|intros HAC; split].
  - rewrite Helement, decide_True by reflexivity.
    unfold processPathEnd. cbn [foldl]. unfold processPathEndChunk.
    cbn [chunkId]. unfold getIncompletePath at 1. cbn [incompletePaths].
    rewrite lookup_insert_eq.
    rewrite (addToIncompletePath_same L 0 A _ [A])
      by first [apply lookup_insert_eq | reflexivity].
    unfold getIncompletePath. cbn [incompletePaths].
    rewrite lookup_insert_eq. cbn [default from_option id length].
    rewrite bool_decide_eq_false_2 by lia.
    unfold removeIncompletePath, set_incompletePaths, set_pathVisualizations.
    cbn [incompletePaths pathVisualizations touchUpdated imap].
    rewrite delete_insert_eq, delete_empty. reflexivity.
  - rewrite Helement, decide_True by reflexivity.
    rewrite (processPathEnd_single now C L 0 len _ [A])
      by (cbn [incompletePaths last];
          first [apply lookup_insert_eq | congruence]).
    cbn [incompletePaths pathVisualizations app length].
    unfold getPathVisualization.
    cbn [pathVisualizations list_find fmap option_fmap option_map].
    rewrite delete_insert_eq, delete_empty.
    unfold touchUpdated. cbn.
    rewrite bool_decide_eq_true_2 by set_solver. reflexivity.
  - rewrite Helement, decide_False by congruence.
    unfold processPathEnd. cbn [foldl]. unfold processPathEndChunk.
    cbn [chunkId getChunkLength]. unfold getIncompletePath at 1.
    cbn [incompletePaths]. rewrite lookup_insert_eq.
    rewrite (addToIncompletePath_same L 0 C _ [A; C])
      by first [apply lookup_insert_eq | reflexivity].
    unfold getIncompletePath. cbn [incompletePaths].
    rewrite lookup_insert_eq. cbn [default from_option id length].
    rewrite bool_decide_eq_true_2 by lia.
    unfold getPathVisualization, addPathVisualization, removeIncompletePath,
      set_incompletePaths, set_pathVisualizations.
    cbn [pathVisualizations incompletePaths list_find fmap option_fmap
           option_map length app].
    rewrite delete_insert_eq, delete_empty, (right_id_L ∅ (∪)).
    unfold touchUpdated. cbn.
    rewrite bool_decide_eq_true_2 by set_solver. reflexivity.
Qed.

(** *** Counting once per packet *)

Lemma processPathEndChunk_counts now node label pvs0 st chunk :
  chunkLoopInvariant pvs0 st ->
  chunkLoopInvariant pvs0 (processPathEndChunk now node label st chunk).
Proof.
  unfold chunkLoopInvariant.
  destruct st as [t updated]. cbn [fst snd]. intros [Hlen Hinv].
  unfold processPathEndChunk.
  destruct (getIncompletePath t label (chunkId chunk));
    [|split; assumption].
  set (t1 := addToIncompletePath label (chunkId chunk) node t).
  assert (pathVisualizations t1 = pathVisualizations t) as Hpvs
    by reflexivity.
  set (path := default [] (getIncompletePath t1 label (chunkId chunk))).
  case_bool_decide;
    [|cbn [fst snd removeIncompletePath set_incompletePaths
             pathVisualizations]; rewrite Hpvs; split; assumption].
  destruct (getPathVisualization t1 path) as [i0|];
    cbn [fst snd removeIncompletePath set_incompletePaths
           set_pathVisualizations addPathVisualization pathVisualizations];
    rewrite Hpvs.
  - split; [rewrite length_alter; exact Hlen|].
    intros i pv Hi. destruct (decide (i0 = i)) as [->|Hne].
    + rewrite list_lookup_alter_eq in Hi.
      destruct (pathVisualizations t !! i) as [pv0|] eqn:E; [|discriminate].
      injection Hi as <-. split; [exact (proj1 (Hinv i pv0 E))|].
      intros Hnot. exfalso. apply Hnot.
      apply elem_of_union. left. apply elem_of_singleton. reflexivity.
    + rewrite list_lookup_alter_ne in Hi by exact Hne.
      split; [exact (proj1 (Hinv i pv Hi))|].
      intros Hnot. apply (proj2 (Hinv i pv Hi)).
      intros Hin. apply Hnot. apply elem_of_union. right. exact Hin.
  - split; [rewrite length_alter, length_app; lia|].
    intros i pv Hi.
    destruct (decide (length (pathVisualizations t) = i)) as [<-|Hne].
    + rewrite list_lookup_alter_eq, list_lookup_middle in Hi by reflexivity.
      injection Hi as <-. split.
      * rewrite (lookup_ge_None_2 pvs0) by exact Hlen. reflexivity.
      * intros Hnot. exfalso. apply Hnot.
        apply elem_of_union. left. apply elem_of_singleton. reflexivity.
    + rewrite list_lookup_alter_ne in Hi by exact Hne.
      apply lookup_snoc_Some in Hi as [[_ Hi]|[Heq _]]; [|congruence].
      split; [exact (proj1 (Hinv i pv Hi))|].
      intros Hnot. apply (proj2 (Hinv i pv Hi)).
      intros Hin. apply Hnot. apply elem_of_union. right. exact Hin.
Qed.

Lemma chunkLoop_counts now node label pvs0 packet :
  forall st,
    chunkLoopInvariant pvs0 st ->
    chunkLoopInvariant pvs0
      (foldl (processPathEndChunk now node label) st packet).
Proof.
  induction packet as [|chunk packet IH]; intros st Hst; [exact Hst|].
  cbn [foldl]. apply IH, processPathEndChunk_counts, Hst.
Qed.

Lemma processPathEnd_counts now node label packet t i pv' :
  pathVisualizations (processPathEnd now node label packet t) !! i = Some pv' ->
  let before := default 0 (numPackets <$> pathVisualizations t !! i) in
  (i ∈ updatedByPathEnd now node label packet t ->
   numPackets pv' = before + 1 /\ lastUsageAnimationPosition pv' = now)
  /\ (i ∉ updatedByPathEnd now node label packet t ->
      pathVisualizations t !! i = Some pv').
Proof.
  unfold processPathEnd, updatedByPathEnd.
  assert (chunkLoopInvariant (pathVisualizations t) (t, (∅ : gset nat)))
    as Hinit.
  { split; [cbn [fst]; lia|]. cbn [fst snd].
    intros j pv Hj. rewrite Hj. split; auto. }
  pose proof (chunkLoop_counts now node label _ packet _ Hinit) as [_ Hinv].
  destruct (foldl (processPathEndChunk now node label) (t, ∅) packet)
    as [t' updated].
  cbn [fst snd set_pathVisualizations pathVisualizations] in *.
  unfold touchUpdated. rewrite list_lookup_imap.
  destruct (pathVisualizations t' !! i) as [pv|] eqn:E; [|discriminate].
  cbn [fmap option_fmap option_map]. intros [= <-].
  destruct (Hinv i pv E) as [Hcount Hsame]. split.
  - intros Hin. rewrite bool_decide_eq_true_2 by exact Hin.
    cbn [refreshPathVisualization incrementNumPackets numPackets
           lastUsageAnimationPosition].
    rewrite Hcount. split; reflexivity.
  - intros Hnot. rewrite bool_decide_eq_false_2 by exact Hnot.
    exact (Hsame Hnot).
Qed.

(** C5: on the empty tracker the events start(A), element(B), end(C) for
    label [L] and chunk 0 (A, B and C naming distinct consecutive nodes)
    leave exactly one visualization, with node sequence [A; B; C], one
    packet and the chunk's length, and no incomplete path; a second such
    cycle leaves that one visualization with two packets and the sum of
    the two chunk lengths.  In general one [processPathEnd] call, whatever
    the number of chunks, adds exactly one to the packet counter of every
    visualization it touches and sets its last usage to the current
    position, and leaves every other visualization as it was. *)
Theorem path_reconstruction (A B C : Z) (L : string) (len len' : Z)
    (now now' : AnimationPosition) :
  A <> B -> B <> C ->
  fullCycle now A B C L len emptyTracker
  = mkTracker ∅ [mkPathVisualization [A; B; C] L 1 len now]
  /\ fullCycle now' A B C L len'
       (fullCycle now A B C L len emptyTracker)
     = mkTracker ∅ [mkPathVisualization [A; B; C] L 2 (len + len') now']
  /\ forall node label packet t i pv',
       pathVisualizations (processPathEnd now node label packet t) !! i
       = Some pv' ->
       (i ∈ updatedByPathEnd now node label packet t ->
        numPackets pv'
        = default 0 (numPackets <$> pathVisualizations t !! i) + 1
        /\ lastUsageAnimationPosition pv' = now)
       /\ (i ∉ updatedByPathEnd now node label packet t ->
           pathVisualizations t !! i = Some pv').
Proof.
  intros HAB HBC.
  split; [exact (fullCycle_first now A B C L len HAB HBC)|].
  split.
  - rewrite (fullCycle_first now A B C L len HAB HBC).
    exact (fullCycle_again now' A B C L len'
             (mkPathVisualization [A; B; C] L 1 len now) HAB HBC eq_refl).
  - intros node label packet t i pv' H.
    exact (processPathEnd_counts now node label packet t i pv' H).
Qed.

(** ** Concrete checks *)

(** A packet of two chunks that travel the same path counts as one packet
    and contributes both chunk lengths. *)
Example two_chunks_one_packet :
  let packet := [mkChunk 0 100; mkChunk 1 50] in
  pathVisualizations
    (handleEvents
       [PathStart 1 "L" packet; PathElement 2 "L" packet;
        PathEnd (sampleNow 1) 3 "L" packet]
       emptyTracker)
  = [mkPathVisualization [1; 2; 3] "L" 1 150 (sampleNow 1)].
Proof. vm_compute. reflexivity. Qed.

Lemma path_reconstruction_witness :
  fullCycle (sampleNow 0) 1 2 3 "L" 100 emptyTracker
  = mkTracker ∅ [mkPathVisualization [1; 2; 3] "L" 1 100 (sampleNow 0)]
  /\ fullCycle (sampleNow 1) 1 2 3 "L" 50
       (fullCycle (sampleNow 0) 1 2 3 "L" 100 emptyTracker)
     = mkTracker ∅ [mkPathVisualization [1; 2; 3] "L" 2 (100 + 50) (sampleNow 1)].
Proof.
  assert (1 <> 2) as H12 by lia. assert (2 <> 3) as H23 by lia.
  destruct (path_reconstruction 1 2 3 "L" 100 50 (sampleNow 0) (sampleNow 1)
              H12 H23) as (H1 & H2 & _).
  split; [exact H1 | exact H2].
Defined.

Lemma incomplete_paths_no_consecutive_duplicates_witness :
  noConsecutiveDuplicates [1; 2].
Proof.
  apply (proj1 incomplete_paths_no_consecutive_duplicates
           [PathStart 1 "L" [mkChunk 0 100];
            PathElement 1 "L" [mkChunk 0 100];
            PathElement 2 "L" [mkChunk 0 100];
            PathElement 2 "L" [mkChunk 0 100]]
           ("L"%string, 0) [1; 2]).
  vm_compute. reflexivity.
Defined.

Lemma refreshDisplay_fade_out_witness :
  exists t' eff,
    refreshDisplay sampleKernel "simulationTime" (of_int64 1) (sampleNow 1)
      sampleTracker
    = Ok (t', eff)
    /\ pathVisualizations t'
       = List.filter
           (isRetained sampleKernel "simulationTime" (of_int64 1)
              (sampleNow 1))
           (pathVisualizations sampleTracker).
Proof.
  assert ((of_int64 0 <? of_int64 1)%dbl = true) as Hpos by reflexivity.
  destruct (proj1 (refreshDisplay_fade_out sampleKernel "simulationTime"
                     (of_int64 1) (sampleNow 1) sampleTracker
                     (or_introl eq_refl)) Hpos)
    as (t' & eff & Hrun & _ & Hkept & _).
  exists t', eff. split; [exact Hrun | exact Hkept].
Defined.

(** The idle time is the difference that [double] arithmetic gives: with
    the animation time at the [double] nearest to 1.1, a visualization
    last used at the [double] nearest to 0.1 has an idle time of 1, and a
    refresh with a fade-out time of 1 retains it at opacity 0. *)
Example refreshDisplay_rounded_idle_time :
  let tenth := (of_int64 1 / of_int64 10)%dbl in
  let lastUsage := mkAnimationPosition 0 tenth tenth in
  let now := mkAnimationPosition 0 (of_int64 11 / of_int64 10)%dbl tenth in
  let pv := mkPathVisualization [1; 2; 3] "L" 1 100 lastUsage in
  idleTime sampleKernel "animationTime" now pv = Ok (of_int64 1)
  /\ refreshDisplay sampleKernel "animationTime" (of_int64 1) now
       (mkTracker ∅ [pv])
     = Ok (mkTracker ∅ [pv], mkRefreshEffects [(0%nat, of_int64 0)] []).
Proof. split; vm_compute; reflexivity. Qed.

(** C8 as stated fails when the fade-out time is zero: the visualization
    of the sample tracker was last used at time 0, at time 5 its idle time
    5 is strictly greater than the threshold 0, and yet the refresh
    retains it and releases nothing. *)
Lemma refreshDisplay_disabled_counterexample :
  pathVisualizations sampleTracker
  = [mkPathVisualization [1; 2; 3] "L" 1 100 (sampleNow 0)]
  /\ idleTime sampleKernel "simulationTime" (sampleNow 5)
       (mkPathVisualization [1; 2; 3] "L" 1 100 (sampleNow 0))
     = Ok (of_int64 5)
  /\ (of_int64 0 <? of_int64 5)%dbl = true
  /\ refreshDisplay sampleKernel "simulationTime" (of_int64 0) (sampleNow 5)
       sampleTracker
     = Ok (sampleTracker, mkRefreshEffects [] []).
Proof.
  split; [vm_compute; reflexivity|]. split; [vm_compute; reflexivity|].
  split; reflexivity.
Qed.

End PathTrackerProperties.

(** * Further properties of the streaming transmitter *)

Module TransmitterExtras.

Import StreamThroughTransmitter.
Import TransmitterProperties.

Section Transmitter.

Variable kernel : Kernel.
Variable dataratePar : bps.
Variable calculateDuration : bps -> Packet -> simtime_t.
Variable hasProducer : bool.
Variable baseHandleMessageWhenUp : Message -> M unit.

Lemma with_updateDisplayString (m : M unit) s s' o :
  (m;; updateDisplayString) s = Ok (tt, s', o) ->
  exists o1, m s = Ok (tt, s', o1) /\ o = o1 ++ [UpdateDisplayString].
Proof.
  intros H. apply bind_Ok_inv in H as ([] & s1 & o1 & o2 & H1 & H2 & ->).
  injection H2 as <- <-. exists o1. split; [exact H1 | reflexivity].
Qed.

(** What each of the four transitions does to the state and puts out,
    when it returns. *)
Lemma startTx_step now packet datarate position s s' o :
  startTx kernel dataratePar calculateDuration now packet datarate position s
  = Ok (tt, s', o) ->
  let sig := mkSignal packet (calculateDuration dataratePar packet) in
  isTransmitting s = false
  /\ inFlight kernel dataratePar s' sig
  /\ o = [EmitTransmissionStarted sig;
          SendSignalStart sig (transmissionId packet)].
Proof.
  intros H sig. destruct (startTx_Ok_inv _ _ _ _ _ _ _ _ _ H) as [Hidle Hclk].
  split; [exact Hidle|].
  split; [exact (startTx_inFlight _ _ _ _ _ _ _ _ _ _ H)|].
  destruct (startTx_run kernel dataratePar calculateDuration now packet datarate
              position s Hidle Hclk) as (timer & Hrun & _).
  rewrite Hrun in H. injection H as _ <-. reflexivity.
Qed.

Lemma progressTx_step now packet datarate position s s' o :
  progressTx kernel calculateDuration now packet datarate position s
  = Ok (tt, s', o) ->
  exists sig sig',
    txSignal s = Some sig /\ txSignal s' = Some sig'
    /\ (txStartClockTime s =? seconds kernel (-1)) = false
    /\ txDatarate s' = txDatarate s
    /\ txStartClockTime s' = txStartClockTime s
    /\ txEndTimer s' = Some (txStartClockTime s + getDuration sig')
    /\ (o = [DeletePacket packet]
        \/ exists position' timePosition,
             o = [DeleteSignal sig;
                  SendSignalProgress sig' (transmissionId packet) position'
                    timePosition])
    /\ (is_Some (bufferUnderrunTimer s')
        <-> (datarate <? txDatarate s)%dbl = true)
    /\ lastInputDatarate s' = datarate
    /\ lastInputProgressTime s' = simTime now
    /\ lastInputProgressPosition s' = position.
Proof.
  intros H. destruct (progressTx_Ok_inv _ _ _ _ _ _ _ _ H) as (sig & Hsig & Hclk).
  destruct (progressTx_run kernel calculateDuration now packet datarate position s
              sig Hsig Hclk) as (timer & Hrun & Hsome).
  rewrite Hrun in H. injection H as <- <-.
  eexists sig, _. split; [exact Hsig|]. split; [reflexivity|].
  split; [exact Hclk|]. split; [reflexivity|]. split; [reflexivity|].
  split; [reflexivity|]. split.
  - destruct (isPacketUnchangedSinceLastProgress kernel now s packet
                (getEncapsulatedPacket sig)); [left; reflexivity|].
    right. eexists _, _. reflexivity.
  - split; [exact Hsome|]. repeat split.
Qed.

Lemma endTx_step s s' o :
  endTx kernel hasProducer s = Ok (tt, s', o) ->
  exists sig,
    txSignal s = Some sig
    /\ s' = mkState None NaN (seconds kernel (-1)) (seconds kernel (-1))
              (seconds kernel (-1)) (-1) NaN (seconds kernel (-1)) (-1)
              (txEndTimer s) (bufferUnderrunTimer s)
    /\ o = [HandlePacketProcessed (getEncapsulatedPacket sig);
            EmitTransmissionEnded sig;
            SendSignalEnd sig (transmissionId (getEncapsulatedPacket sig))]
           ++ producerNotifications hasProducer (getEncapsulatedPacket sig).
Proof.
  intros H. destruct (endTx_Ok_inv _ _ _ _ H) as [sig Hsig].
  rewrite (endTx_run kernel hasProducer s sig Hsig) in H. injection H as <- <-.
  exists sig. repeat split. exact Hsig.
Qed.

Lemma abortTx_step now s s' o :
  abortTx kernel calculateDuration hasProducer now s = Ok (tt, s', o) ->
  exists sig packet signal,
    txSignal s = Some sig
    /\ s' = mkState None NaN (seconds kernel (-1)) (seconds kernel (-1))
              (seconds kernel (-1)) (-1) NaN (seconds kernel (-1)) (-1)
              (txEndTimer s) (bufferUnderrunTimer s)
    /\ o = [DeleteSignal sig; HandlePacketProcessed packet;
            EmitTransmissionEnded signal;
            SendSignalEnd signal
              (transmissionId (getEncapsulatedPacket sig))]
           ++ producerNotifications hasProducer packet.
Proof.
  intros H. destruct (abortTx_Ok_inv _ _ _ _ _ _ H) as [sig Hsig].
  rewrite (abortTx_run kernel calculateDuration hasProducer now s sig Hsig) in H.
  match type of H with (if ?c then _ else _) = _ => destruct c end;
    [|discriminate].
  injection H as <- <-. eexists sig, _, _. repeat split. exact Hsig.
Qed.

(** X2 (pushPacketEnd): on an idle transmitter [pushPacketEnd] fails its
    assertion; whenever it returns, the transmission goes on at the same
    committed rate, the input is recorded as complete (input position the
    total length of the pushed packet, input rate NaN) and the underrun
    timer is left cancelled. *)
Theorem pushPacketEnd_completes_input (now : Clock) (packet : Packet)
    (s : State) :
  (isTransmitting s = false ->
   pushPacketEnd kernel calculateDuration now packet s
   = Fail (AssertionFailure "txSignal != nullptr"))
  /\ forall s' o,
       pushPacketEnd kernel calculateDuration now packet s = Ok (tt, s', o) ->
       isTransmitting s' = true
       /\ txDatarate s' = txDatarate s
       /\ lastInputDatarate s' = NaN
       /\ lastInputProgressTime s' = simTime now
       /\ lastInputProgressPosition s' = getTotalLength packet
       /\ bufferUnderrunTimer s' = None.
Proof.
  split.
  - unfold isTransmitting, pushPacketEnd. mred.
    destruct (txSignal s); [discriminate | reflexivity].
  - intros s' o H. unfold pushPacketEnd in H.
    apply bind_Ok_inv in H as (s0 & s1 & o1 & o2 & H1 & H2 & _).
    injection H1 as <- <- _.
    apply bind_Ok_inv in H2 as ([] & s2 & o3 & o4 & Hassert & H2 & _).
    assert (s2 = s) as ->.
    { unfold ASSERT in Hassert.
      destruct (txSignal s); [|discriminate Hassert].
      injection Hassert as <- _. reflexivity. }
    apply with_updateDisplayString in H2 as (o5 & H2 & _).
    destruct (progressTx_step _ _ _ _ _ _ _ H2)
      as (sig & sig' & _ & Hsig' & _ & Hrate & _ & _ & _ & Hsome & Hdr & Htime
          & Hpos).
    split; [exact (isTransmitting_Some _ _ Hsig')|].
    split; [exact Hrate|]. split; [exact Hdr|]. split; [exact Htime|].
    split; [exact Hpos|].
    destruct (bufferUnderrunTimer s') as [t|]; [|reflexivity].
    destruct Hsome as [Hsome _]. discriminate Hsome. eexists; reflexivity.
Qed.

(** X3 (progressTx): a progress call whose packet passes neither of the
    two "unchanged" tests replaces the signal in flight by the encoding of
    the pushed packet, deletes the old signal, and sends exactly one
    progress notification, carrying the elapsed clock time and the bit
    position computed from it: the double-precision product of the rate
    and the elapsed clock time in seconds, rounded down and converted to a
    64-bit count.  The end timer moves to the start clock time plus the
    new signal's duration, and the committed rate and the start times
    stay. *)
Theorem progressTx_changed_packet (now : Clock) (packet : Packet)
    (datarate : bps) (position : b) (s : State) (sig : Signal) :
  inFlight kernel dataratePar s sig ->
  (expectedInputPosition kernel now s <> getTotalLength packet
   \/ getTotalLength packet <> getTotalLength (getEncapsulatedPacket sig)) ->
  content packet <> content (getEncapsulatedPacket sig) ->
  let timePosition := getClockTime now - txStartClockTime s in
  let txPosition :=
    floor_b (dataratePar * clocktime_dbl kernel timePosition)%dbl in
  let signal := mkSignal packet (calculateDuration dataratePar packet) in
  exists s',
    progressTx kernel calculateDuration now packet datarate position s
    = Ok (tt, s',
          [DeleteSignal sig;
           SendSignalProgress signal (transmissionId packet) txPosition
             timePosition])
    /\ inFlight kernel dataratePar s' signal
    /\ txStartTime s' = txStartTime s
    /\ txStartClockTime s' = txStartClockTime s
    /\ lastTxProgressTime s' = simTime now
    /\ lastTxProgressPosition s' = txPosition.
Proof.
  intros (Hsig & Hrate & Hclk & Htimer) Hlen Hdata timePosition txPosition
    signal.
  destruct (progressTx_run kernel calculateDuration now packet datarate position s
              sig Hsig Hclk) as (timer & Hrun & _).
  assert (isPacketUnchangedSinceLastProgress kernel now s packet
            (getEncapsulatedPacket sig) = false) as Hchanged.
  { unfold isPacketUnchangedSinceLastProgress, containsSameData.
    rewrite (bool_decide_eq_false_2 _ Hdata), orb_false_r.
    apply andb_false_iff. destruct Hlen as [H|H]; [left|right];
      apply Z.eqb_neq; exact H. }
  rewrite Hchanged, Hrate in Hrun.
  fold timePosition in Hrun. fold txPosition in Hrun. fold signal in Hrun.
  eexists. split; [exact Hrun|].
  split; [|repeat split].
  repeat split; cbn [txSignal txDatarate txStartClockTime txEndTimer];
    assumption.
Qed.

Lemma handleStopOperation_idle now s :
  isTransmitting s = false ->
  handleStopOperation kernel calculateDuration hasProducer now s = Ok (tt, s, []).
Proof. intros H. unfold handleStopOperation. mred. rewrite H. reflexivity. Qed.

Lemma handleStopOperation_transmitting now s :
  isTransmitting s = true ->
  handleStopOperation kernel calculateDuration hasProducer now s
  = abortTx kernel calculateDuration hasProducer now s.
Proof.
  intros H. unfold handleStopOperation. mred. rewrite H.
  destruct (abortTx kernel calculateDuration hasProducer now s)
    as [[[[] s1] o1]|]; reflexivity.
Qed.

Lemma handleStopOperation_step now s s' o :
  handleStopOperation kernel calculateDuration hasProducer now s = Ok (tt, s', o) ->
  isTransmitting s' = false
  /\ countOutputs isStarted o = 0%nat
  /\ countOutputs isEnded o = transmittingCount s
  /\ countOutputs isProducerProcessed o
     = (if hasProducer then countOutputs isEnded o else 0%nat)
  /\ (stateInvariant kernel dataratePar s -> isCleared kernel s').
Proof.
  intros H. unfold transmittingCount.
  destruct (isTransmitting s) eqn:E.
  - rewrite (handleStopOperation_transmitting now s E) in H.
    destruct (abortTx_step _ _ _ _ H) as (sig & packet & signal & _ & -> & ->).
    split; [reflexivity|].
    unfold producerNotifications.
    destruct hasProducer; repeat split.
  - rewrite (handleStopOperation_idle now s E) in H. injection H as <- <-.
    split; [exact E|]. split; [reflexivity|]. split; [reflexivity|].
    split; [destruct hasProducer; reflexivity|].
    unfold stateInvariant, isTransmitting in *.
    destruct (txSignal s); [discriminate E | trivial].
Qed.

(** X4 (handleStopOperation, handleCrashOperation): a crash is handled as
    a stop; on an idle transmitter a stop does nothing, on a transmitting
    one it is the abort; and after every stop that returns the transmitter
    is idle, having announced the end of as many transmissions as were in
    flight (one or none), with every position, time and rate field unset
    if the member variables were consistent before. *)
Theorem stop_aborts_if_transmitting (now : Clock) (s : State) :
  handleCrashOperation kernel calculateDuration hasProducer now s
  = handleStopOperation kernel calculateDuration hasProducer now s
  /\ (isTransmitting s = false ->
      handleStopOperation kernel calculateDuration hasProducer now s = Ok (tt, s, []))
  /\ (isTransmitting s = true ->
      handleStopOperation kernel calculateDuration hasProducer now s
      = abortTx kernel calculateDuration hasProducer now s)
  /\ forall s' o,
       handleStopOperation kernel calculateDuration hasProducer now s
       = Ok (tt, s', o) ->
       isTransmitting s' = false
       /\ countOutputs isEnded o = transmittingCount s
       /\ (stateInvariant kernel dataratePar s -> isCleared kernel s').
Proof.
  split; [reflexivity|].
  split; [exact (handleStopOperation_idle now s)|].
  split; [exact (handleStopOperation_transmitting now s)|].
  intros s' o H.
  destruct (handleStopOperation_step now s s' o H) as (H1 & _ & H2 & _ & H3).
  split; [exact H1|]. split; [exact H2 | exact H3].
Qed.

(** X5 (endTx, abortTx): neither the end nor the abort of a transmission
    cancels or schedules a timer: on return the transmitter is idle and
    the end timer and the underrun timer are scheduled as they were before
    the call.  In particular an abort leaves the end timer of the aborted
    transmission scheduled. *)
Theorem end_and_abort_keep_timers (now : Clock) (s s' : State)
    (o : list Output) :
  endTx kernel hasProducer s = Ok (tt, s', o)
  \/ abortTx kernel calculateDuration hasProducer now s = Ok (tt, s', o) ->
  isTransmitting s' = false
  /\ txEndTimer s' = txEndTimer s
  /\ bufferUnderrunTimer s' = bufferUnderrunTimer s.
Proof.
  intros [H|H].
  - destruct (endTx_step _ _ _ H) as (sig & _ & -> & _). repeat split.
  - destruct (abortTx_step _ _ _ _ H) as (sig & p & sg & _ & -> & _).
    repeat split.
Qed.

(** One operation handled in this class: the invariant of the member
    variables, the balance of started and ended notifications, and the
    notifications to the producer. *)
Lemma operation_step op s s' o :
  isOwnOperation op = true ->
  operation kernel dataratePar calculateDuration hasProducer baseHandleMessageWhenUp
    op s = Ok (tt, s', o) ->
  (stateInvariant kernel dataratePar s -> stateInvariant kernel dataratePar s')
  /\ (countOutputs isStarted o + transmittingCount s
      = countOutputs isEnded o + transmittingCount s')%nat
  /\ countOutputs isProducerProcessed o
     = (if hasProducer then countOutputs isEnded o else 0%nat).
Proof.
  assert (forall now packet datarate position s s' o,
            startTx kernel dataratePar calculateDuration now packet datarate position s
            = Ok (tt, s', o) ->
            stateInvariant kernel dataratePar s'
            /\ (countOutputs isStarted (o ++ [UpdateDisplayString])
                + transmittingCount s
                = countOutputs isEnded (o ++ [UpdateDisplayString])
                  + transmittingCount s')%nat
            /\ countOutputs isProducerProcessed (o ++ [UpdateDisplayString])
               = (if hasProducer then
                    countOutputs isEnded (o ++ [UpdateDisplayString])
                  else 0%nat)) as Hstart.
  { clear s s' o. intros now packet datarate position s s' o H.
    destruct (startTx_step _ _ _ _ _ _ _ H) as (Hidle & Hfl & ->).
    unfold stateInvariant, transmittingCount. rewrite Hidle.
    pose proof Hfl as (Hsig & _).
    rewrite (isTransmitting_Some _ _ Hsig), Hsig.
    split; [exact Hfl|]. split; [reflexivity|].
    destruct hasProducer; reflexivity. }
  assert (forall now packet datarate position s s' o,
            progressTx kernel calculateDuration now packet datarate position s
            = Ok (tt, s', o) ->
            (stateInvariant kernel dataratePar s -> stateInvariant kernel dataratePar s')
            /\ (countOutputs isStarted (o ++ [UpdateDisplayString])
                + transmittingCount s
                = countOutputs isEnded (o ++ [UpdateDisplayString])
                  + transmittingCount s')%nat
            /\ countOutputs isProducerProcessed (o ++ [UpdateDisplayString])
               = (if hasProducer then
                    countOutputs isEnded (o ++ [UpdateDisplayString])
                  else 0%nat)) as Hprogress.
  { clear s s' o. intros now packet datarate position s s' o H.
    destruct (progressTx_step _ _ _ _ _ _ _ H)
      as (sig & sig' & Hsig & Hsig' & Hclk & Hrate & Hstart' & Htimer & Ho & _).
    unfold stateInvariant, transmittingCount.
    rewrite (isTransmitting_Some _ _ Hsig), (isTransmitting_Some _ _ Hsig'),
      Hsig, Hsig'.
    split.
    - intros (_ & Hr & _ & _). repeat split.
      + exact Hsig'.
      + rewrite Hrate. exact Hr.
      + rewrite Hstart'. exact Hclk.
      + rewrite Htimer, Hstart'. reflexivity.
    - destruct Ho as [->|(p' & tp & ->)]; (split; [reflexivity|]);
        destruct hasProducer; reflexivity. }
  intros Hown H. destruct op as [now packet datarate|now packet datarate
    position extra|now packet|message|now|now]; cbn [operation] in H.
  - unfold pushPacketStart in H.
    apply with_updateDisplayString in H as (o1 & H & ->).
    destruct (Hstart _ _ _ _ _ _ _ H) as (H1 & H2 & H3).
    split; [intros _; exact H1|]. split; assumption.
  - unfold pushPacketProgress in H.
    apply bind_Ok_inv in H as (s0 & s1 & o0 & o2 & H0 & H & ->).
    injection H0 as <- <- <-. cbn [app].
    apply with_updateDisplayString in H as (o1 & H & ->).
    destruct (isTransmitting s).
    + exact (Hprogress _ _ _ _ _ _ _ H).
    + destruct (Hstart _ _ _ _ _ _ _ H) as (H1 & H2 & H3).
      split; [intros _; exact H1|]. split; assumption.
  - unfold pushPacketEnd in H.
    apply bind_Ok_inv in H as (s0 & s1 & o0 & o2 & H0 & H & ->).
    injection H0 as <- <- <-. cbn [app].
    apply bind_Ok_inv in H as ([] & s2 & o3 & o4 & Hassert & H & ->).
    assert (s2 = s /\ o3 = []) as [-> ->].
    { unfold ASSERT in Hassert.
      destruct (txSignal s); [|discriminate Hassert].
      injection Hassert as <- <-. split; reflexivity. }
    cbn [app]. apply with_updateDisplayString in H as (o1 & H & ->).
    exact (Hprogress _ _ _ _ _ _ _ H).
  - destruct message as [| |id]; [| |discriminate Hown].
    + unfold handleMessageWhenUp in H.
      apply with_updateDisplayString in H as (o1 & H & ->).
      destruct (endTx_step _ _ _ H) as (sig & Hsig & -> & ->).
      unfold stateInvariant, transmittingCount.
      rewrite (isTransmitting_Some _ _ Hsig). cbn [txSignal isTransmitting].
      split; [intros _; repeat split|].
      unfold producerNotifications in *. destruct hasProducer; split; reflexivity.
    + discriminate H.
  - destruct (handleStopOperation_step now s s' o H)
      as (H1 & H2 & H3 & H4 & H5).
    unfold transmittingCount at 2. rewrite H1, H2.
    split; [|split; [lia | exact H4]].
    intros Hinv. pose proof (H5 Hinv) as Hc. unfold stateInvariant.
    rewrite (proj1 Hc). exact Hc.
  - change (handleCrashOperation kernel calculateDuration hasProducer now s)
      with (handleStopOperation kernel calculateDuration hasProducer now s) in H.
    destruct (handleStopOperation_step now s s' o H)
      as (H1 & H2 & H3 & H4 & H5).
    unfold transmittingCount at 2. rewrite H1, H2.
    split; [|split; [lia | exact H4]].
    intros Hinv. pose proof (H5 Hinv) as Hc. unfold stateInvariant.
    rewrite (proj1 Hc). exact Hc.
Qed.

Lemma countOutputs_app f o1 o2 :
  countOutputs f (o1 ++ o2) = (countOutputs f o1 + countOutputs f o2)%nat.
Proof. unfold countOutputs. rewrite List.filter_app, length_app. reflexivity. Qed.

Lemma operations_steps ops :
  forallb isOwnOperation ops = true ->
  forall s s' o,
    operations kernel dataratePar calculateDuration hasProducer
      baseHandleMessageWhenUp ops s = Ok (tt, s', o) ->
    (stateInvariant kernel dataratePar s -> stateInvariant kernel dataratePar s')
    /\ (countOutputs isStarted o + transmittingCount s
        = countOutputs isEnded o + transmittingCount s')%nat
    /\ countOutputs isProducerProcessed o
       = (if hasProducer then countOutputs isEnded o else 0%nat).
Proof.
  induction ops as [|op ops IH]; intros Hown s s' o H.
  - injection H as <- <-. repeat split; [auto|].
    destruct hasProducer; reflexivity.
  - cbn [forallb] in Hown. apply andb_true_iff in Hown as [Hop Hops].
    cbn [operations] in H.
    apply bind_Ok_inv in H as ([] & s1 & o1 & o2 & H1 & H2 & ->).
    destruct (operation_step op s s1 o1 Hop H1) as (Ha & Hb & Hc).
    destruct (IH Hops s1 s' o2 H2) as (Ha' & Hb' & Hc').
    rewrite !countOutputs_app.
    split; [auto|]. split; [lia|].
    rewrite Hc, Hc'. destruct hasProducer; reflexivity.
Qed.

(** X6 (all entry points): between calls the member variables are
    consistent.  After any sequence of pushes, timer messages, stops and
    crashes that returns, started on a consistent state such as the idle
    one, either no signal is in flight and every position, time and rate
    field is unset, or a signal is in flight, the committed rate is the
    configured one, the start clock time is set and the end timer is
    pending at the start clock time plus the duration of that signal. *)
Theorem member_variables_consistent (ops : list Operation)
    (s s' : State) (o : list Output) :
  forallb isOwnOperation ops = true ->
  stateInvariant kernel dataratePar s ->
  operations kernel dataratePar calculateDuration hasProducer baseHandleMessageWhenUp
    ops s = Ok (tt, s', o) ->
  stateInvariant kernel dataratePar s'.
Proof.
  intros Hown Hs H. exact (proj1 (operations_steps ops Hown s s' o H) Hs).
Qed.

(** X7 (all entry points): started and ended notifications balance.  Over
    any sequence of operations that returns, the number of "transmission
    started" notifications plus the transmission in flight before equals
    the number of "transmission ended" notifications plus the transmission
    in flight after: every started transmission is ended exactly once, by
    the end timer or by an abort, before another one starts. *)
Theorem started_and_ended_balance (ops : list Operation) (s s' : State)
    (o : list Output) :
  forallb isOwnOperation ops = true ->
  operations kernel dataratePar calculateDuration hasProducer baseHandleMessageWhenUp
    ops s = Ok (tt, s', o) ->
  (countOutputs isStarted o + transmittingCount s
   = countOutputs isEnded o + transmittingCount s')%nat.
Proof.
  intros Hown H. exact (proj1 (proj2 (operations_steps ops Hown s s' o H))).
Qed.

(** X8 (endTx, abortTx, all entry points): over any sequence of operations
    that returns, a connected producer is told "packet processed" exactly
    once per ended transmission, and without a producer never. *)
Theorem producer_notified_once_per_end (ops : list Operation) (s s' : State)
    (o : list Output) :
  forallb isOwnOperation ops = true ->
  operations kernel dataratePar calculateDuration hasProducer baseHandleMessageWhenUp
    ops s = Ok (tt, s', o) ->
  countOutputs isProducerProcessed o
  = (if hasProducer then countOutputs isEnded o else 0%nat).
Proof.
  intros Hown H. exact (proj2 (proj2 (operations_steps ops Hown s s' o H))).
Qed.

End Transmitter.
(** ** Concrete checks *)

Lemma pushPacketEnd_completes_input_witness :
  exists s' o,
    pushPacketEnd sampleKernel sampleDuration (sampleClock 1000) shortPacket sampleInFlight
    = Ok (tt, s', o)
    /\ lastInputDatarate s' = NaN
    /\ bufferUnderrunTimer s' = None.
Proof.
  destruct (pushPacketEnd sampleKernel sampleDuration (sampleClock 1000) shortPacket
              sampleInFlight) as [[[[] s'] o]|e] eqn:H;
    [|vm_compute in H; discriminate H].
  exists s', o. split; [reflexivity|].
  destruct (proj2 (pushPacketEnd_completes_input sampleKernel sampleDuration
                     (sampleClock 1000) shortPacket sampleInFlight) s' o H)
    as (_ & _ & Hrate & _ & _ & Htimer).
  split; [exact Hrate | exact Htimer].
Defined.

Lemma progressTx_changed_packet_witness :
  exists s',
    progressTx sampleKernel sampleDuration (sampleClock 500) longPacket
      (of_b 8) 4 sampleInFlight
    = Ok (tt, s',
          [DeleteSignal (mkSignal shortPacket (2 * sampleScale));
           SendSignalProgress
             (mkSignal longPacket (sampleDuration (of_b 1) longPacket)) 7
             0 (500 * 10 ^ 9)])
    /\ inFlight sampleKernel (of_b 1) s'
         (mkSignal longPacket (sampleDuration (of_b 1) longPacket)).
Proof.
  assert (inFlight sampleKernel (of_b 1) sampleInFlight
            (mkSignal shortPacket (2 * sampleScale))) as Hfl
    by (repeat split).
  assert (getTotalLength longPacket
          <> getTotalLength
               (getEncapsulatedPacket (mkSignal shortPacket (2 * sampleScale))))
    as Hlen by (vm_compute; discriminate).
  assert (content longPacket
          <> content
               (getEncapsulatedPacket (mkSignal shortPacket (2 * sampleScale))))
    as Hdata by (vm_compute; discriminate).
  destruct (progressTx_changed_packet sampleKernel (of_b 1) sampleDuration
              (sampleClock 500) longPacket (of_b 8) 4 sampleInFlight
              (mkSignal shortPacket (2 * sampleScale)) Hfl (or_intror Hlen)
              Hdata)
    as (s' & Hrun & Hfl' & _).
  exists s'. split; [exact Hrun | exact Hfl'].
Defined.

Lemma stop_aborts_if_transmitting_witness :
  exists s' o,
    handleStopOperation sampleKernel sampleDuration true (sampleClock 1000) sampleInFlight
    = Ok (tt, s', o)
    /\ isTransmitting s' = false
    /\ countOutputs isEnded o = 1%nat.
Proof.
  destruct (handleStopOperation sampleKernel sampleDuration true (sampleClock 1000)
              sampleInFlight) as [[[[] s'] o]|e] eqn:H;
    [|vm_compute in H; discriminate H].
  exists s', o. split; [reflexivity|].
  destruct (proj2 (proj2 (proj2
              (stop_aborts_if_transmitting sampleKernel (of_b 1)
                 sampleDuration true (sampleClock 1000) sampleInFlight))) s' o H) as (H1 & H2 & _).
  split; [exact H1 | exact H2].
Defined.

Lemma end_and_abort_keep_timers_witness :
  exists s' o,
    endTx sampleKernel true sampleInFlight = Ok (tt, s', o)
    /\ txEndTimer s' = txEndTimer sampleInFlight.
Proof.
  destruct (endTx sampleKernel true sampleInFlight) as [[[[] s'] o]|e] eqn:H;
    [|vm_compute in H; discriminate H].
  exists s', o. split; [reflexivity|].
  destruct (end_and_abort_keep_timers sampleKernel sampleDuration true
              (sampleClock 1000)
              sampleInFlight s' o (or_introl H)) as (_ & Htimer & _).
  exact Htimer.
Defined.

Lemma member_variables_consistent_witness :
  exists s' o,
    operations sampleKernel (of_b 1) sampleDuration true sampleBase
      sampleOperations (idleState sampleKernel)
    = Ok (tt, s', o)
    /\ stateInvariant sampleKernel (of_b 1) s'.
Proof.
  destruct (operations sampleKernel (of_b 1) sampleDuration true sampleBase
              sampleOperations (idleState sampleKernel)) as [[[[] s'] o]|e] eqn:H;
    [|vm_compute in H; discriminate H].
  exists s', o. split; [reflexivity|].
  assert (stateInvariant sampleKernel (of_b 1) (idleState sampleKernel)) as Hidle by (repeat split).
  exact (member_variables_consistent sampleKernel (of_b 1) sampleDuration true
           sampleBase sampleOperations (idleState sampleKernel) s' o eq_refl Hidle H).
Defined.

Lemma started_and_ended_balance_witness :
  exists s' o,
    operations sampleKernel (of_b 1) sampleDuration true sampleBase
      sampleOperations (idleState sampleKernel)
    = Ok (tt, s', o)
    /\ (countOutputs isStarted o + transmittingCount (idleState sampleKernel)
        = countOutputs isEnded o + transmittingCount s')%nat.
Proof.
  destruct (operations sampleKernel (of_b 1) sampleDuration true sampleBase
              sampleOperations (idleState sampleKernel)) as [[[[] s'] o]|e] eqn:H;
    [|vm_compute in H; discriminate H].
  exists s', o. split; [reflexivity|].
  exact (started_and_ended_balance sampleKernel (of_b 1) sampleDuration true
           sampleBase sampleOperations (idleState sampleKernel) s' o eq_refl H).
Defined.

Lemma producer_notified_once_per_end_witness :
  exists s' o,
    operations sampleKernel (of_b 1) sampleDuration true sampleBase
      sampleOperations (idleState sampleKernel)
    = Ok (tt, s', o)
    /\ countOutputs isProducerProcessed o = countOutputs isEnded o.
Proof.
  destruct (operations sampleKernel (of_b 1) sampleDuration true sampleBase
              sampleOperations (idleState sampleKernel)) as [[[[] s'] o]|e] eqn:H;
    [|vm_compute in H; discriminate H].
  exists s', o. split; [reflexivity|].
  exact (producer_notified_once_per_end sampleKernel (of_b 1) sampleDuration
           true sampleBase sampleOperations (idleState sampleKernel) s' o eq_refl H).
Defined.

End TransmitterExtras.

(** * Further properties of the path tracker *)

Module PathTrackerExtras.

Import PathVisualizerBase.
Import PathTrackerProperties.

Lemma getPathVisualization_Some t path i :
  getPathVisualization t path = Some i <->
  exists pv,
    pathVisualizations t !! i = Some pv /\ moduleIds pv = path
    /\ forall j pv',
         pathVisualizations t !! j = Some pv' -> (j < i)%nat ->
         moduleIds pv' <> path.
Proof.
  unfold getPathVisualization. split.
  - intros H. apply fmap_Some in H as ([i' pv] & Hfind & ->).
    apply list_find_Some in Hfind as (Hi & [_ Hids] & Hleast).
    exists pv. split; [exact Hi|]. split; [exact Hids|].
    intros j pv' Hj Hlt Heq. apply (Hleast j pv' Hj Hlt).
    split; [rewrite Heq; reflexivity | exact Heq].
  - intros (pv & Hi & Hids & Hleast). apply fmap_Some. exists (i, pv).
    split; [|reflexivity]. apply list_find_Some.
    split; [exact Hi|]. split; [split; [rewrite Hids; reflexivity | exact Hids]|].
    intros j pv' Hj Hlt [_ Heq]. exact (Hleast j pv' Hj Hlt Heq).
Qed.

Lemma getPathVisualization_None t path :
  getPathVisualization t path = None <->
  forall pv, pv ∈ pathVisualizations t -> moduleIds pv <> path.
Proof.
  unfold getPathVisualization. rewrite fmap_None, list_find_None, Forall_forall.
  split.
  - intros H pv Hin Heq. apply (H pv Hin).
    split; [rewrite Heq; reflexivity | exact Heq].
  - intros H pv Hin [_ Heq]. exact (H pv Hin Heq).
Qed.

(** X9 (getPathVisualization): the lookup returns the first visualization
    whose node sequence is the given path (its source and destination then
    agree with the key), and returns nothing exactly when no visualization
    has that node sequence. *)
Theorem getPathVisualization_finds_the_path (t : Tracker) (path : list Z) :
  (forall i,
     getPathVisualization t path = Some i ->
     exists pv,
       pathVisualizations t !! i = Some pv /\ moduleIds pv = path
       /\ forall j pv',
            pathVisualizations t !! j = Some pv' -> (j < i)%nat ->
            moduleIds pv' <> path)
  /\ (getPathVisualization t path = None <->
      path ∉ moduleIds <$> pathVisualizations t).
Proof.
  split.
  - intros i H. apply getPathVisualization_Some. exact H.
  - rewrite getPathVisualization_None, list_elem_of_fmap. split.
    + intros H (pv & -> & Hin). exact (H pv Hin eq_refl).
    + intros H pv Hin Heq. apply H. exists pv. split; [symmetry; exact Heq | exact Hin].
Qed.

(** ** The effect of the three events on the incomplete paths *)

Lemma pathVisualizations_addToIncompletePath label cid node t :
  pathVisualizations (addToIncompletePath label cid node t)
  = pathVisualizations t.
Proof. reflexivity. Qed.

Lemma incompletePaths_addToIncompletePath label cid node t :
  incompletePaths (addToIncompletePath label cid node t)
  = <[(label, cid) := extendedBy node
                        (default [] (incompletePaths t !! (label, cid)))]>
      (incompletePaths t).
Proof.
  unfold addToIncompletePath, extendedBy. cbn.
  f_equal. destruct (default [] (incompletePaths t !! (label, cid))) as [|x l] eqn:E.
  - rewrite bool_decide_eq_true_2 by (left; reflexivity).
    rewrite bool_decide_eq_false_2 by discriminate. reflexivity.
  - repeat case_bool_decide; try reflexivity.
    + destruct H as [H|H]; [discriminate H | contradiction].
    + exfalso. apply H. right. exact H0.
Qed.

Lemma processPathStart_step node label chunk t :
  let t' :=
    addToIncompletePath label (chunkId chunk) node
      match getIncompletePath t label (chunkId chunk) with
      | Some _ => removeIncompletePath label (chunkId chunk) t
      | None => t
      end in
  pathVisualizations t' = pathVisualizations t
  /\ incompletePaths t'
     = <[(label, chunkId chunk) := [node]]> (incompletePaths t).
Proof.
  cbv zeta. rewrite incompletePaths_addToIncompletePath.
  unfold getIncompletePath.
  destruct (incompletePaths t !! (label, chunkId chunk)) as [p|] eqn:E.
  - split; [reflexivity|]. cbn [removeIncompletePath set_incompletePaths incompletePaths].
    rewrite lookup_delete_eq. cbn. rewrite insert_delete_eq. reflexivity.
  - split; [reflexivity|]. rewrite E. reflexivity.
Qed.

Lemma processPathElement_step node label chunk t :
  let t' :=
    match getIncompletePath t label (chunkId chunk) with
    | Some _ => addToIncompletePath label (chunkId chunk) node t
    | None => t
    end in
  pathVisualizations t' = pathVisualizations t
  /\ incompletePaths t'
     = alter (extendedBy node) (label, chunkId chunk) (incompletePaths t).
Proof.
  cbv zeta. unfold getIncompletePath.
  destruct (incompletePaths t !! (label, chunkId chunk)) as [p|] eqn:E.
  - split; [reflexivity|]. rewrite incompletePaths_addToIncompletePath, E.
    cbn. apply map_eq. intros k.
    destruct (decide (k = (label, chunkId chunk))) as [->|Hne].
    + rewrite lookup_insert_eq, lookup_alter_eq, E. reflexivity.
    + rewrite lookup_insert_ne, lookup_alter_ne by congruence. reflexivity.
  - split; [reflexivity|]. apply map_eq. intros k.
    destruct (decide (k = (label, chunkId chunk))) as [->|Hne].
    + rewrite lookup_alter_eq, E. reflexivity.
    + rewrite lookup_alter_ne by congruence. reflexivity.
Qed.

Lemma extendedBy_idemp node path :
  extendedBy node (extendedBy node path) = extendedBy node path.
Proof.
  unfold extendedBy. destruct (bool_decide (last path = Some node)) eqn:E.
  - rewrite E. reflexivity.
  - rewrite bool_decide_eq_true_2 by apply last_snoc. reflexivity.
Qed.

Lemma elem_of_chunkKeys label packet l c :
  (l, c) ∈ chunkKeys label packet <->
  l = label /\ exists chunk, chunk ∈ packet /\ chunkId chunk = c.
Proof.
  unfold chunkKeys. rewrite list_elem_of_fmap. split.
  - intros (chunk & [= -> ->] & Hin). split; [reflexivity|].
    exists chunk. split; [exact Hin | reflexivity].
  - intros (-> & chunk & Hin & <-). exists chunk. split; [reflexivity | exact Hin].
Qed.

Lemma chunkKeys_snoc label packet chunk :
  chunkKeys label (packet ++ [chunk])
  = chunkKeys label packet ++ [(label, chunkId chunk)].
Proof. unfold chunkKeys. rewrite fmap_snoc. reflexivity. Qed.

(** X10 (processPathStart): a start event restarts the path of every chunk
    of the packet: whatever was recorded under the chunk's key is dropped
    and the path is the start node alone.  The paths of all other keys and
    the visualizations are left as they are. *)
Theorem processPathStart_restarts (node : Z) (label : string)
    (packet : Packet) (t : Tracker) :
  let t' := processPathStart node label packet t in
  pathVisualizations t' = pathVisualizations t
  /\ (forall chunk,
        chunk ∈ packet ->
        getIncompletePath t' label (chunkId chunk) = Some [node])
  /\ (forall l c,
        (l, c) ∉ chunkKeys label packet ->
        getIncompletePath t' l c = getIncompletePath t l c).
Proof.
  cbv zeta. unfold processPathStart.
  induction packet as [|chunk packet IH] using rev_ind.
  - split; [reflexivity|]. split; [intros chunk H; inversion H | reflexivity].
  - rewrite foldl_snoc. destruct IH as (IHv & IHin & IHout).
    match goal with
    | |- context [foldl ?f t packet] => set (t1 := foldl f t packet) in *
    end.
    destruct (processPathStart_step node label chunk t1) as [Hv Hm].
    cbv zeta in Hv, Hm.
    split; [rewrite Hv; exact IHv|].
    unfold getIncompletePath at 1 3. rewrite Hm. split.
    + intros chunk' Hin.
      destruct (decide (chunkId chunk' = chunkId chunk)) as [->|Hne].
      * apply lookup_insert_eq.
      * rewrite lookup_insert_ne by congruence.
        apply elem_of_app in Hin as [Hin|Hin]; [exact (IHin _ Hin)|].
        apply list_elem_of_singleton in Hin. congruence.
    + intros l c Hout. rewrite chunkKeys_snoc in Hout.
      rewrite lookup_insert_ne.
      * apply IHout. intros H. apply Hout. apply elem_of_app. left. exact H.
      * intros [= <- <-]. apply Hout. apply elem_of_app. right. left.
Qed.

(** X11 (processPathElement, addToIncompletePath): an element event
    extends the path of every chunk of the packet that has one by the
    node, unless the node is already its last hop; it opens no path (a
    chunk without a path still has none), and it leaves the paths of
    all other keys and the visualizations as they are. *)
Theorem processPathElement_extends (node : Z) (label : string)
    (packet : Packet) (t : Tracker) :
  let t' := processPathElement node label packet t in
  pathVisualizations t' = pathVisualizations t
  /\ (forall chunk,
        chunk ∈ packet ->
        getIncompletePath t' label (chunkId chunk)
        = extendedBy node <$> getIncompletePath t label (chunkId chunk))
  /\ (forall l c,
        (l, c) ∉ chunkKeys label packet ->
        getIncompletePath t' l c = getIncompletePath t l c).
Proof.
  cbv zeta. unfold processPathElement.
  induction packet as [|chunk packet IH] using rev_ind.
  - split; [reflexivity|]. split; [intros chunk H; inversion H | reflexivity].
  - rewrite foldl_snoc. destruct IH as (IHv & IHin & IHout).
    match goal with
    | |- context [foldl ?f t packet] => set (t1 := foldl f t packet) in *
    end.
    destruct (processPathElement_step node label chunk t1) as [Hv Hm].
    cbv zeta in Hv, Hm.
    split; [rewrite Hv; exact IHv|].
    unfold getIncompletePath at 1 4. rewrite Hm. split.
    + intros chunk' Hin.
      destruct (decide (chunkId chunk' = chunkId chunk)) as [->|Hne].
      * rewrite lookup_alter_eq.
        destruct (decide ((label, chunkId chunk) ∈ chunkKeys label packet))
          as [Hk|Hk].
        -- apply elem_of_chunkKeys in Hk as (_ & chunk0 & Hin0 & Heq).
           specialize (IHin chunk0 Hin0). rewrite Heq in IHin.
           unfold getIncompletePath in IHin at 1. rewrite IHin.
           destruct (getIncompletePath t label (chunkId chunk)); cbn;
             [rewrite extendedBy_idemp|]; reflexivity.
        -- specialize (IHout _ _ Hk). unfold getIncompletePath in IHout at 1.
           rewrite IHout. reflexivity.
      * rewrite lookup_alter_ne by congruence.
        apply elem_of_app in Hin as [Hin|Hin]; [exact (IHin _ Hin)|].
        apply list_elem_of_singleton in Hin. congruence.
    + intros l c Hout. rewrite chunkKeys_snoc in Hout.
      rewrite lookup_alter_ne.
      * apply IHout. intros H. apply Hout. apply elem_of_app. left. exact H.
      * intros [= <- <-]. apply Hout. apply elem_of_app. right. left.
Qed.

Lemma processPathEndChunk_paths now node label st chunk :
  incompletePaths (fst (processPathEndChunk now node label st chunk))
  = delete (label, chunkId chunk) (incompletePaths (fst st)).
Proof.
  destruct st as [t updated]. cbn [fst]. unfold processPathEndChunk.
  unfold getIncompletePath at 1.
  destruct (incompletePaths t !! (label, chunkId chunk)) eqn:E;
    [|cbn [fst]; symmetry; apply delete_id; exact E].
  set (t1 := addToIncompletePath label (chunkId chunk) node t).
  assert (delete (label, chunkId chunk) (incompletePaths t1)
          = delete (label, chunkId chunk) (incompletePaths t)) as Hdel.
  { unfold t1. rewrite incompletePaths_addToIncompletePath.
    apply delete_insert_eq. }
  case_bool_decide; [destruct (getPathVisualization t1 _)|];
    cbn [fst removeIncompletePath set_incompletePaths set_pathVisualizations
           addPathVisualization incompletePaths]; exact Hdel.
Qed.

Lemma processPathEndChunk_keeps now node label st chunk i pv :
  pathVisualizations (fst st) !! i = Some pv ->
  exists pv',
    pathVisualizations (fst (processPathEndChunk now node label st chunk)) !! i
    = Some pv'
    /\ moduleIds pv' = moduleIds pv
    /\ PathVisualizerBase.label pv' = PathVisualizerBase.label pv.
Proof.
  destruct st as [t updated]. cbn [fst]. intros Hi.
  unfold processPathEndChunk.
  destruct (getIncompletePath t label (chunkId chunk));
    [|exists pv; cbn [fst]; auto].
  set (t1 := addToIncompletePath label (chunkId chunk) node t).
  assert (pathVisualizations t1 = pathVisualizations t) as Hpvs
    by reflexivity.
  set (path := default [] (getIncompletePath t1 label (chunkId chunk))).
  case_bool_decide;
    [|cbn [fst removeIncompletePath set_incompletePaths pathVisualizations];
      rewrite Hpvs; exists pv; auto].
  destruct (getPathVisualization t1 path) as [i0|];
    cbn [fst removeIncompletePath set_incompletePaths
           set_pathVisualizations addPathVisualization pathVisualizations];
    rewrite Hpvs.
  - destruct (decide (i0 = i)) as [->|Hne].
    + rewrite list_lookup_alter_eq, Hi. eexists. split; [reflexivity|].
      split; reflexivity.
    + rewrite list_lookup_alter_ne by exact Hne. exists pv. auto.
  - destruct (decide (length (pathVisualizations t) = i)) as [<-|Hne].
    + apply lookup_lt_Some in Hi. lia.
    + rewrite list_lookup_alter_ne by exact Hne.
      rewrite lookup_app_l by (apply lookup_lt_Some in Hi; exact Hi).
      exists pv. auto.
Qed.

(** X12 (processPathEnd, removeIncompletePath): an end event closes the
    path of every chunk of the packet: afterwards no path is recorded
    under any of the chunks' keys, whether or not a visualization came of
    it.  The paths of all other keys are left as they are, and every
    visualization that existed before is still there, at its place, with
    its node sequence and label. *)
Theorem processPathEnd_closes (now : AnimationPosition) (node : Z)
    (label : string) (packet : Packet) (t : Tracker) :
  let t' := processPathEnd now node label packet t in
  (forall chunk,
     chunk ∈ packet -> getIncompletePath t' label (chunkId chunk) = None)
  /\ (forall l c,
        (l, c) ∉ chunkKeys label packet ->
        getIncompletePath t' l c = getIncompletePath t l c)
  /\ (forall i pv,
        pathVisualizations t !! i = Some pv ->
        exists pv',
          pathVisualizations t' !! i = Some pv'
          /\ moduleIds pv' = moduleIds pv
          /\ PathVisualizerBase.label pv' = PathVisualizerBase.label pv).
Proof.
  cbv zeta. unfold processPathEnd.
  assert (forall st : Tracker * gset nat,
            let st' := foldl (processPathEndChunk now node label) st packet in
            (forall chunk,
               chunk ∈ packet ->
               incompletePaths (fst st') !! (label, chunkId chunk) = None)
            /\ (forall l c,
                  (l, c) ∉ chunkKeys label packet ->
                  incompletePaths (fst st') !! (l, c)
                  = incompletePaths (fst st) !! (l, c))
            /\ (forall i pv,
                  pathVisualizations (fst st) !! i = Some pv ->
                  exists pv',
                    pathVisualizations (fst st') !! i = Some pv'
                    /\ moduleIds pv' = moduleIds pv
                    /\ PathVisualizerBase.label pv'
                       = PathVisualizerBase.label pv)) as Hloop.
  { cbv zeta. induction packet as [|chunk packet IH] using rev_ind; intros st.
    - split; [intros chunk H; inversion H|]. split; [reflexivity|].
      intros i pv Hi. exists pv. auto.
    - rewrite foldl_snoc. destruct (IH st) as (IHin & IHout & IHkeep).
      set (st1 := foldl (processPathEndChunk now node label) st packet) in *.
      rewrite processPathEndChunk_paths. split; [|split].
      + intros chunk' Hin.
        destruct (decide (chunkId chunk' = chunkId chunk)) as [->|Hne].
        * apply lookup_delete_eq.
        * rewrite lookup_delete_ne by congruence.
          apply elem_of_app in Hin as [Hin|Hin]; [exact (IHin _ Hin)|].
          apply list_elem_of_singleton in Hin. congruence.
      + intros l c Hout. rewrite chunkKeys_snoc in Hout.
        rewrite lookup_delete_ne.
        * apply IHout. intros H. apply Hout. apply elem_of_app. left. exact H.
        * intros [= <- <-]. apply Hout. apply elem_of_app. right. left.
      + intros i pv Hi. destruct (IHkeep i pv Hi) as (pv1 & Hi1 & Hm1 & Hl1).
        destruct (processPathEndChunk_keeps now node label st1 chunk i pv1 Hi1)
          as (pv2 & Hi2 & Hm2 & Hl2).
        exists pv2. split; [exact Hi2|]. split; congruence. }
  specialize (Hloop (t, ∅)). cbv zeta in Hloop. cbn [fst] in Hloop.
  destruct (foldl (processPathEndChunk now node label) (t, ∅) packet)
    as [t' updated].
  cbn [fst] in Hloop. destruct Hloop as (Hin & Hout & Hkeep).
  unfold getIncompletePath.
  cbn [set_pathVisualizations incompletePaths pathVisualizations].
  split; [exact Hin|]. split; [exact Hout|].
  intros i pv Hi. destruct (Hkeep i pv Hi) as (pv1 & Hi1 & Hm1 & Hl1).
  unfold touchUpdated. rewrite list_lookup_imap, Hi1. cbn.
  eexists. split; [reflexivity|].
  case_bool_decide; cbn; split; assumption.
Qed.

Lemma touchUpdated_empty now l : touchUpdated now ∅ l = l.
Proof.
  unfold touchUpdated. apply list_eq. intros i.
  rewrite list_lookup_imap. destruct (l !! i); [|reflexivity].
  cbn. rewrite bool_decide_eq_false_2 by apply not_elem_of_empty.
  reflexivity.
Qed.

(** X13 (processPathElement, processPathEnd, getIncompletePath): events
    for chunks whose start was not seen are ignored.  When no chunk of
    the packet has a path under the label (as for an empty packet), an
    element event and an end event leave the tracker exactly as it is:
    no path is opened, no visualization is created or touched. *)
Theorem events_without_start_are_ignored (now : AnimationPosition)
    (node : Z) (label : string) (packet : Packet) (t : Tracker) :
  (forall chunk,
     chunk ∈ packet -> getIncompletePath t label (chunkId chunk) = None) ->
  processPathElement node label packet t = t
  /\ processPathEnd now node label packet t = t.
Proof.
  intros Hnone. split.
  - unfold processPathElement.
    induction packet as [|chunk packet IH]; [reflexivity|].
    cbn [foldl]. rewrite (Hnone chunk) by left.
    apply IH. intros c Hc. apply Hnone. right. exact Hc.
  - unfold processPathEnd.
    assert (foldl (processPathEndChunk now node label) (t, ∅) packet
            = (t, ∅)) as ->.
    { induction packet as [|chunk packet IH]; [reflexivity|].
      cbn [foldl]. unfold processPathEndChunk at 2.
      rewrite (Hnone chunk) by left.
      apply IH. intros c Hc. apply Hnone. right. exact Hc. }
    rewrite touchUpdated_empty. destruct t. reflexivity.
Qed.

(** ** The lengths counted by an end event *)

Lemma foldr_add_alter (len : Z) (zs : list Z) :
  forall i,
    (i < length zs)%nat ->
    foldr Z.add 0 (alter (fun z => z + len) i zs) = foldr Z.add 0 zs + len.
Proof.
  induction zs as [|z zs IH]; intros i Hi; [cbn in Hi; lia|].
  destruct i as [|i]; cbn [alter list_alter foldr].
  - lia.
  - cbn in Hi. change (list_alter ?f i zs) with (alter f i zs).
    rewrite (IH i) by lia. lia.
Qed.

Lemma sumTotalLength_alter len i l :
  (i < length l)%nat ->
  sumTotalLength (alter (addToTotalLength len) i l) = sumTotalLength l + len.
Proof.
  intros Hi. unfold sumTotalLength.
  rewrite (list_fmap_alter totalLength (addToTotalLength len)
             (fun z => z + len)) by (apply Forall_forall; reflexivity).
  apply foldr_add_alter. rewrite length_fmap. exact Hi.
Qed.

Lemma sumTotalLength_touchUpdated now updated l :
  sumTotalLength (touchUpdated now updated l) = sumTotalLength l.
Proof.
  unfold sumTotalLength. f_equal. unfold touchUpdated. apply list_eq.
  intros i. rewrite !list_lookup_fmap, list_lookup_imap.
  destruct (l !! i); [|reflexivity]. cbn. case_bool_decide; reflexivity.
Qed.

Lemma processPathEndChunk_length now node label st chunk :
  sumTotalLength
    (pathVisualizations (fst (processPathEndChunk now node label st chunk)))
  = sumTotalLength (pathVisualizations (fst st))
    + if completesPath node label (fst st) chunk
      then getChunkLength chunk else 0.
Proof.
  destruct st as [t updated]. cbn [fst]. unfold processPathEndChunk.
  unfold completesPath.
  destruct (getIncompletePath t label (chunkId chunk)) as [p|] eqn:Hp;
    [|cbn [fst]; lia].
  assert (getIncompletePath
            (addToIncompletePath label (chunkId chunk) node t) label
            (chunkId chunk)
          = Some (extendedBy node p)) as Hpath.
  { unfold getIncompletePath in *.
    rewrite incompletePaths_addToIncompletePath, Hp. apply lookup_insert_eq. }
  set (t1 := addToIncompletePath label (chunkId chunk) node t) in *.
  assert (pathVisualizations t1 = pathVisualizations t) as Hpvs
    by reflexivity.
  rewrite Hpath. cbn [default from_option id].
  case_bool_decide as Hlen;
    [|cbn [fst removeIncompletePath set_incompletePaths pathVisualizations];
      rewrite Hpvs; lia].
  destruct (getPathVisualization t1 (extendedBy node p)) as [i0|] eqn:Hget;
    cbn [fst removeIncompletePath set_incompletePaths
           set_pathVisualizations addPathVisualization pathVisualizations];
    rewrite Hpvs.
  - apply sumTotalLength_alter.
    pose proof (proj1 (getPathVisualization_Some t1 _ i0) Hget)
      as (pv & Hi & _).
    rewrite Hpvs in Hi. apply lookup_lt_Some in Hi. exact Hi.
  - rewrite sumTotalLength_alter by (rewrite length_app; cbn; lia).
    unfold sumTotalLength. rewrite fmap_snoc, foldr_snoc. cbn.
    rewrite Z.add_0_l. reflexivity.
Qed.

(** X14 (processPathEnd): every chunk that completes a path is counted
    once.  For a packet whose chunks have distinct ids, an end event
    raises the lengths counted on all visualizations together by the
    lengths of exactly those chunks for which a path was recorded that
    has at least two nodes with the end node added; chunks without a
    path, or whose path is the end node alone, count nowhere. *)
Theorem processPathEnd_counts_lengths (now : AnimationPosition) (node : Z)
    (label : string) (packet : Packet) (t : Tracker) :
  NoDup (chunkId <$> packet) ->
  sumTotalLength (pathVisualizations (processPathEnd now node label packet t))
  = sumTotalLength (pathVisualizations t)
    + chunksLength (List.filter (completesPath node label t) packet).
Proof.
  intros Hnd. unfold processPathEnd.
  assert (forall st : Tracker * gset nat,
            sumTotalLength
              (pathVisualizations
                 (fst (foldl (processPathEndChunk now node label) st packet)))
            = sumTotalLength (pathVisualizations (fst st))
              + chunksLength
                  (List.filter (completesPath node label (fst st)) packet))
    as Hloop.
  { induction packet as [|chunk packet IH]; intros st;
      [cbn; unfold chunksLength; cbn; lia|].
    apply NoDup_cons in Hnd as [Hnotin Hnd].
    cbn [foldl List.filter]. rewrite (IH Hnd), processPathEndChunk_length.
    assert (List.filter
              (completesPath node label
                 (fst (processPathEndChunk now node label st chunk))) packet
            = List.filter (completesPath node label (fst st)) packet) as ->.
    { apply List.filter_ext_in. intros c Hc. unfold completesPath.
      unfold getIncompletePath. rewrite processPathEndChunk_paths.
      rewrite lookup_delete_ne; [reflexivity|].
      intros [= Heq]. apply Hnotin. rewrite Heq.
      apply list_elem_of_fmap. exists c. split; [reflexivity|].
      apply list_elem_of_In. exact Hc. }
    destruct (completesPath node label (fst st) chunk);
      unfold chunksLength; cbn; lia. }
  specialize (Hloop (t, ∅)). cbn [fst] in Hloop.
  destruct (foldl (processPathEndChunk now node label) (t, ∅) packet)
    as [t' updated].
  cbn [fst set_pathVisualizations pathVisualizations] in *.
  rewrite sumTotalLength_touchUpdated. exact Hloop.
Qed.

(** ** The multimap of visualizations *)

(** X15 (addPathVisualization, getPathVisualization,
    removePathVisualization): adding a visualization never changes what a
    lookup already finds; a node sequence that was not found is found
    afterwards exactly when it is that of the added visualization, at
    the position of the new entry; and removing the new entry gives the
    tracker back. *)
Theorem add_lookup_remove (pv : PathVisualization) (t : Tracker) :
  let t' := addPathVisualization pv t in
  let i := length (pathVisualizations t) in
  (forall path j,
     getPathVisualization t path = Some j ->
     getPathVisualization t' path = Some j)
  /\ (forall path,
        getPathVisualization t path = None ->
        getPathVisualization t' path
        = if bool_decide (moduleIds pv = path) then Some i else None)
  /\ pathVisualizations t' !! i = Some pv
  /\ removePathVisualization i t' = t.
Proof.
  cbv zeta. split; [|split; [|split]].
  - intros path j Hj. apply getPathVisualization_Some in Hj
      as (pv0 & Hj & Hids & Hleast).
    apply getPathVisualization_Some. exists pv0.
    cbn [addPathVisualization set_pathVisualizations pathVisualizations].
    split; [apply lookup_app_l_Some; exact Hj|]. split; [exact Hids|].
    intros j' pv' Hj' Hlt. apply (Hleast j' pv'); [|exact Hlt].
    rewrite lookup_app_l in Hj'; [exact Hj'|].
    apply lookup_lt_Some in Hj. lia.
  - intros path Hnone.
    pose proof (proj1 (getPathVisualization_None t path) Hnone) as Hall.
    case_bool_decide as Heq.
    + apply getPathVisualization_Some. exists pv.
      cbn [addPathVisualization set_pathVisualizations pathVisualizations].
      split; [apply list_lookup_middle; reflexivity|]. split; [exact Heq|].
      intros j pv' Hj Hlt. rewrite lookup_app_l in Hj by exact Hlt.
      apply Hall. apply list_elem_of_lookup. exists j. exact Hj.
    + apply getPathVisualization_None.
      cbn [addPathVisualization set_pathVisualizations pathVisualizations].
      intros pv' Hin. apply elem_of_app in Hin as [Hin|Hin].
      * exact (Hall pv' Hin).
      * apply list_elem_of_singleton in Hin. subst pv'. exact Heq.
  - cbn [addPathVisualization set_pathVisualizations pathVisualizations].
    apply list_lookup_middle. reflexivity.
  - unfold removePathVisualization.
    cbn [addPathVisualization set_pathVisualizations pathVisualizations
           incompletePaths].
    rewrite delete_middle, app_nil_r. destruct t. reflexivity.
Qed.

(** ** Reception of signals *)

Section ReceiveSignal.

Variable startPathSignal extendPathSignal endPathSignal : Z.
Variable isPathStart isPathElement isPathEnd : Z -> bool.
Variable getContainingNode : Z -> Z.

(** X16 (receiveSignal): a signal that is none of the three registered
    ones is an error ("Unknown signal"); one of the three is always
    handled without error.  A packet that the packet filter rejects leaves
    the tracker unchanged whatever the signal is, and for the signal that
    extends a path (when it is not also the start signal, which is tested
    first) the node filter plays no part. *)
Theorem receiveSignal_filters (nodeFilterMatches : Z -> bool)
    (packetFilterMatches : Packet -> bool) (now : AnimationPosition)
    (source signal : Z) (packet : Packet) (details : option string)
    (t : Tracker) :
  let receive nodeFilterMatches :=
    receiveSignal startPathSignal extendPathSignal endPathSignal
      isPathStart isPathElement isPathEnd getContainingNode
      nodeFilterMatches packetFilterMatches now source signal packet
      details t in
  (signal <> startPathSignal -> signal <> extendPathSignal ->
   signal <> endPathSignal ->
   receive nodeFilterMatches = Fail (cRuntimeError "Unknown signal"))
  /\ (signal = startPathSignal \/ signal = extendPathSignal
      \/ signal = endPathSignal ->
      exists t', receive nodeFilterMatches = Ok t')
  /\ (signal = startPathSignal \/ signal = extendPathSignal
      \/ signal = endPathSignal ->
      packetFilterMatches packet = false ->
      receive nodeFilterMatches = Ok t)
  /\ (signal = extendPathSignal -> signal <> startPathSignal ->
      forall otherNodeFilterMatches,
        receive otherNodeFilterMatches = receive nodeFilterMatches).
Proof.
  cbv zeta. unfold receiveSignal. split; [|split; [|split]].
  - intros H1 H2 H3.
    rewrite (proj2 (Z.eqb_neq _ _) H1), (proj2 (Z.eqb_neq _ _) H2),
      (proj2 (Z.eqb_neq _ _) H3). reflexivity.
  - intros Hknown.
    destruct (Z.eqb_spec signal startPathSignal) as [_|H1];
      [destruct (isPathStart source); [destruct (_ && _)|]; eexists;
       reflexivity|].
    destruct (Z.eqb_spec signal extendPathSignal) as [_|H2];
      [destruct (isPathElement source);
       [destruct (packetFilterMatches packet)|]; eexists; reflexivity|].
    destruct (Z.eqb_spec signal endPathSignal) as [_|H3];
      [destruct (isPathEnd source); [destruct (_ && _)|]; eexists;
       reflexivity|].
    exfalso. destruct Hknown as [H|[H|H]]; contradiction.
  - intros Hknown Hpacket. rewrite Hpacket, !andb_false_r.
    destruct (Z.eqb_spec signal startPathSignal) as [_|H1];
      [destruct (isPathStart source); reflexivity|].
    destruct (Z.eqb_spec signal extendPathSignal) as [_|H2];
      [destruct (isPathElement source); reflexivity|].
    destruct (Z.eqb_spec signal endPathSignal) as [_|H3];
      [destruct (isPathEnd source); reflexivity|].
    exfalso. destruct Hknown as [H|[H|H]]; contradiction.
  - intros Hext Hstart other.
    rewrite (proj2 (Z.eqb_neq _ _) Hstart), (proj2 (Z.eqb_eq _ _) Hext).
    reflexivity.
Qed.

End ReceiveSignal.

(** ** Display refreshes *)

Lemma removePathVisualizations_sublist removed i l :
  removePathVisualizations removed i l `sublist_of` l.
Proof.
  revert i. induction l as [|pv l IH]; intros i; cbn; [constructor|].
  case_bool_decide; [apply sublist_cons | apply sublist_skip]; apply IH.
Qed.

Lemma removePathVisualizations_nil i l :
  removePathVisualizations [] i l = l.
Proof.
  revert i. induction l as [|pv l IH]; intros i; [reflexivity|].
  cbn [removePathVisualizations].
  rewrite bool_decide_eq_false_2 by (intros H; inversion H).
  rewrite IH. reflexivity.
Qed.

Section FadeOut.

Variable kernel : Kernel.
Variable fadeOutMode : string.
Variable fadeOutTime : double.
Variable now : AnimationPosition.

Lemma idleTime_unknown pv :
  fadeOutMode <> "simulationTime"%string ->
  fadeOutMode <> "animationTime"%string ->
  fadeOutMode <> "realTime"%string ->
  idleTime kernel fadeOutMode now pv = Fail (cRuntimeError "Unknown fadeOutMode").
Proof.
  intros H1 H2 H3. unfold idleTime.
  rewrite (proj2 (String.eqb_neq _ _) H1), (proj2 (String.eqb_neq _ _) H2),
    (proj2 (String.eqb_neq _ _) H3). reflexivity.
Qed.

Lemma idleTime_Fail pv e :
  idleTime kernel fadeOutMode now pv = Fail e ->
  e = cRuntimeError "Unknown fadeOutMode"
  /\ fadeOutMode <> "simulationTime"%string
  /\ fadeOutMode <> "animationTime"%string
  /\ fadeOutMode <> "realTime"%string.
Proof.
  unfold idleTime.
  destruct (String.eqb_spec fadeOutMode "simulationTime") as [|H1];
    [discriminate|].
  destruct (String.eqb_spec fadeOutMode "animationTime") as [|H2];
    [discriminate|].
  destruct (String.eqb_spec fadeOutMode "realTime") as [|H3];
    [discriminate|].
  intros [= <-]. repeat split; assumption.
Qed.

Lemma refreshLoop_Fail l :
  forall i e,
    refreshLoop kernel fadeOutMode fadeOutTime now i l = Fail e ->
    l <> []
    /\ e = cRuntimeError "Unknown fadeOutMode"
    /\ fadeOutMode <> "simulationTime"%string
    /\ fadeOutMode <> "animationTime"%string
    /\ fadeOutMode <> "realTime"%string.
Proof.
  induction l as [|pv l IH]; intros i e; [discriminate|].
  cbn [refreshLoop].
  destruct (idleTime kernel fadeOutMode now pv) as [delta|e'] eqn:E.
  - destruct (refreshLoop kernel fadeOutMode fadeOutTime now (S i) l) as [eff|e']
      eqn:E'.
    + destruct (fadeOutTime <? delta)%dbl; discriminate.
    + intros [= <-]. split; [discriminate|]. exact (proj2 (IH _ _ E')).
  - intros [= <-]. split; [discriminate|]. exact (idleTime_Fail pv e' E).
Qed.

(** What the first loop of [refreshDisplay] has collected when it ends
    without error. *)
Lemma refreshLoop_Ok l :
  forall i eff,
    refreshLoop kernel fadeOutMode fadeOutTime now i l = Ok eff ->
    (forall k, k ∈ removedPathVisualizations eff -> (i <= k)%nat)
    /\ removePathVisualizations (removedPathVisualizations eff) i l
       = List.filter (isRetained kernel fadeOutMode fadeOutTime now) l
    /\ (forall k a,
          (k, a) ∈ setAlphaCalls eff ->
          exists pv delta,
            (i <= k)%nat /\ l !! (k - i)%nat = Some pv
            /\ idleTime kernel fadeOutMode now pv = Ok delta
            /\ (fadeOutTime <? delta)%dbl = false
            /\ a = (of_int64 1 - delta / fadeOutTime)%dbl
            /\ k ∉ removedPathVisualizations eff)
    /\ (length (List.filter (isRetained kernel fadeOutMode fadeOutTime now) l)
        + length (removedPathVisualizations eff))%nat
       = length l.
Proof.
  induction l as [|pv l IH]; intros i eff.
  - intros [= <-]. split; [intros k Hk; inversion Hk|]. split; [reflexivity|].
    split; [|reflexivity]. intros k a Hk. inversion Hk.
  - cbn [refreshLoop List.filter].
    destruct (idleTime kernel fadeOutMode now pv) as [delta|e] eqn:E; [|discriminate].
    destruct (refreshLoop kernel fadeOutMode fadeOutTime now (S i) l) as [eff1|e]
      eqn:E1; [|discriminate].
    destruct (IH _ _ E1) as (Hrem & Hfilter & Halpha & Hcount).
    destruct (fadeOutTime <? delta)%dbl eqn:Hlt; intros [= <-];
      cbn [removedPathVisualizations setAlphaCalls removePathVisualizations].
    + assert (isRetained kernel fadeOutMode fadeOutTime now pv = false) as ->.
      { unfold isRetained. rewrite E, Hlt. reflexivity. }
      split.
      { intros k Hk. apply elem_of_cons in Hk as [->|Hk]; [lia|].
        specialize (Hrem k Hk). lia. }
      split.
      { rewrite bool_decide_eq_true_2 by (left).
        rewrite <- Hfilter. apply removePathVisualizations_ext.
        intros k Hk. rewrite elem_of_cons. split; [|tauto].
        intros [->|H]; [lia | exact H]. }
      split; [|cbv beta iota; cbn [length]; lia].
      intros k a Hk.
      destruct (Halpha k a Hk) as (pv' & d & Hik & Hl & Hd & Hdle & Ha & Hn).
      exists pv', d. split; [lia|]. split.
      { replace (k - i)%nat with (S (k - S i)) by lia. exact Hl. }
      repeat split; try assumption.
      rewrite elem_of_cons. intros [->|H]; [lia | exact (Hn H)].
    + assert (isRetained kernel fadeOutMode fadeOutTime now pv = true) as ->.
      { unfold isRetained. rewrite E, Hlt. reflexivity. }
      split; [intros k Hk; specialize (Hrem k Hk); lia|].
      split.
      { rewrite bool_decide_eq_false_2
          by (intros H; specialize (Hrem i H); lia).
        rewrite Hfilter. reflexivity. }
      split; [|cbv beta iota; cbn [length]; lia].
      intros k a Hk. apply elem_of_cons in Hk as [[= -> ->]|Hk].
      * exists pv, delta. split; [lia|]. rewrite Nat.sub_diag.
        repeat split; try assumption; try reflexivity.
        intros H. specialize (Hrem i H). lia.
      * destruct (Halpha k a Hk) as (pv' & d & Hik & Hl & Hd & Hdle & Ha & Hn).
        exists pv', d. split; [lia|]. split.
        { replace (k - i)%nat with (S (k - S i)) by lia. exact Hl. }
        repeat split; assumption.
Qed.

Lemma refreshLoop_all_retained l :
  Forall (fun pv => isRetained kernel fadeOutMode fadeOutTime now pv = true) l ->
  forall i,
    exists eff,
      refreshLoop kernel fadeOutMode fadeOutTime now i l = Ok eff
      /\ removedPathVisualizations eff = [].
Proof.
  induction 1 as [|pv l Hpv _ IH]; intros i.
  - eexists. split; reflexivity.
  - cbn [refreshLoop]. unfold isRetained in Hpv.
    destruct (idleTime kernel fadeOutMode now pv) as [delta|e]; [|discriminate].
    destruct (IH (S i)) as (eff & -> & Hnil).
    destruct (fadeOutTime <? delta)%dbl; [discriminate|].
    eexists. split; [reflexivity|]. exact Hnil.
Qed.

(** X17 (refreshDisplay): a display refresh fails only for an unknown
    [fadeOutMode], and then only if fading is enabled (positive
    [fadeOutTime]) and there is a visualization to look at: with no
    visualization, or with fading disabled, the unknown mode goes
    unnoticed. *)
Theorem refreshDisplay_fails_iff (t : Tracker) :
  (forall e,
     refreshDisplay kernel fadeOutMode fadeOutTime now t = Fail e ->
     e = cRuntimeError "Unknown fadeOutMode")
  /\ (refreshDisplay kernel fadeOutMode fadeOutTime now t
      = Fail (cRuntimeError "Unknown fadeOutMode")
      <-> (of_int64 0 <? fadeOutTime)%dbl = true
          /\ pathVisualizations t <> []
          /\ fadeOutMode <> "simulationTime"%string
          /\ fadeOutMode <> "animationTime"%string
          /\ fadeOutMode <> "realTime"%string).
Proof.
  unfold refreshDisplay. split; [|split].
  - intros e. destruct (of_int64 0 <? fadeOutTime)%dbl; [|discriminate].
    destruct (refreshLoop kernel fadeOutMode fadeOutTime now 0 (pathVisualizations t))
      as [eff|e'] eqn:E; [discriminate|].
    intros [= <-]. exact (proj1 (proj2 (refreshLoop_Fail _ _ _ E))).
  - destruct (of_int64 0 <? fadeOutTime)%dbl eqn:Hpos; [|discriminate].
    destruct (refreshLoop kernel fadeOutMode fadeOutTime now 0 (pathVisualizations t))
      as [eff|e'] eqn:E; [discriminate|].
    intros _. destruct (refreshLoop_Fail _ _ _ E) as (H1 & _ & H2).
    split; [reflexivity|]. split; [exact H1 | exact H2].
  - intros (Hpos & Hne & H1 & H2 & H3).
    rewrite Hpos.
    destruct (pathVisualizations t) as [|pv l]; [contradiction|].
    cbn [refreshLoop]. rewrite (idleTime_unknown pv H1 H2 H3). reflexivity.
Qed.

(** X18 (refreshDisplay, removePathVisualization): a display refresh only
    removes.  It leaves the incomplete paths alone, and the visualizations
    it leaves are some of those there were, unchanged and in the same
    order.  A second refresh at the same position removes nothing more. *)
Theorem refreshDisplay_only_removes (t t' : Tracker) (eff : RefreshEffects) :
  refreshDisplay kernel fadeOutMode fadeOutTime now t = Ok (t', eff) ->
  incompletePaths t' = incompletePaths t
  /\ pathVisualizations t' `sublist_of` pathVisualizations t
  /\ (length (pathVisualizations t')
      + length (removedPathVisualizations eff))%nat
     = length (pathVisualizations t)
  /\ exists eff',
       refreshDisplay kernel fadeOutMode fadeOutTime now t' = Ok (t', eff')
       /\ removedPathVisualizations eff' = [].
Proof.
  unfold refreshDisplay. destruct (of_int64 0 <? fadeOutTime)%dbl.
  - destruct (refreshLoop kernel fadeOutMode fadeOutTime now 0 (pathVisualizations t))
      as [eff0|e] eqn:E; [|discriminate].
    intros [= <- <-].
    destruct (refreshLoop_Ok _ _ _ E) as (_ & Hfilter & _ & Hcount).
    cbn [set_pathVisualizations incompletePaths pathVisualizations].
    split; [reflexivity|].
    split; [apply removePathVisualizations_sublist|].
    rewrite Hfilter. split; [exact Hcount|].
    destruct (refreshLoop_all_retained
                (List.filter (isRetained kernel fadeOutMode fadeOutTime now)
                   (pathVisualizations t))) with (i := 0%nat)
      as (eff' & -> & Hnil).
    { apply Forall_forall. intros pv Hin. apply list_elem_of_In in Hin.
      apply List.filter_In in Hin. exact (proj2 Hin). }
    exists eff'. split; [|exact Hnil].
    rewrite Hnil, removePathVisualizations_nil. reflexivity.
  - intros [= <- <-]. split; [reflexivity|]. split; [reflexivity|].
    cbn [removedPathVisualizations length]. split; [lia|].
    eexists. split; reflexivity.
Qed.

(** X19 (refreshDisplay): opacity is only ever set on visualizations that
    the same refresh keeps, and it is [1 - delta / fadeOutTime] for their
    idle time [delta].  With the fade-out time and the idle time values
    that a [double] of the machine takes, the opacity is never negative,
    and it is never above 1 unless the visualization was last used after
    the position of the refresh; for a finite idle time the opacity is at
    least 0, and at most 1 unless the visualization was last used after
    the position of the refresh.  (An idle time that is infinite or NaN
    can give the opacity NaN, which is neither.) *)
Theorem refreshDisplay_opacity_range (t t' : Tracker) (eff : RefreshEffects) :
  valid fadeOutTime = true ->
  refreshDisplay kernel fadeOutMode fadeOutTime now t = Ok (t', eff) ->
  forall i a,
    (i, a) ∈ setAlphaCalls eff ->
    (i ∉ removedPathVisualizations eff)
    /\ exists pv delta,
         pathVisualizations t !! i = Some pv
         /\ idleTime kernel fadeOutMode now pv = Ok delta
         /\ a = (of_int64 1 - delta / fadeOutTime)%dbl
         /\ (valid delta = true ->
             (a <? of_int64 0)%dbl = false
             /\ ((delta >=? of_int64 0)%dbl = true ->
                 (of_int64 1 <? a)%dbl = false)
             /\ (isfinite delta = true ->
                 (a >=? of_int64 0)%dbl = true
                 /\ ((delta >=? of_int64 0)%dbl = true ->
                     (of_int64 1 >=? a)%dbl = true))).
Proof.
  intros Hvalid. unfold refreshDisplay.
  destruct (of_int64 0 <? fadeOutTime)%dbl eqn:Hpos;
    [|intros [= <- <-] i a Hin; inversion Hin].
  destruct (refreshLoop kernel fadeOutMode fadeOutTime now 0
              (pathVisualizations t)) as [eff0|e] eqn:E; [|discriminate].
  intros [= <- <-] i a Hin.
  destruct (refreshLoop_Ok _ _ _ E) as (_ & _ & Halpha & _).
  destruct (Halpha i a Hin) as (pv & delta & _ & Hl & Hd & Hle & -> & Hn).
  rewrite Nat.sub_0_r in Hl.
  split; [exact Hn|]. exists pv, delta. split; [exact Hl|].
  split; [exact Hd|]. split; [reflexivity|]. intros Hdelta.
  exact (DoubleProperties.opacity_bounds fadeOutTime delta Hvalid Hdelta
           Hpos Hle).
Qed.

End FadeOut.

(** ** Invariants of the tracker *)

Lemma processPathStart_pathVisualizations node label packet t :
  pathVisualizations (processPathStart node label packet t)
  = pathVisualizations t.
Proof.
  unfold processPathStart. revert t.
  induction packet as [|chunk packet IH]; intros t; [reflexivity|].
  cbn [foldl]. rewrite IH.
  exact (proj1 (processPathStart_step node label chunk t)).
Qed.

Lemma processPathElement_pathVisualizations node label packet t :
  pathVisualizations (processPathElement node label packet t)
  = pathVisualizations t.
Proof.
  unfold processPathElement. revert t.
  induction packet as [|chunk packet IH]; intros t; [reflexivity|].
  cbn [foldl]. rewrite IH.
  exact (proj1 (processPathElement_step node label chunk t)).
Qed.

Lemma extendedBy_nonempty node path : extendedBy node path <> [].
Proof.
  unfold extendedBy. case_bool_decide as H.
  - intros ->. discriminate H.
  - destruct path; discriminate.
Qed.

Lemma addToIncompletePath_nonEmpty label cid node t :
  pathsNonEmpty t -> pathsNonEmpty (addToIncompletePath label cid node t).
Proof.
  unfold pathsNonEmpty. rewrite incompletePaths_addToIncompletePath.
  intros H. apply map_Forall_insert_2; [apply extendedBy_nonempty | exact H].
Qed.

Lemma removeIncompletePath_nonEmpty label cid t :
  pathsNonEmpty t -> pathsNonEmpty (removeIncompletePath label cid t).
Proof. apply map_Forall_delete. Qed.

Lemma processPathStart_nonEmpty node label packet t :
  pathsNonEmpty t -> pathsNonEmpty (processPathStart node label packet t).
Proof.
  unfold processPathStart. revert t.
  induction packet as [|chunk packet IH]; intros t Ht; [exact Ht|].
  cbn [foldl]. apply IH. apply addToIncompletePath_nonEmpty.
  destruct (getIncompletePath t label (chunkId chunk));
    [apply removeIncompletePath_nonEmpty|]; exact Ht.
Qed.

Lemma processPathElement_nonEmpty node label packet t :
  pathsNonEmpty t -> pathsNonEmpty (processPathElement node label packet t).
Proof.
  unfold processPathElement. revert t.
  induction packet as [|chunk packet IH]; intros t Ht; [exact Ht|].
  cbn [foldl]. apply IH.
  destruct (getIncompletePath t label (chunkId chunk));
    [apply addToIncompletePath_nonEmpty|]; exact Ht.
Qed.

Lemma processPathEnd_nonEmpty now node label packet t :
  pathsNonEmpty t -> pathsNonEmpty (processPathEnd now node label packet t).
Proof.
  intros Ht. unfold processPathEnd.
  assert (forall st,
            pathsNonEmpty (fst st) ->
            pathsNonEmpty
              (fst (foldl (processPathEndChunk now node label) st packet)))
    as Hloop.
  { induction packet as [|chunk packet IH]; intros st Hst; [exact Hst|].
    cbn [foldl]. apply IH. unfold pathsNonEmpty.
    rewrite processPathEndChunk_paths. apply map_Forall_delete. exact Hst. }
  specialize (Hloop (t, ∅) Ht).
  destruct (foldl (processPathEndChunk now node label) (t, ∅) packet)
    as [t' updated].
  exact Hloop.
Qed.

Lemma moduleIds_alter_addToTotalLength len i (l : list PathVisualization) :
  moduleIds <$> alter (addToTotalLength len) i l = moduleIds <$> l.
Proof.
  rewrite (list_fmap_alter moduleIds (addToTotalLength len) id).
  - apply list_alter_id. reflexivity.
  - apply Forall_forall. reflexivity.
Qed.

Lemma moduleIds_touchUpdated now updated l :
  moduleIds <$> touchUpdated now updated l = moduleIds <$> l.
Proof.
  unfold touchUpdated. apply list_eq. intros i.
  rewrite !list_lookup_fmap, list_lookup_imap.
  destruct (l !! i); [|reflexivity]. cbn. case_bool_decide; reflexivity.
Qed.

(** What holds of the visualizations during the chunk loop of
    [processPathEnd]: a visualization just created has no packet counted
    yet, and is in the set of those to be updated. *)
Lemma processPathEndChunk_visualizations now node label st chunk :
  pathsWellFormed (fst st) ->
  NoDup (moduleIds <$> pathVisualizations (fst st)) ->
  (forall i pv,
     pathVisualizations (fst st) !! i = Some pv ->
     (1 < length (moduleIds pv))%nat
     /\ noConsecutiveDuplicates (moduleIds pv)
     /\ 0 <= numPackets pv
     /\ (i ∉ snd st -> 1 <= numPackets pv)) ->
  let st' := processPathEndChunk now node label st chunk in
  NoDup (moduleIds <$> pathVisualizations (fst st'))
  /\ (forall i pv,
        pathVisualizations (fst st') !! i = Some pv ->
        (1 < length (moduleIds pv))%nat
        /\ noConsecutiveDuplicates (moduleIds pv)
        /\ 0 <= numPackets pv
        /\ (i ∉ snd st' -> 1 <= numPackets pv)).
Proof.
  destruct st as [t updated]. cbn [fst snd]. intros Hwf Hnd Hinv. cbv zeta.
  unfold processPathEndChunk.
  destruct (getIncompletePath t label (chunkId chunk));
    [|split; assumption].
  pose proof (addToIncompletePath_wellFormed label (chunkId chunk) node t Hwf)
    as Hwf1.
  assert (getIncompletePath
            (addToIncompletePath label (chunkId chunk) node t) label
            (chunkId chunk)
          = Some (extendedBy node
                    (default [] (incompletePaths t !! (label, chunkId chunk)))))
    as Hpath.
  { unfold getIncompletePath. rewrite incompletePaths_addToIncompletePath.
    apply lookup_insert_eq. }
  set (t1 := addToIncompletePath label (chunkId chunk) node t) in *.
  assert (pathVisualizations t1 = pathVisualizations t) as Hpvs
    by reflexivity.
  pose proof (Hwf1 _ _ Hpath) as Hnc. cbv beta in Hnc.
  rewrite Hpath. cbn [default from_option id].
  set (path := extendedBy node
                 (default [] (incompletePaths t !! (label, chunkId chunk))))
    in *.
  case_bool_decide as Hlen;
    [|cbn [fst snd removeIncompletePath set_incompletePaths
             pathVisualizations]; rewrite Hpvs; split; assumption].
  destruct (getPathVisualization t1 path) as [i0|] eqn:Hget;
    cbn [fst snd removeIncompletePath set_incompletePaths
           set_pathVisualizations addPathVisualization pathVisualizations];
    rewrite Hpvs.
  - rewrite moduleIds_alter_addToTotalLength. split; [exact Hnd|].
    intros i pv Hi. destruct (decide (i0 = i)) as [->|Hne].
    + rewrite list_lookup_alter_eq in Hi.
      destruct (pathVisualizations t !! i) as [pv0|] eqn:E; [|discriminate].
      injection Hi as <-. destruct (Hinv i pv0 E) as (H1 & H2 & H3 & _).
      repeat split; try assumption.
      intros Hnot. exfalso. apply Hnot.
      apply elem_of_union. left. apply elem_of_singleton. reflexivity.
    + rewrite list_lookup_alter_ne in Hi by exact Hne.
      destruct (Hinv i pv Hi) as (H1 & H2 & H3 & H4).
      repeat split; try assumption.
      intros Hnot. apply H4.
      intros Hin. apply Hnot. apply elem_of_union. right. exact Hin.
  - rewrite moduleIds_alter_addToTotalLength, fmap_snoc. split.
    + apply NoDup_app. split; [exact Hnd|]. split; [|apply NoDup_singleton].
      intros x Hx Hx'. apply list_elem_of_singleton in Hx'. subst x.
      apply list_elem_of_fmap in Hx as (pv & Heq & Hin).
      pose proof (proj1 (getPathVisualization_None t1 path) Hget) as Hnone.
      cbn in Heq.
      apply (Hnone pv); [rewrite Hpvs; exact Hin | symmetry; exact Heq].
    + intros i pv Hi.
      destruct (decide (length (pathVisualizations t) = i)) as [<-|Hne].
      * rewrite list_lookup_alter_eq, list_lookup_middle in Hi by reflexivity.
        injection Hi as <-. cbn. repeat split; try assumption; try lia.
        intros Hnot. exfalso. apply Hnot.
        apply elem_of_union. left. apply elem_of_singleton. reflexivity.
      * rewrite list_lookup_alter_ne in Hi by exact Hne.
        apply lookup_snoc_Some in Hi as [[_ Hi]|[Heq _]]; [|congruence].
        destruct (Hinv i pv Hi) as (H1 & H2 & H3 & H4).
        repeat split; try assumption.
        intros Hnot. apply H4.
        intros Hin. apply Hnot. apply elem_of_union. right. exact Hin.
Qed.

Lemma processPathEnd_visualizations now node label packet t :
  pathsWellFormed t ->
  visualizationsDistinct t ->
  Forall visualizationWellFormed (pathVisualizations t) ->
  visualizationsDistinct (processPathEnd now node label packet t)
  /\ Forall visualizationWellFormed
       (pathVisualizations (processPathEnd now node label packet t)).
Proof.
  unfold visualizationsDistinct. intros Hwf Hnd Hall. unfold processPathEnd.
  assert (forall st : Tracker * gset nat,
            pathsWellFormed (fst st) ->
            NoDup (moduleIds <$> pathVisualizations (fst st)) ->
            (forall i pv,
               pathVisualizations (fst st) !! i = Some pv ->
               (1 < length (moduleIds pv))%nat
               /\ noConsecutiveDuplicates (moduleIds pv)
               /\ 0 <= numPackets pv
               /\ (i ∉ snd st -> 1 <= numPackets pv)) ->
            let st' := foldl (processPathEndChunk now node label) st packet in
            NoDup (moduleIds <$> pathVisualizations (fst st'))
            /\ (forall i pv,
                  pathVisualizations (fst st') !! i = Some pv ->
                  (1 < length (moduleIds pv))%nat
                  /\ noConsecutiveDuplicates (moduleIds pv)
                  /\ 0 <= numPackets pv
                  /\ (i ∉ snd st' -> 1 <= numPackets pv))) as Hloop.
  { cbv zeta. induction packet as [|chunk packet IH]; intros st H1 H2 H3;
      [split; assumption|].
    cbn [foldl].
    destruct (processPathEndChunk_visualizations now node label st chunk
                H1 H2 H3) as [H2' H3'].
    apply IH; [|exact H2'|exact H3'].
    apply processPathEndChunk_wellFormed. exact H1. }
  destruct (Hloop (t, ∅) Hwf Hnd) as [Hnd' Hinv'].
  { cbn [fst snd]. intros i pv Hi.
    rewrite Forall_lookup in Hall. destruct (Hall i pv Hi) as (H1 & H2 & H3).
    repeat split; try assumption; lia. }
  destruct (foldl (processPathEndChunk now node label) (t, ∅) packet)
    as [t' updated].
  cbn [fst snd set_pathVisualizations pathVisualizations] in *.
  split; [rewrite moduleIds_touchUpdated; exact Hnd'|].
  apply Forall_lookup. intros i pv Hi.
  unfold touchUpdated in Hi. rewrite list_lookup_imap in Hi.
  destruct (pathVisualizations t' !! i) as [pv0|] eqn:E; [|discriminate].
  injection Hi as <-. destruct (Hinv' i pv0 E) as (H1 & H2 & H3 & H4).
  unfold visualizationWellFormed.
  case_bool_decide as Hin; cbn.
  - repeat split; try assumption. lia.
  - repeat split; try assumption. exact (H4 Hin).
Qed.

Lemma refreshDisplay_sublist kernel fadeOutMode fadeOutTime now t t' eff :
  refreshDisplay kernel fadeOutMode fadeOutTime now t = Ok (t', eff) ->
  incompletePaths t' = incompletePaths t
  /\ pathVisualizations t' `sublist_of` pathVisualizations t.
Proof.
  unfold refreshDisplay. destruct (of_int64 0 <? fadeOutTime)%dbl.
  - destruct (refreshLoop kernel fadeOutMode fadeOutTime now 0
                (pathVisualizations t))
      as [eff'|e]; [|discriminate].
    intros [= <- <-]. split; [reflexivity|].
    apply removePathVisualizations_sublist.
  - intros [= <- <-]. split; reflexivity.
Qed.

(** The invariant of the tracker between calls. *)
Lemma handleEvent_invariant t e :
  pathsWellFormed t /\ pathsNonEmpty t /\ visualizationsDistinct t
  /\ Forall visualizationWellFormed (pathVisualizations t) ->
  let t' := handleEvent t e in
  pathsWellFormed t' /\ pathsNonEmpty t' /\ visualizationsDistinct t'
  /\ Forall visualizationWellFormed (pathVisualizations t').
Proof.
  intros (H1 & H2 & H3 & H4). cbv zeta.
  destruct e as [node lbl packet|node lbl packet|now node lbl packet|];
    cbn [handleEvent].
  - split; [apply processPathStart_wellFormed; exact H1|].
    split; [apply processPathStart_nonEmpty; exact H2|].
    unfold visualizationsDistinct.
    rewrite processPathStart_pathVisualizations.
    split; assumption.
  - split; [apply processPathElement_wellFormed; exact H1|].
    split; [apply processPathElement_nonEmpty; exact H2|].
    unfold visualizationsDistinct.
    rewrite processPathElement_pathVisualizations.
    split; assumption.
  - split; [apply processPathEnd_wellFormed; exact H1|].
    split; [apply processPathEnd_nonEmpty; exact H2|].
    apply processPathEnd_visualizations; assumption.
  - split; [apply map_Forall_empty|]. split; [apply map_Forall_empty|].
    split; [apply NoDup_nil_2 | apply Forall_nil_2].
Qed.

Section Calls.

Variable startPathSignal extendPathSignal endPathSignal : Z.
Variable isPathStart isPathElement isPathEnd : Z -> bool.
Variable getContainingNode : Z -> Z.
Variable kernel : Kernel.
Variable fadeOutMode : string.
Variable fadeOutTime : double.

Lemma receiveSignal_event nodeFilterMatches packetFilterMatches now source
    signal packet details t t' :
  receiveSignal startPathSignal extendPathSignal endPathSignal
    isPathStart isPathElement isPathEnd getContainingNode
    nodeFilterMatches packetFilterMatches now source signal packet details t
  = Ok t' ->
  t' = t \/ exists e, t' = handleEvent t e.
Proof.
  unfold receiveSignal.
  destruct (signal =? startPathSignal);
    [|destruct (signal =? extendPathSignal);
      [|destruct (signal =? endPathSignal); [|discriminate]]].
  - destruct (isPathStart source); [|intros [= <-]; left; reflexivity].
    destruct (_ && _); intros [= <-]; [|left; reflexivity].
    right. eexists (PathStart _ _ _). reflexivity.
  - destruct (isPathElement source); [|intros [= <-]; left; reflexivity].
    destruct (packetFilterMatches packet); intros [= <-];
      [|left; reflexivity].
    right. eexists (PathElement _ _ _). reflexivity.
  - destruct (isPathEnd source); [|intros [= <-]; left; reflexivity].
    destruct (_ && _); intros [= <-]; [|left; reflexivity].
    right. eexists (PathEnd _ _ _ _). reflexivity.
Qed.

Lemma call_invariant c t t' :
  call startPathSignal extendPathSignal endPathSignal isPathStart
    isPathElement isPathEnd getContainingNode kernel fadeOutMode fadeOutTime
    c t
  = Ok t' ->
  pathsWellFormed t /\ pathsNonEmpty t /\ visualizationsDistinct t
  /\ Forall visualizationWellFormed (pathVisualizations t) ->
  pathsWellFormed t' /\ pathsNonEmpty t' /\ visualizationsDistinct t'
  /\ Forall visualizationWellFormed (pathVisualizations t').
Proof.
  intros Hcall Hinv. destruct c; cbn [call] in Hcall.
  - apply receiveSignal_event in Hcall as [->|[e ->]]; [exact Hinv|].
    apply handleEvent_invariant. exact Hinv.
  - injection Hcall as <-. unfold handleParameterChange.
    destruct (negb hasGUI); [exact Hinv|]. destruct name; [|exact Hinv].
    exact (handleEvent_invariant t ParameterChange Hinv).
  - destruct (refreshDisplay kernel fadeOutMode fadeOutTime now t)
      as [[t1 eff]|e]
      eqn:E; [|discriminate].
    injection Hcall as <-.
    destruct (refreshDisplay_sublist _ _ _ _ _ _ _ E) as [Hpaths Hsub].
    destruct Hinv as (H1 & H2 & H3 & H4).
    unfold pathsWellFormed, pathsNonEmpty, visualizationsDistinct.
    rewrite Hpaths. split; [exact H1|]. split; [exact H2|]. split.
    + exact (sublist_NoDup _ _ H3 (fmap_sublist moduleIds _ _ Hsub)).
    + apply Forall_forall. intros pv Hin. rewrite Forall_forall in H4.
      apply H4. eapply elem_of_sublist; eassumption.
Qed.

Lemma calls_invariant cs :
  forall t t',
    calls startPathSignal extendPathSignal endPathSignal isPathStart
      isPathElement isPathEnd getContainingNode kernel fadeOutMode fadeOutTime
      cs t
    = Ok t' ->
    pathsWellFormed t /\ pathsNonEmpty t /\ visualizationsDistinct t
    /\ Forall visualizationWellFormed (pathVisualizations t) ->
    pathsWellFormed t' /\ pathsNonEmpty t' /\ visualizationsDistinct t'
    /\ Forall visualizationWellFormed (pathVisualizations t').
Proof.
  induction cs as [|c cs IH]; intros t t' Hrun Hinv.
  - injection Hrun as <-. exact Hinv.
  - cbn [calls] in Hrun.
    destruct (call _ _ _ _ _ _ _ _ _ _ c t) as [t1|e] eqn:E; [|discriminate].
    exact (IH t1 t' Hrun (call_invariant c t t1 E Hinv)).
Qed.

Lemma emptyTracker_invariant :
  pathsWellFormed emptyTracker /\ pathsNonEmpty emptyTracker
  /\ visualizationsDistinct emptyTracker
  /\ Forall visualizationWellFormed (pathVisualizations emptyTracker).
Proof.
  split; [apply map_Forall_empty|]. split; [apply map_Forall_empty|].
  split; [apply NoDup_nil_2 | apply Forall_nil_2].
Qed.

(** X20 (processPathEnd, getPathVisualization, addPathVisualization,
    refreshDisplay, receiveSignal, handleParameterChange): a node sequence
    is visualized at most once.  After any run of received signals,
    parameter changes and display refreshes on the initial tracker, no
    two visualizations have the same node sequence, so a path that
    completes again is counted on the visualization it already has. *)
Theorem one_visualization_per_path (cs : list Call) (t : Tracker) :
  calls startPathSignal extendPathSignal endPathSignal isPathStart
    isPathElement isPathEnd getContainingNode kernel fadeOutMode fadeOutTime
    cs
    emptyTracker
  = Ok t ->
  visualizationsDistinct t
  /\ forall i j pv pv',
       pathVisualizations t !! i = Some pv ->
       pathVisualizations t !! j = Some pv' ->
       moduleIds pv = moduleIds pv' ->
       i = j.
Proof.
  intros Hrun.
  destruct (calls_invariant cs _ _ Hrun emptyTracker_invariant)
    as (_ & _ & Hnd & _).
  split; [exact Hnd|]. intros i j pv pv' Hi Hj Heq.
  unfold visualizationsDistinct in Hnd.
  apply (NoDup_lookup _ i j (moduleIds pv) Hnd);
    rewrite list_lookup_fmap; [rewrite Hi | rewrite Hj, Heq]; reflexivity.
Qed.

(** X21 (processPathEnd, createPathVisualization, refreshDisplay,
    receiveSignal, handleParameterChange): after any run of calls on the
    initial tracker every visualization shows a path of at least two
    nodes in which no node follows itself, and has counted at least one
    packet. *)
Theorem visualizations_are_well_formed (cs : list Call) (t : Tracker) :
  calls startPathSignal extendPathSignal endPathSignal isPathStart
    isPathElement isPathEnd getContainingNode kernel fadeOutMode fadeOutTime
    cs
    emptyTracker
  = Ok t ->
  forall pv,
    pv ∈ pathVisualizations t ->
    visualizationWellFormed pv.
Proof.
  intros Hrun.
  destruct (calls_invariant cs _ _ Hrun emptyTracker_invariant)
    as (_ & _ & _ & Hall).
  apply Forall_forall. exact Hall.
Qed.

(** X22 (addToIncompletePath, processPathStart, processPathElement,
    processPathEnd, receiveSignal): after any run of calls on the initial
    tracker no recorded incomplete path is empty: a key is only ever
    present with at least the node that started it. *)
Theorem incomplete_paths_are_never_empty (cs : list Call) (t : Tracker) :
  calls startPathSignal extendPathSignal endPathSignal isPathStart
    isPathElement isPathEnd getContainingNode kernel fadeOutMode fadeOutTime
    cs
    emptyTracker
  = Ok t ->
  forall label chunkId path,
    getIncompletePath t label chunkId = Some path ->
    path <> [].
Proof.
  intros Hrun.
  destruct (calls_invariant cs _ _ Hrun emptyTracker_invariant)
    as (_ & Hne & _ & _).
  intros label chunkId path Hpath. exact (Hne _ _ Hpath).
Qed.

End Calls.

(** ** Concrete instances *)

Lemma getPathVisualization_finds_the_path_witness :
  getPathVisualization sampleTracker [1; 2; 3] = Some 0%nat
  /\ exists pv,
       pathVisualizations sampleTracker !! 0%nat = Some pv
       /\ moduleIds pv = [1; 2; 3].
Proof.
  assert (getPathVisualization sampleTracker [1; 2; 3] = Some 0%nat) as H
    by (vm_compute; reflexivity).
  split; [exact H|].
  destruct (proj1 (getPathVisualization_finds_the_path sampleTracker [1; 2; 3])
              0%nat H) as (pv & Hi & Hids & _).
  exists pv. split; assumption.
Defined.

Lemma processPathStart_restarts_witness :
  getIncompletePath (processPathStart 7 "L" samplePacket sampleTracker) "L" 1
  = Some [7].
Proof.
  apply (proj1 (proj2 (processPathStart_restarts 7 "L" samplePacket
                         sampleTracker)) (mkChunk 1 20)).
  unfold samplePacket. right. left.
Defined.

Lemma processPathElement_extends_witness :
  getIncompletePath
    (processPathElement 2 "L" samplePacket
       (processPathStart 1 "L" samplePacket emptyTracker)) "L" 0
  = extendedBy 2
    <$> getIncompletePath (processPathStart 1 "L" samplePacket emptyTracker)
          "L" 0.
Proof.
  apply (proj1 (proj2 (processPathElement_extends 2 "L" samplePacket
                         (processPathStart 1 "L" samplePacket emptyTracker)))
           (mkChunk 0 100)).
  unfold samplePacket. left.
Defined.

Lemma processPathEnd_closes_witness :
  getIncompletePath
    (processPathEnd (sampleNow 2) 3 "L" samplePacket
       (processPathStart 1 "L" samplePacket emptyTracker)) "L" 0
  = None.
Proof.
  apply (proj1 (processPathEnd_closes (sampleNow 2) 3 "L" samplePacket
                  (processPathStart 1 "L" samplePacket emptyTracker))
           (mkChunk 0 100)).
  unfold samplePacket. left.
Defined.

Lemma events_without_start_are_ignored_witness :
  processPathElement 2 "L" samplePacket sampleTracker = sampleTracker
  /\ processPathEnd (sampleNow 2) 2 "L" samplePacket sampleTracker
     = sampleTracker.
Proof.
  apply (events_without_start_are_ignored (sampleNow 2)).
  intros chunk Hin. unfold samplePacket in Hin.
  apply elem_of_cons in Hin as [->|Hin]; [vm_compute; reflexivity|].
  apply elem_of_cons in Hin as [->|Hin]; [vm_compute; reflexivity|].
  inversion Hin.
Defined.

Lemma processPathEnd_counts_lengths_witness :
  sumTotalLength
    (pathVisualizations
       (processPathEnd (sampleNow 2) 3 "L" samplePacket
          (processPathStart 1 "L" [mkChunk 0 100] sampleTracker)))
  = sumTotalLength (pathVisualizations sampleTracker)
    + chunksLength [mkChunk 0 100].
Proof.
  assert (NoDup (chunkId <$> samplePacket)) as Hnd.
  { cbn. apply NoDup_cons. split; [|apply NoDup_singleton].
    intros H. apply list_elem_of_singleton in H. discriminate H. }
  exact (processPathEnd_counts_lengths (sampleNow 2) 3 "L" samplePacket
           (processPathStart 1 "L" [mkChunk 0 100] sampleTracker) Hnd).
Defined.

Lemma add_lookup_remove_witness :
  getPathVisualization
    (addPathVisualization (createPathVisualization (sampleNow 1) "L" [4; 5])
       sampleTracker) [4; 5]
  = Some 1%nat.
Proof.
  apply (proj1 (proj2 (add_lookup_remove
                         (createPathVisualization (sampleNow 1) "L" [4; 5])
                         sampleTracker)) [4; 5]).
  vm_compute. reflexivity.
Defined.

Lemma receiveSignal_filters_witness :
  receiveSignal 10 11 12 (fun _ => true) (fun _ => true) (fun _ => true)
    (fun module => module) (fun _ => true) (fun _ => true) (sampleNow 0) 1 99
    samplePacket None sampleTracker
  = Fail (cRuntimeError "Unknown signal").
Proof.
  apply (proj1 (receiveSignal_filters 10 11 12 (fun _ => true)
                  (fun _ => true) (fun _ => true) (fun module => module)
                  (fun _ => true) (fun _ => true) (sampleNow 0) 1 99
                  samplePacket None sampleTracker)); lia.
Defined.

Lemma refreshDisplay_fails_iff_witness :
  refreshDisplay sampleKernel "wallClock" (of_int64 1) (sampleNow 1)
    sampleTracker
  = Fail (cRuntimeError "Unknown fadeOutMode").
Proof.
  apply (proj2 (refreshDisplay_fails_iff sampleKernel "wallClock" (of_int64 1)
                  (sampleNow 1) sampleTracker)).
  split; [reflexivity|].
  split; [intros H; vm_compute in H; discriminate H|].
  repeat split; discriminate.
Defined.

Lemma refreshDisplay_only_removes_witness :
  exists t' eff,
    refreshDisplay sampleKernel "simulationTime" (of_int64 1) (sampleNow 5)
      sampleTracker
    = Ok (t', eff)
    /\ pathVisualizations t' `sublist_of` pathVisualizations sampleTracker
    /\ exists eff',
         refreshDisplay sampleKernel "simulationTime" (of_int64 1)
           (sampleNow 5) t' = Ok (t', eff')
         /\ removedPathVisualizations eff' = [].
Proof.
  destruct (refreshDisplay sampleKernel "simulationTime" (of_int64 1) (sampleNow 5)
      sampleTracker)
    as [[t' eff]|e] eqn:H; [|vm_compute in H; discriminate H].
  exists t', eff. split; [reflexivity|].
  destruct (refreshDisplay_only_removes sampleKernel "simulationTime"
              (of_int64 1) (sampleNow 5) sampleTracker t' eff H) as (_ & Hsub & _ & Hagain).
  split; [exact Hsub | exact Hagain].
Defined.

Lemma refreshDisplay_opacity_range_witness :
  exists t' eff a,
    refreshDisplay sampleKernel "simulationTime" (of_int64 4) (sampleNow 1)
      sampleTracker
    = Ok (t', eff)
    /\ (0%nat, a) ∈ setAlphaCalls eff
    /\ (a >=? of_int64 0)%dbl = true
    /\ (of_int64 1 >=? a)%dbl = true.
Proof.
  destruct (refreshDisplay sampleKernel "simulationTime" (of_int64 4)
              (sampleNow 1) sampleTracker)
    as [[t' eff]|e] eqn:H; [|vm_compute in H; discriminate H].
  pose proof H as H'. vm_compute in H'. injection H' as _ Heff.
  assert (exists a, (0%nat, a) ∈ setAlphaCalls eff) as [a Ha].
  { rewrite <- Heff. eexists. left. }
  exists t', eff, a. split; [reflexivity|]. split; [exact Ha|].
  destruct (refreshDisplay_opacity_range sampleKernel "simulationTime"
              (of_int64 4) (sampleNow 1) sampleTracker t' eff eq_refl H
              0%nat a Ha)
    as (_ & pv & delta & Hpv & Hdelta & _ & Hrange).
  vm_compute in Hpv. injection Hpv as <-.
  vm_compute in Hdelta. injection Hdelta as <-.
  destruct (Hrange eq_refl) as (_ & _ & Hfinite).
  destruct (Hfinite eq_refl) as [H0 H1].
  split; [exact H0 | exact (H1 eq_refl)].
Defined.

Lemma one_visualization_per_path_witness :
  exists t, sampleRun sampleCalls = Ok t /\ visualizationsDistinct t.
Proof.
  destruct (sampleRun sampleCalls) as [t|e] eqn:H;
    [|vm_compute in H; discriminate H].
  exists t. split; [reflexivity|]. unfold sampleRun in H.
  exact (proj1 (one_visualization_per_path 10 11 12 (fun _ => true)
                  (fun _ => true) (fun _ => true) (fun module => module)
                  sampleKernel "simulationTime" (of_int64 5) sampleCalls t H)).
Defined.

Lemma visualizations_are_well_formed_witness :
  exists t,
    sampleRun sampleCalls = Ok t
    /\ forall pv, pv ∈ pathVisualizations t -> visualizationWellFormed pv.
Proof.
  destruct (sampleRun sampleCalls) as [t|e] eqn:H;
    [|vm_compute in H; discriminate H].
  exists t. split; [reflexivity|]. unfold sampleRun in H.
  exact (visualizations_are_well_formed 10 11 12 (fun _ => true)
           (fun _ => true) (fun _ => true) (fun module => module)
           sampleKernel "simulationTime" (of_int64 5) sampleCalls t H).
Defined.

Lemma incomplete_paths_are_never_empty_witness :
  exists t,
    sampleRun sampleCalls = Ok t
    /\ forall label chunkId path,
         getIncompletePath t label chunkId = Some path -> path <> [].
Proof.
  destruct (sampleRun sampleCalls) as [t|e] eqn:H;
    [|vm_compute in H; discriminate H].
  exists t. split; [reflexivity|]. unfold sampleRun in H.
  exact (incomplete_paths_are_never_empty 10 11 12 (fun _ => true)
           (fun _ => true) (fun _ => true) (fun module => module)
           sampleKernel "simulationTime" (of_int64 5) sampleCalls t H).
Defined.

End PathTrackerExtras.
